(** * Marker extraction and dispatch (go/packages/packagestest/marker.go)

    A shallow embedding of the marker engine of [packagestest]: the line
    index and marker parser of [Markers.Extract], the anchor table of
    [Markers.Anchors], the type directed converters of
    [Markers.buildConverter] and the dispatch loop of [Markers.Invoke],
    followed by the properties the specification states about them.

    Go's [string] is modelled by [string] and Go's [[]byte] by
    [list ascii]; the conversions [string(b)] and [[]byte(s)] that the
    source writes are the two conversion functions of the standard
    library.  Lengths, indices and offsets are [nat]: they are bounded by
    the size of a file held in memory, so the 64-bit [int] of the source
    never wraps on them. *)

From Stdlib Require Import String Ascii ZArith Lia.

From stdpp Require Import base option list gmap strings.

Local Open Scope string_scope.

Local Open Scope list_scope.

Local Open Scope nat_scope.

Abbreviation bytes := (list ascii).

(** [[]byte(s)] and [string(b)]. *)
Abbreviation to_bytes := list_ascii_of_string.

Abbreviation of_bytes := string_of_list_ascii.

(** * The model *)

(** ** Byte level primitives of the Go library *)

Module GoBytes.

(** [bytes.Index(s, sep)]: the index of the first instance of [sep] in
    [s]; Go returns -1 where this returns [None]. *)
Fixpoint Index (s sep : bytes) : option nat :=
  if decide (sep `prefix_of` s) then Some 0
  else match s with
       | [] => None
       | _ :: s' => S <$> Index s' sep
       end.

(** The loop of [bytes.genSplit] for a non-empty separator and no limit
    on the number of parts: cut at each instance of [sep], keeping
    [sepSave] bytes of it in the part before.  Every turn of the loop
    consumes at least one byte, so [length s] turns are enough. *)
Fixpoint genSplit (fuel : nat) (s sep : bytes) (sepSave : nat) : list bytes :=
  match Index s sep with
  | None => [s]
  | Some m =>
      match fuel with
      | 0 => [s]
      | S fuel' =>
          take (m + sepSave) s
            :: genSplit fuel' (drop (m + length sep) s) sep sepSave
      end
  end.

(** [bytes.Split(s, sep)] and [bytes.SplitAfter(s, sep)]. *)
Definition Split (s sep : bytes) : list bytes :=
  genSplit (length s) s sep 0.

Definition SplitAfter (s sep : bytes) : list bytes :=
  genSplit (length s) s sep (length sep).

(** The byte [c] lies between [lo] and [hi]. *)
Definition in_range (lo hi : nat) (c : ascii) : bool :=
  (lo <=? nat_of_ascii c) && (nat_of_ascii c <=? hi).

(** A continuation byte of UTF-8. *)
Definition cont (c : ascii) : bool := in_range 128 191 c.

(** The width in bytes of the first rune of a non-empty [p], as
    [utf8.RuneCount] advances over it: an ASCII byte, a well formed
    sequence of two to four bytes, or one byte of an ill formed one. *)
Definition rune_size (p : bytes) : nat :=
  match p with
  | [] => 0
  | c :: rest =>
      let n := nat_of_ascii c in
      if n <? 128 then 1
      else if in_range 194 223 c then
        match rest with
        | c1 :: _ => if cont c1 then 2 else 1
        | _ => 1
        end
      else if in_range 224 239 c then
        match rest with
        | c1 :: c2 :: _ =>
            let lo := if n =? 224 then 160 else 128 in
            let hi := if n =? 237 then 159 else 191 in
            if in_range lo hi c1 && cont c2 then 3 else 1
        | _ => 1
        end
      else if in_range 240 244 c then
        match rest with
        | c1 :: c2 :: c3 :: _ =>
            let lo := if n =? 240 then 144 else 128 in
            let hi := if n =? 244 then 143 else 191 in
            if in_range lo hi c1 && cont c2 && cont c3 then 4 else 1
        | _ => 1
        end
      else 1
  end.

(** [utf8.RuneCount(p)]: the number of runes in [p]. *)
Fixpoint RuneCount_loop (fuel : nat) (p : bytes) : nat :=
  match p, fuel with
  | [], _ => 0
  | _, 0 => 0
  | _, S fuel' => S (RuneCount_loop fuel' (drop (rune_size p) p))
  end.

Definition RuneCount (p : bytes) : nat := RuneCount_loop (length p) p.

(** [genSplit] with fuel for its text. *)
Definition gs (sep : bytes) (sepSave : nat) (s : bytes) : list bytes :=
  genSplit (length s) s sep sepSave.

End GoBytes.

Import GoBytes.

(** ** Syntax trees ([go/ast], [go/token]) *)

(** The kinds of basic literal of [go/token]. *)
Inductive Token := INT | FLOAT | IMAG | CHAR | STRING.

#[global] Instance Token_eq_dec : EqDecision Token.
Proof. solve_decision. Defined.

#[local] Set Warnings "-register-all".

(** The expression nodes the engine distinguishes.  [OtherExpr] stands
    for every other node type of [go/ast] and carries the type's name.
    The source positions of the nodes ([NamePos], [ValuePos], ...) are
    left out: no function of the engine reads them. *)
Inductive Expr :=
| Ident (Name : string)
| BasicLit (Kind : Token) (Value : string)
| CallExpr (Fun : Expr) (Args : list Expr)
| OtherExpr (node : string).

(** ** The Go library behind the engine

    Functions of the Go standard library whose behaviour rests on the Go
    grammar, on Unicode tables or on the file system are taken as an
    interface.  A failure ([err != nil]) is [None]. *)

Class GoLib := {
  (** [ioutil.ReadFile] *)
  ReadFile : string → option bytes;
  (** [strings.TrimSpace] *)
  TrimSpace : string → string;
  (** [parser.ParseExpr] *)
  ParseExpr : string → option Expr;
  (** [strconv.Quote], [strconv.Unquote] and [strconv.Atoi] *)
  Quote : string → string;
  Unquote : string → option string;
  Atoi : string → option Z;
  (** [regexp.Compile]; a compiled expression is given by its
      [FindIndex], whose result is the pair [loc[0], loc[1]] *)
  regexp_Compile : string → option (bytes → option (nat * nat));
  (** a match lies inside the text searched *)
  FindIndex_bound : ∀ s re b loc,
    regexp_Compile s = Some re → re b = Some loc → loc.1 ≤ length b;
}.

(** ** Data model *)

(** A source file that was scanned for markers. *)
Record file := {
  f_name : string;     (* the name of the file *)
  f_content : bytes;   (* the contents of the file *)
}.

(** A single line within a source file. *)
Record line := {
  l_file : file;       (* the file the line is part of *)
  l_offset : nat;      (* byte offset of the start of the line in the file *)
  l_number : nat;      (* 1 based line number within the file *)
  l_value : bytes;     (* the contents of the line *)
}.

(** A marker within a source file. *)
Record marker := {
  m_line : line;       (* the line on which the marker occurred *)
  m_method : string;   (* the method the marker invokes *)
  m_args : list Expr;  (* the arguments to pass to that method *)
}.

(** [token.Position]; the field [Offset] of the embedded struct is named
    [tok_Offset] here, the engine never sets it. *)
Record token_Position := {
  Filename : string;
  tok_Offset : nat;
  Line : nat;
  Column : nat;
}.

(** [Position] extends [token.Position] with the offset within the
    file. *)
Record Position := {
  Pos : token_Position;
  Offset : nat;
}.

(** The engine: [anchors] is [None] while the map is [nil]. *)
Record Markers := {
  anchors : option (gmap string Position);
  markers : list marker;
}.

(** [reflect.Kind] *)
Inductive Kind :=
| KInvalid | KBool | KInt | KInt8 | KInt16 | KInt32 | KInt64
| KUint | KUint8 | KUint16 | KUint32 | KUint64 | KUintptr
| KFloat32 | KFloat64 | KComplex64 | KComplex128
| KArray | KChan | KFunc | KInterface | KMap | KPtr | KSlice
| KString | KStruct | KUnsafePointer.

(** [reflect.Type], as far as [buildConverter] tells types apart: the
    three types it compares with, and any other type by its kind. *)
Inductive rtype :=
| testingType    (* *testing.T *)
| markersType    (* *Markers *)
| positionType   (* Position *)
| otherType (k : Kind).

(** [reflect.Value]: the values the converters produce. *)
Inductive Value :=
| VTesting
| VMarkers
| VPosition (p : Position)
| VString (s : string)
| VInt (v : Z).

(** The reports made through [testing.T], one constructor for each
    format string of the source, with the values formatted. *)
Inductive Msg :=
| MissingArgument (a : marker)
| CannotFindAnchor (name : string) (a : marker)
| InvalidStringLiteralFor (v : string) (a : marker)
| RegexpError (s : string) (l : line)
| PatternNotPresent (s : string) (l : line)
| CannotConvertToPosition (arg : Expr) (a : marker)
| NonStringLiteral (arg : Expr)
| InvalidStringLiteral (v : string)
| CannotConvertToString (arg : Expr)
| IntegerArgsMustBeLiteral (arg : Expr)
| NonIntegerLiteral (arg : Expr)
| CannotConvertToInt (arg : Expr)
| ActionParamInvalidType (pt : rtype)
| UnwantedArgs (args : list Expr) (a : marker)
| AnchorAlreadyExists (name : string) (old pos : Position).

(** [testing.T]: whether the test has failed, and what it has logged. *)
Record T := {
  failed : bool;
  output : list Msg;
}.

(** The errors [Extract] returns. *)
Inductive ExtractError :=
| CouldNotReadFile
| ParseError (l : line)
| FunctionMustBeIdentifier (fn : Expr) (body : string) (l : line)
| UnhandledMarkerExpression (e : Expr) (body : string) (l : line).

(** ** Extract: the line index and the marker parser *)

Definition markerComment : bytes := to_bytes "//@".

(** [[]byte("\n")] *)
Definition newline : bytes := ["010"%char].

(** What the loops of [Extract] hold: the running byte offset, the lines
    built so far (the source keeps them only through the markers that
    point to them) and the marker sequence of the engine. *)
Record scan := {
  s_offset : nat;
  s_lines : list line;
  s_markers : list marker;
}.

Section Extract.

Context `{GoLib}.

(** The body of the inner loop: one candidate marker body [part] of the
    line [l] becomes a marker or an error. *)
Definition parse_marker (l : line) (part : bytes) : ExtractError + marker :=
  let body := TrimSpace (of_bytes part) in
  match ParseExpr body with
  | None => inl (ParseError l)
  | Some expr =>
      match expr with
      | Ident Name =>
          let s := BasicLit STRING (Quote Name) in
          inr {| m_method := "mark"; m_args := [expr; s]; m_line := l |}
      | CallExpr Fun Args =>
          match Fun with
          | Ident Name =>
              inr {| m_method := Name; m_args := Args; m_line := l |}
          | _ => inl (FunctionMustBeIdentifier Fun body l)
          end
      | _ => inl (UnhandledMarkerExpression expr body l)
      end
  end.

(** [for _, part := range parts[1:]]: markers are appended one by one,
    an error returns at once with what was appended before it. *)
Fixpoint extract_parts (l : line) (parts : list bytes) (ms : list marker)
  : list marker * option ExtractError :=
  match parts with
  | [] => (ms, None)
  | part :: parts' =>
      match parse_marker l part with
      | inl err => (ms, Some err)
      | inr a => extract_parts l parts' (ms ++ [a])
      end
  end.

(** The line built from the segment [lValue], the [n]-th of the file
    (counted from 0), when the running offset is [offset]. *)
Definition new_line (f : file) (n offset : nat) (lValue : bytes) : line :=
  let parts := Split lValue markerComment in
  {| l_file := f;
     l_number := n + 1;
     l_value := default [] (head parts);
     l_offset := offset |}.

(** [for n, lValue := range bytes.SplitAfter(f.content, "\n")] *)
Fixpoint extract_lines (f : file) (n : nat) (segs : list bytes) (st : scan)
  : scan * option ExtractError :=
  match segs with
  | [] => (st, None)
  | lValue :: segs' =>
      let parts := Split lValue markerComment in
      let l := new_line f n (s_offset st) lValue in
      let offset := s_offset st + length lValue in
      let '(ms, err) := extract_parts l (tail parts) (s_markers st) in
      let st' := {| s_offset := offset;
                    s_lines := s_lines st ++ [l];
                    s_markers := ms |} in
      match err with
      | Some e => (st', Some e)
      | None => extract_lines f (S n) segs' st'
      end
  end.

(** The scan of one file by an engine whose markers are [ms]. *)
Definition extract_file (f : file) (ms : list marker)
  : scan * option ExtractError :=
  extract_lines f 0 (SplitAfter (f_content f) newline)
    {| s_offset := 0; s_lines := []; s_markers := ms |}.

(** [Extract]: [content] is [None] for a [nil] slice, the file is then
    read from storage.  The engine is returned with the markers
    appended up to the end of the file, or up to the error. *)
Definition Extract (filename : string) (content : option bytes) (m : Markers)
  : Markers * option ExtractError :=
  let content :=
    match content with
    | None => ReadFile filename
    | Some c => Some c
    end in
  match content with
  | None => (m, Some CouldNotReadFile)
  | Some c =>
      let f := {| f_name := filename; f_content := c |} in
      let '(st, err) := extract_file f (markers m) in
      ({| anchors := anchors m; markers := s_markers st |}, err)
  end.

End Extract.

(** ** The state of a test, and the ways a call can end

    A call of the engine runs inside a test.  Its world is the
    [testing.T], the engine, the record of the handler calls made through
    [reflect] (kept to state what was dispatched), and the state [U] of
    the caller that the handlers close over. *)

Record World (U : Type) := {
  w_t : T;
  w_m : Markers;
  w_calls : list (string * list Value);
  w_user : U;
}.

Arguments w_t {U} _.

Arguments w_m {U} _.

Arguments w_calls {U} _.

Arguments w_user {U} _.

(** A call returns ([Done]), stops the test through [t.Fatalf], that is
    [runtime.Goexit] after the report ([Fatal]), or dies of a run time
    panic, which ends the process ([Panic]).  Each carries the world at
    that point: what was written before a [Fatalf] stays written. *)
Inductive Outcome (U A : Type) :=
| Done (a : A) (w : World U)
| Fatal (w : World U)
| Panic (w : World U).

Arguments Done {U A} _ _.

Arguments Fatal {U A} _.

Arguments Panic {U A} _.

Definition final {U A} (o : Outcome U A) : World U :=
  match o with Done _ w | Fatal w | Panic w => w end.

Definition M (U A : Type) : Type := World U → Outcome U A.

#[global] Instance M_ret {U} : MRet (M U) := λ A a w, Done a w.

#[global] Instance M_bind {U} : MBind (M U) :=
  λ A B k c w,
    match c w with
    | Done a w' => k a w'
    | Fatal w' => Fatal w'
    | Panic w' => Panic w'
    end.

Section Monad.

Context {U : Type}.

Definition get_m : M U Markers := λ w, Done (w_m w) w.

(** [m.anchors = tbl] *)
Definition put_anchors (tbl : gmap string Position) (w : World U) : World U :=
  {| w_t := w_t w;
     w_m := {| anchors := Some tbl; markers := markers (w_m w) |};
     w_calls := w_calls w;
     w_user := w_user w |}.

Definition set_anchors (tbl : gmap string Position) : M U unit :=
  λ w, Done tt (put_anchors tbl w).

Definition log (msg : Msg) (w : World U) : World U :=
  {| w_t := {| failed := true; output := output (w_t w) ++ [msg] |};
     w_m := w_m w;
     w_calls := w_calls w;
     w_user := w_user w |}.

(** [t.Errorf]: report, mark the test as failed, go on. *)
Definition Errorf (msg : Msg) : M U unit := λ w, Done tt (log msg w).

(** [t.Fatalf]: report, mark the test as failed, stop. *)
Definition Fatalf {A} (msg : Msg) : M U A := λ w, Fatal (log msg w).

(** A run time panic. *)
Definition panic {A} : M U A := λ w, Panic w.

(** The record of a call of the handler bound to [name]. *)
Definition add_call (name : string) (params : list Value) (w : World U) : World U :=
  {| w_t := w_t w;
     w_m := w_m w;
     w_calls := w_calls w ++ [(name, params)];
     w_user := w_user w |}.

Definition record_call (name : string) (params : list Value) : M U unit :=
  λ w, Done tt (add_call name params w).

End Monad.

(** A handler: a function value, given by the types of its parameters
    and by what a call of it does. *)
Record handler (U : Type) := {
  h_in : list rtype;
  h_call : list Value → M U unit;
}.

Arguments h_in {U} _.

Arguments h_call {U} _ _.

(** ** Converters, Invoke and Anchors *)

Section Dispatch.

Context `{GoLib} {U : Type}.

(** A converter takes the marker and its arguments not yet consumed,
    and returns a value and the arguments left. *)
Definition converter : Type :=
  marker → list Expr → M U (Value * list Expr).

(** [m.anchors[name]]; reading a [nil] map finds nothing. *)
Definition lookup_anchor (m : Markers) (name : string) : option Position :=
  match anchors m with
  | Some tbl => tbl !! name
  | None => None
  end.

(** The Position built for a match at index [i] of the line of [a]. *)
Definition match_position (a : marker) (i : nat) : Position :=
  {| Pos := {| Filename := f_name (l_file (m_line a));
               tok_Offset := 0;
               Line := l_number (m_line a);
               Column := String.length (of_bytes (take i (l_value (m_line a)))) + 1 |};
     Offset := l_offset (m_line a) + i |}.

Definition convert_testing : converter :=
  λ a args, mret (VTesting, args).

Definition convert_markers : converter :=
  λ a args, mret (VMarkers, args).

Definition convert_position : converter :=
  λ a args,
    match args with
    | [] => Fatalf (MissingArgument a)
    | arg :: args =>
        match arg with
        | Ident Name =>
            (* look up an anchor by name *)
            m ← get_m;
            match lookup_anchor m Name with
            | None => Fatalf (CannotFindAnchor Name a)
            | Some p => mret (VPosition p, args)
            end
        | BasicLit _ Value =>
            match Unquote Value with
            | None => Fatalf (InvalidStringLiteralFor Value a)
            | Some s =>
                i ← match Value with
                    | EmptyString => panic     (* arg.Value[0] *)
                    | String c _ =>
                        if decide (c = "`"%char) then
                          match regexp_Compile s with
                          | None => Fatalf (RegexpError s (m_line a))
                          | Some re => mret (fst <$> re (l_value (m_line a)))
                          end
                        else mret (Index (l_value (m_line a)) (to_bytes s))
                    end;
                match i with
                | None => Fatalf (PatternNotPresent s (m_line a))
                | Some i => mret (VPosition (match_position a i), args)
                end
            end
        | _ => Fatalf (CannotConvertToPosition arg a)
        end
    end.

Definition convert_string : converter :=
  λ a args,
    match args with
    | [] => panic                                (* args[0] *)
    | arg :: args =>
        match arg with
        | Ident Name => mret (VString Name, args)
        | BasicLit Kind Value =>
            if decide (Kind ≠ STRING) then Fatalf (NonStringLiteral arg)
            else match Unquote Value with
                 | None => Fatalf (InvalidStringLiteral Value)
                 | Some s => mret (VString s, args)
                 end
        | _ => Fatalf (CannotConvertToString arg)
        end
    end.

Definition convert_int : converter :=
  λ a args,
    match args with
    | [] => panic                                (* args[0] *)
    | arg :: args =>
        match arg with
        | BasicLit Kind Value =>
            if decide (Kind ≠ INT) then Fatalf (NonIntegerLiteral arg)
            else match Atoi Value with
                 | None => Fatalf (CannotConvertToInt arg)
                 | Some v => mret (VInt v, args)
                 end
        | _ => Fatalf (IntegerArgsMustBeLiteral arg)
        end
    end.

(** [buildConverter]: the converter for a parameter of type [pt]. *)
Definition buildConverter (pt : rtype) : M U converter :=
  match pt with
  | testingType => mret convert_testing
  | markersType => mret convert_markers
  | positionType => mret convert_position
  | otherType KString => mret convert_string
  | otherType KInt => mret convert_int
  | otherType _ => Fatalf (ActionParamInvalidType pt)
  end.

(** What [Invoke] works out once for each method. *)
Record method := {
  f : handler U;
  converters : list converter;
}.

(** [for i := 0; i < len(mi.converters); i++] *)
Fixpoint build_converters (pts : list rtype) : M U (list converter) :=
  match pts with
  | [] => mret []
  | pt :: pts' =>
      c ← buildConverter pt;
      cs ← build_converters pts';
      mret (c :: cs)
  end.

(** [for name, f := range methods]: Go visits the entries of a map in
    no fixed order, the model in the order of [map_to_list]. *)
Fixpoint build_methods (l : list (string * handler U)) (ms : gmap string method)
  : M U (gmap string method) :=
  match l with
  | [] => mret ms
  | (name, fn) :: l' =>
      cs ← build_converters (h_in fn);
      build_methods l' (<[name := {| f := fn; converters := cs |}]> ms)
  end.

(** [for i, convert := range mi.converters] *)
Fixpoint convert_params (cs : list converter) (a : marker) (args : list Expr)
  : M U (list Value * list Expr) :=
  match cs with
  | [] => mret ([], args)
  | convert :: cs' =>
      '(v, args) ← convert a args;
      '(vs, args) ← convert_params cs' a args;
      mret (v :: vs, args)
  end.

(** The body of the dispatch loop for the marker [a]. *)
Definition invoke_marker (ms : gmap string method) (a : marker) : M U unit :=
  match ms !! m_method a with
  | None => mret tt                                (* continue *)
  | Some mi =>
      '(params, args) ← convert_params (converters mi) a (m_args a);
      match args with
      | _ :: _ => Fatalf (UnwantedArgs args a)
      | [] =>
          record_call (m_method a) params;;
          h_call (f mi) params
      end
  end.

(** [for _, a := range m.markers] *)
Fixpoint invoke_loop (ms : gmap string method) (l : list marker) : M U unit :=
  match l with
  | [] => mret tt
  | a :: l' => invoke_marker ms a;; invoke_loop ms l'
  end.

(** [Invoke] after its call of [m.Anchors]: the converters of every
    method are built, then the markers are dispatched. *)
Definition dispatch (methods : gmap string (handler U)) : M U unit :=
  ms ← build_methods (map_to_list methods) ∅;
  m ← get_m;
  invoke_loop ms (markers m).

(** [Invoke], with the call of [m.Anchors] it starts with given. *)
Definition Invoke_from (Anchors : M U (option (gmap string Position)))
    (methods : gmap string (handler U)) : M U unit :=
  Anchors;;
  dispatch methods.

(** The handler [Anchors] binds to "mark". *)
Definition mark_handler : handler U :=
  {| h_in := [testingType; markersType; otherType KString; positionType];
     h_call := λ params,
       match params with
       | [VTesting; VMarkers; VString name; VPosition pos] =>
           m ← get_m;
           match lookup_anchor m name with
           | Some old => Errorf (AnchorAlreadyExists name old pos)
           | None =>
               match anchors m with
               | None => panic     (* assignment to entry in nil map *)
               | Some tbl => set_anchors (<[name := pos]> tbl)
               end
           end
       | _ => panic                (* reflect: Call with wrong arguments *)
       end |}.

(** [Anchors], with the [Invoke] it calls given. *)
Definition Anchors_with (Invoke : gmap string (handler U) → M U unit)
  : M U (option (gmap string Position)) :=
  m ← get_m;
  match anchors m with
  | None =>
      (* no anchors yet, pre invoke the special mark marker *)
      set_anchors ∅;;
      Invoke {[ "mark" := mark_handler ]};;
      m ← get_m;
      mret (anchors m)
  | Some tbl => mret (Some tbl)
  end.

(** [Anchors] calls [Invoke], which starts by calling [Anchors].  The
    table is set before that inner call, which therefore returns it and
    calls nothing: the recursion of the source stops there, and the two
    functions are defined from the inside out.  [Anchors_unfold] below
    shows that they satisfy the equations of the source. *)
Definition Anchors_inner : M U (option (gmap string Position)) :=
  Anchors_with (λ _, mret tt).

Definition Anchors : M U (option (gmap string Position)) :=
  Anchors_with (Invoke_from Anchors_inner).

Definition Invoke (methods : gmap string (handler U)) : M U unit :=
  Invoke_from Anchors methods.

End Dispatch.

(** ** The expectations of the test of the engine (marker_test.go)

    [TestMarker] computes the Position it expects of an anchor from the
    content of the file, with [bytes.Index], [bytes.Count] and
    [bytes.LastIndex]. *)

(** The loop of [bytes.Count] for a separator of two bytes or more. *)
Fixpoint Count_loop (fuel : nat) (s sep : bytes) : nat :=
  match Index s sep with
  | None => 0
  | Some m =>
      match fuel with
      | 0 => 0
      | S fuel' => S (Count_loop fuel' (drop (m + length sep) s) sep)
      end
  end.

(** [bytes.Count(s, sep)]: the number of non-overlapping instances of
    [sep] in [s]; one more than the number of runes for an empty [sep],
    the number of bytes equal to it for a [sep] of one byte. *)
Definition Count (s sep : bytes) : nat :=
  match sep with
  | [] => RuneCount s + 1
  | [c] => length (filter (λ x, x = c) s)
  | _ => Count_loop (length s) s sep
  end.

(** [bytes.LastIndex(s, sep)]: the index of the last instance of [sep]
    in [s]; Go returns -1 where this returns [None]. *)
Fixpoint LastIndex (s sep : bytes) : option nat :=
  match s with
  | [] => if decide (sep = []) then Some 0 else None
  | _ :: s' =>
      match LastIndex s' sep with
      | Some i => Some (S i)
      | None => if decide (sep `prefix_of` s) then Some 0 else None
      end
  end.

(** The Position that [TestMarker] expects for an anchor whose token is
    [tok], from the content of the file.  [None] stands for the panic of
    a slice expression with a negative bound. *)
Definition expected_position (filename : string) (content tok : bytes)
  : option Position :=
  offset ← Index content tok;
  let before := take offset content in
  let line := Count before newline + 1 in
  start ← (if decide (1 < line) then LastIndex before newline else Some 0);
  Some {| Offset := offset;
          Pos := {| Filename := filename;
                    tok_Offset := 0;
                    Line := line;
                    Column := String.length (of_bytes (drop start before)) |} |}.

(** The byte of [newline]. *)
Abbreviation nlc := "010"%char.

(** * Notions used in the statements

    What the properties below speak of: which parameter types have a
    converter, what the converters take from an argument, which marker
    declares which anchor, the candidates of a file, and the anchor pass
    as a function of the table.  Each is tied to the model by a lemma of
    the next part. *)

Section Notions.
Context `{GoLib} {U : Type}.

(** The parameter types for which [buildConverter] has a converter. *)
Definition supported (pt : rtype) : bool :=
  match pt with
  | testingType | markersType | positionType => true
  | otherType KString | otherType KInt => true
  | otherType _ => false
  end.

(** The name a [string] parameter takes from the argument [arg]. *)
Definition name_of (arg : Expr) : option string :=
  match arg with
  | Ident Name => Some Name
  | BasicLit STRING Value => Unquote Value
  | _ => None
  end.

(** The index at which the pattern of the literal [Value], unquoted to
    [s], is found in the line of [a]. *)
Definition find_pattern (a : marker) (Value s : string) : option nat :=
  match Value with
  | EmptyString => None
  | String c _ =>
      if decide (c = "`"%char) then
        re ← regexp_Compile s; fst <$> re (l_value (m_line a))
      else Index (l_value (m_line a)) (to_bytes s)
  end.

(** The Position a [Position] parameter takes from the argument [arg]
    of the marker [a], for the engine [m]. *)
Definition resolve (m : Markers) (a : marker) (arg : Expr) : option Position :=
  match arg with
  | Ident Name => lookup_anchor m Name
  | BasicLit _ Value =>
      s ← Unquote Value; i ← find_pattern a Value s; Some (match_position a i)
  | _ => None
  end.

(** The reports of the handler of "mark". *)
Definition is_dup_msg (msg : Msg) : bool :=
  match msg with
  | AnchorAlreadyExists _ _ _ => true
  | _ => false
  end.

(** The table of methods that [Invoke] builds when [Anchors] calls it. *)
Definition mark_table : gmap string (@method U) :=
  {[ "mark" := {| f := mark_handler;
                  converters := [convert_testing; convert_markers;
                                 convert_string; convert_position] |} ]}.

(** The first call of [Anchors] on an engine. *)
Definition first_Anchors : M U (option (gmap string Position)) :=
  set_anchors ∅;;
  dispatch {[ "mark" := mark_handler ]};;
  m ← get_m;
  mret (anchors m).

(** The marker [a] declares the anchor [n]: it invokes "mark" and its
    first argument names [n]. *)
Definition declares (a : marker) (n : string) : Prop :=
  m_method a = "mark" ∧
  ∃ arg rest, m_args a = arg :: rest ∧ name_of arg = Some n.

(** The call of the handler of "mark" for the name [n] and the Position
    [p]. *)
Definition mark_call (n : string) (p : Position) (w : World U) : World U :=
  add_call "mark" [VTesting; VMarkers; VString n; VPosition p] w.


(** The candidate marker bodies of the segments [segs], each with its
    line, in the order in which [Extract] meets them. *)
Fixpoint candidates_from (f : file) (n offset : nat) (segs : list bytes)
  : list (line * bytes) :=
  match segs with
  | [] => []
  | seg :: segs' =>
      ((λ part, (new_line f n offset seg, part))
         <$> tail (Split seg markerComment))
      ++ candidates_from f (S n) (offset + length seg) segs'
  end.

Definition candidates (f : file) : list (line * bytes) :=
  candidates_from f 0 0 (SplitAfter (f_content f) newline).

(** Parsing candidates one after the other, up to the first error. *)
Fixpoint parse_all (cs : list (line * bytes)) (ms : list marker)
  : list marker * option ExtractError :=
  match cs with
  | [] => (ms, None)
  | (l, part) :: cs' =>
      match parse_marker l part with
      | inl err => (ms, Some err)
      | inr a => parse_all cs' (ms ++ [a])
      end
  end.

(** The report that the anchor [X] exists already. *)
Definition is_dup (X : string) (msg : Msg) : bool :=
  match msg with
  | AnchorAlreadyExists n _ _ => bool_decide (n = X)
  | _ => false
  end.

(** The Position that the second argument of the marker [a] resolves to
    for the engine [m]. *)
Definition position_of (m : Markers) (a : marker) : option Position :=
  match m_args a with
  | [_; arg] => resolve m a arg
  | _ => None
  end.

(** Two lines, or two markers, that differ at most in the content of
    the file they belong to: the engine reads only its name. *)
Definition same_line (l1 l2 : line) : Prop :=
  f_name (l_file l1) = f_name (l_file l2) ∧
  l_offset l1 = l_offset l2 ∧
  l_number l1 = l_number l2 ∧
  l_value l1 = l_value l2.

Definition same_marker (a1 a2 : marker) : Prop :=
  same_line (m_line a1) (m_line a2) ∧
  m_method a1 = m_method a2 ∧
  m_args a1 = m_args a2.

(** The table after the turn of the anchor pass for [a], when the turn
    returns; [None] when it stops the pass. *)
Definition mark_effect (tbl : gmap string Position) (a : marker)
  : option (gmap string Position) :=
  if decide (m_method a = "mark") then
    match m_args a with
    | [arg1; arg2] =>
        n ← name_of arg1;
        p ← resolve {| anchors := Some tbl; markers := [] |} a arg2;
        Some (match tbl !! n with
              | Some _ => tbl
              | None => <[n := p]> tbl
              end)
    | _ => None
    end
  else Some tbl.

(** The table after the pass over [l], and whether the pass reached the
    end of [l]. *)
Fixpoint mark_effects (tbl : gmap string Position) (l : list marker)
  : gmap string Position * bool :=
  match l with
  | [] => (tbl, true)
  | a :: l' =>
      match mark_effect tbl a with
      | Some tbl' => mark_effects tbl' l'
      | None => (tbl, false)
      end
  end.

(** The Go literal of the string [X] when nothing in it needs an
    escape: [X] between double quotes. *)
Definition quoted (X : string) : string :=
  String "034"%char (X ++ String "034"%char EmptyString).

(** The two bodies of a marker that declares [X]: the identifier alone,
    and the call of mark on the identifier and its literal. *)
Definition bare_form (X : string) : bytes := to_bytes X.

Definition explicit_form (X : string) : bytes :=
  to_bytes "mark(" ++ to_bytes X ++ to_bytes ", " ++ to_bytes (quoted X)
    ++ to_bytes ")".

(** Of the text [ctail] that follows a marker body in a file, the part
    that belongs to the same candidate: up to the next marker comment or
    the end of the line. *)
Definition rest_of_candidate (ctail : bytes) : bytes :=
  default [] (head (Split (default [] (head (SplitAfter ctail newline)))
                      markerComment)).

(** Candidates that differ at most in the content of their file. *)
Definition same_cand (c1 c2 : line * bytes) : Prop :=
  same_line c1.1 c2.1 ∧ c1.2 = c2.2.

(** The offset at which the line of number [n], counted from 1, starts
    in [content]: the lengths of the segments before it. *)
Definition line_start (content : bytes) (n : nat) : nat :=
  sum_list_with length (take (n - 1) (SplitAfter content newline)).

(** The number of marker arguments the converter of a parameter of type
    [pt] takes: none for the test and the engine, one otherwise. *)
Definition consumes (pt : rtype) : nat :=
  match pt with
  | testingType | markersType => 0
  | _ => 1
  end.

Definition arity (pts : list rtype) : nat := sum_list_with consumes pts.

(** The value [v] is of the sort that the converter for a parameter of
    type [pt] returns: the test, the engine, a Position, a [string] for
    a type of kind String, an [int] for a type of kind Int.  For the
    three types that [buildConverter] compares with, and for [string]
    and [int] themselves, that is a value of the type [pt].  For a named
    type of kind String or Int it is not: the value is a plain [string]
    or [int], which [reflect]'s Call does not take for such a
    parameter. *)
Definition has_kind (v : Value) (pt : rtype) : Prop :=
  match pt, v with
  | testingType, VTesting => True
  | markersType, VMarkers => True
  | positionType, VPosition _ => True
  | otherType KString, VString _ => True
  | otherType KInt, VInt _ => True
  | _, _ => False
  end.

(** The reports of the converters. *)
Definition is_conversion_msg (msg : Msg) : bool :=
  match msg with
  | MissingArgument _ | CannotFindAnchor _ _ | InvalidStringLiteralFor _ _
  | RegexpError _ _ | PatternNotPresent _ _ | CannotConvertToPosition _ _
  | NonStringLiteral _ | InvalidStringLiteral _ | CannotConvertToString _
  | IntegerArgsMustBeLiteral _ | NonIntegerLiteral _ | CannotConvertToInt _ => true
  | _ => false
  end.

(** What a call of a converter for a parameter of type [pt] comes to. *)
Definition converts (pt : rtype) (c : @converter U) : Prop :=
  ∀ a args w,
    (∃ v, consumes pt ≤ length args ∧
          c a args w = Done (v, drop (consumes pt) args) w) ∨
    (∃ msg, is_conversion_msg msg = true ∧ c a args w = Fatal (log msg w)) ∨
    c a args w = Panic w.

(** The values that the converter [c] returns are of the sort of [pt]. *)
Definition returns_kind (pt : rtype) (c : @converter U) : Prop :=
  ∀ a args w v rest w', c a args w = Done (v, rest) w' → has_kind v pt.

End Notions.

(** * A reference library for evaluating the engine

    [Reference.lib] implements the interface [GoLib] on the fragment of
    the Go library that the marker language of the specification needs:
    identifiers, calls of an identifier on identifiers, interpreted and
    raw string literals and decimal integers; string literals without
    numeric escapes; regular expressions without operators; ASCII white
    space; no file in storage.  On that fragment it returns what the Go
    library returns; outside of it, it reports an error.  It serves to
    run the engine on concrete files. *)

Module Reference.

Definition code (c : ascii) : nat := nat_of_ascii c.

Definition is_space (c : ascii) : bool :=
  in_range 9 13 c || (code c =? 32).

Definition is_digit (c : ascii) : bool := in_range 48 57 c.

(** A letter: ASCII letters, the underscore, and the bytes of the
    letters outside ASCII. *)
Definition is_letter (c : ascii) : bool :=
  in_range 97 122 c || in_range 65 90 c || (code c =? 95) || (128 <=? code c).

Definition dq : ascii := "034"%char.

Definition backslash : ascii := "092"%char.

Definition backtick : ascii := "096"%char.

Fixpoint skip_space (s : bytes) : bytes :=
  match s with
  | c :: s' => if is_space c then skip_space s' else s
  | [] => []
  end.

Definition trim_space (s : string) : string :=
  of_bytes (reverse (skip_space (reverse (skip_space (to_bytes s))))).

Fixpoint span (p : ascii → bool) (s : bytes) : bytes * bytes :=
  match s with
  | c :: s' =>
      if p c then let '(w, rest) := span p s' in (c :: w, rest) else ([], s)
  | [] => ([], [])
  end.

Inductive tok :=
| TIdent (s : string)
| TInt (s : string)
| TString (s : string)
| TLparen
| TRparen
| TComma.

(** The value of the escape [\d] of an interpreted string. *)
Definition escape (d : ascii) : option ascii :=
  if decide (d = "a"%char) then Some "007"%char
  else if decide (d = "b"%char) then Some "008"%char
  else if decide (d = "f"%char) then Some "012"%char
  else if decide (d = "n"%char) then Some "010"%char
  else if decide (d = "r"%char) then Some "013"%char
  else if decide (d = "t"%char) then Some "009"%char
  else if decide (d = "v"%char) then Some "011"%char
  else if decide (d = backslash) then Some backslash
  else if decide (d = dq) then Some dq
  else None.

(** The rest of an interpreted string literal after its opening quote:
    the text up to the closing quote, and what follows it. *)
Fixpoint scan_interpreted (s : bytes) : option (bytes * bytes) :=
  match s with
  | [] => None
  | c :: s' =>
      if decide (c = dq) then Some ([c], s')
      else if decide (c = "010"%char) then None
      else if decide (c = backslash) then
        match s' with
        | d :: s'' =>
            _ ← escape d;
            '(w, rest) ← scan_interpreted s'';
            Some (c :: d :: w, rest)
        | [] => None
        end
      else '(w, rest) ← scan_interpreted s'; Some (c :: w, rest)
  end.

Fixpoint scan_raw (s : bytes) : option (bytes * bytes) :=
  match s with
  | [] => None
  | c :: s' =>
      if decide (c = backtick) then Some ([c], s')
      else '(w, rest) ← scan_raw s'; Some (c :: w, rest)
  end.

Definition keywords : list string :=
  ["break"; "case"; "chan"; "const"; "continue"; "default"; "defer";
   "else"; "fallthrough"; "for"; "func"; "go"; "goto"; "if"; "import";
   "interface"; "map"; "package"; "range"; "return"; "select"; "struct";
   "switch"; "type"; "var"].

Fixpoint lex (fuel : nat) (s : bytes) : option (list tok) :=
  match s, fuel with
  | [], _ => Some []
  | _, 0 => None
  | c :: s', S fuel' =>
      if is_space c then lex fuel' s'
      else if decide (c = "("%char) then (TLparen ::.) <$> lex fuel' s'
      else if decide (c = ")"%char) then (TRparen ::.) <$> lex fuel' s'
      else if decide (c = ","%char) then (TComma ::.) <$> lex fuel' s'
      else if decide (c = dq) then
        '(w, rest) ← scan_interpreted s';
        (TString (of_bytes (c :: w)) ::.) <$> lex fuel' rest
      else if decide (c = backtick) then
        '(w, rest) ← scan_raw s';
        (TString (of_bytes (c :: w)) ::.) <$> lex fuel' rest
      else if is_letter c then
        let '(w, rest) := span (λ d, is_letter d || is_digit d) s' in
        let name := of_bytes (c :: w) in
        if decide (name ∈ keywords) then None
        else (TIdent name ::.) <$> lex fuel' rest
      else if is_digit c then
        let '(w, rest) := span is_digit s' in
        (* a zero before more digits starts an octal literal, or is no
           literal at all: neither is in the fragment *)
        if (code c =? 48) && negb (bool_decide (w = [])) then None
        else
          match rest with
          | d :: _ =>
              if is_letter d || (code d =? 46) || (code d =? 39) then None
              else (TInt (of_bytes (c :: w)) ::.) <$> lex fuel' rest
          | [] => Some [TInt (of_bytes (c :: w))]
          end
      else None
  end.

Definition atom (t : tok) : option Expr :=
  match t with
  | TIdent s => Some (Ident s)
  | TInt s => Some (BasicLit INT s)
  | TString s => Some (BasicLit STRING s)
  | _ => None
  end.

(** What follows an argument of a call: more arguments, then the end. *)
Fixpoint parse_args (ts : list tok) : option (list Expr) :=
  match ts with
  | [TRparen] => Some []
  | TComma :: t :: ts' => a ← atom t; (a ::.) <$> parse_args ts'
  | _ => None
  end.

Definition parse (ts : list tok) : option Expr :=
  match ts with
  | [t] => atom t
  | [TIdent s; TLparen; TRparen] => Some (CallExpr (Ident s) [])
  | TIdent s :: TLparen :: t :: ts' =>
      a ← atom t; args ← parse_args ts'; Some (CallExpr (Ident s) (a :: args))
  | _ => None
  end.

Definition parse_expr (s : string) : option Expr :=
  ts ← lex (String.length s) (to_bytes s); parse ts.

(** The text of an interpreted literal after its opening quote. *)
Fixpoint unquote_interpreted (s : bytes) : option bytes :=
  match s with
  | [] => None
  | c :: s' =>
      if decide (c = dq) then
        match s' with [] => Some [] | _ => None end
      else if decide (c = "010"%char) then None
      else if decide (c = backslash) then
        match s' with
        | d :: s'' => e ← escape d; (e ::.) <$> unquote_interpreted s''
        | [] => None
        end
      else (c ::.) <$> unquote_interpreted s'
  end.

(** The text of a raw literal after its opening quote; carriage returns
    are dropped. *)
Fixpoint unquote_raw (s : bytes) : option bytes :=
  match s with
  | [] => None
  | c :: s' =>
      if decide (c = backtick) then
        match s' with [] => Some [] | _ => None end
      else if decide (c = "013"%char) then unquote_raw s'
      else (c ::.) <$> unquote_raw s'
  end.

Definition unquote (v : string) : option string :=
  match to_bytes v with
  | c :: s =>
      if decide (c = dq) then of_bytes <$> unquote_interpreted s
      else if decide (c = backtick) then of_bytes <$> unquote_raw s
      else None
  | [] => None
  end.

Definition hex_digit (n : nat) : ascii :=
  ascii_of_nat (if n <? 10 then 48 + n else 87 + n).

Definition quote_byte (c : ascii) : bytes :=
  if decide (c = dq) then [backslash; dq]
  else if decide (c = backslash) then [backslash; backslash]
  else if decide (c = "007"%char) then [backslash; "a"%char]
  else if decide (c = "008"%char) then [backslash; "b"%char]
  else if decide (c = "012"%char) then [backslash; "f"%char]
  else if decide (c = "010"%char) then [backslash; "n"%char]
  else if decide (c = "013"%char) then [backslash; "r"%char]
  else if decide (c = "009"%char) then [backslash; "t"%char]
  else if decide (c = "011"%char) then [backslash; "v"%char]
  else if (code c <? 32) || (code c =? 127) then
    [backslash; "x"%char; hex_digit (code c / 16); hex_digit (code c mod 16)]
  else [c].

Definition quote (s : string) : string :=
  of_bytes (dq :: concat (map quote_byte (to_bytes s)) ++ [dq]).

Fixpoint decimal (acc : Z) (s : bytes) : option Z :=
  match s with
  | [] => Some acc
  | c :: s' =>
      if is_digit c then decimal (10 * acc + Z.of_nat (code c - 48))%Z s'
      else None
  end.

Definition in_int64 (v : Z) : option Z :=
  if decide (- 2 ^ 63 ≤ v < 2 ^ 63)%Z then Some v else None.

Definition atoi (s : string) : option Z :=
  match to_bytes s with
  | [] => None
  | c :: ds =>
      if decide (c = "-"%char) then
        match ds with
        | [] => None
        | _ => v ← decimal 0 ds; in_int64 (- v)
        end
      else if decide (c = "+"%char) then
        match ds with
        | [] => None
        | _ => v ← decimal 0 ds; in_int64 v
        end
      else v ← decimal 0 (c :: ds); in_int64 v
  end.

(** The characters with a meaning in a regular expression. *)
Definition is_operator (c : ascii) : bool :=
  bool_decide (c ∈ to_bytes "\.+*?()|[]{}^$").

Definition compile (s : string) : option (bytes → option (nat * nat)) :=
  if forallb (λ c, negb (is_operator c)) (to_bytes s) then
    Some (λ b, (λ i, (i, i + String.length s)) <$> Index b (to_bytes s))
  else None.

#[export] Instance lib : GoLib.
Proof.
  refine {| ReadFile := λ _, None;
            TrimSpace := trim_space;
            ParseExpr := parse_expr;
            Quote := quote;
            Unquote := unquote;
            Atoi := atoi;
            regexp_Compile := compile |}.
  assert (∀ (b sep : bytes) i, Index b sep = Some i → i ≤ length b) as Hb.
  { induction b as [|c b IH]; intros sep i; simpl;
      (destruct (decide _); [intros [= <-]; lia|]); [done|].
    destruct (Index b sep) as [j|] eqn:E; [|done].
    intros [= <-]. apply IH in E. lia. }
  intros s re b loc. unfold compile. destruct (forallb _ _); [|done].
  intros [= <-]. destruct (Index b (to_bytes s)) as [i|] eqn:E; [|done].
  intros [= <-]. simpl. by apply (Hb b (to_bytes s)).
Defined.

End Reference.

(** * Concrete files and handlers *)

Section Inputs.
#[local] Existing Instance Reference.lib.

Definition nl : string := String "010"%char EmptyString.

(** A test that has reported nothing, an engine that has extracted
    nothing, the world of a handler free caller around an engine, and the
    engine after extracting one file given by its name and content. *)
Definition t0 : T := {| failed := false; output := [] |}.

Definition engine0 : Markers := {| anchors := None; markers := [] |}.

Definition world (m : Markers) : World unit :=
  {| w_t := t0; w_m := m; w_calls := []; w_user := tt |}.

Definition extracted (filename content : string) : Markers :=
  (Extract filename (Some (to_bytes content)) engine0).1.

(** The file [εx //@mark(A, "x")]; the letter ε is the two bytes 206
    and 181. *)
Definition eps_content : string := "εx //@mark(A, " ++ quoted "x" ++ ")".

Definition eps_line : line :=
  {| l_file := {| f_name := "a.go"; f_content := to_bytes eps_content |};
     l_offset := 0;
     l_number := 1;
     l_value := to_bytes "εx " |}.

Definition eps_marker : marker :=
  {| m_line := eps_line;
     m_method := "mark";
     m_args := [Ident "A"; BasicLit STRING (quoted "x")] |}.

Definition eps_position : Position :=
  {| Pos := {| Filename := "a.go"; tok_Offset := 0; Line := 1; Column := 3 |};
     Offset := 2 |}.

(** The file [//@printI("StringAndInt", "Number %d")] and a handler
    [printI] of a string, a string and an int. *)
Definition printI_content : string :=
  "//@printI(" ++ quoted "StringAndInt" ++ ", " ++ quoted "Number %d" ++ ")".

Definition printI_table : gmap string (handler unit) :=
  {[ "printI" := {| h_in := [otherType KString; otherType KString; otherType KInt];
                    h_call := λ _, mret tt |} ]}.

(** The file
[[
A x //@A
B //@mark(A, "B") //@B
]]
    declares [A] twice and then [B]. *)
Definition dup_content : string :=
  "A x //@A" ++ nl ++ "B //@mark(A, " ++ quoted "B" ++ ") //@B" ++ nl.

Definition dup_file : file :=
  {| f_name := "a.go"; f_content := to_bytes dup_content |}.

Definition dup_line1 : line :=
  {| l_file := dup_file; l_offset := 0; l_number := 1;
     l_value := to_bytes "A x " |}.

Definition dup_line2 : line :=
  {| l_file := dup_file; l_offset := 9; l_number := 2;
     l_value := to_bytes "B " |}.

Definition dup_a1 : marker :=
  {| m_line := dup_line1; m_method := "mark";
     m_args := [Ident "A"; BasicLit STRING (quoted "A")] |}.

Definition dup_a2 : marker :=
  {| m_line := dup_line2; m_method := "mark";
     m_args := [Ident "A"; BasicLit STRING (quoted "B")] |}.

Definition dup_b : marker :=
  {| m_line := dup_line2; m_method := "mark";
     m_args := [Ident "B"; BasicLit STRING (quoted "B")] |}.

(** The world after the turns of the two declarations of [A]. *)
Definition dup_world2 : World unit :=
  final (invoke_loop mark_table ([] ++ dup_a1 :: [] ++ [dup_a2])
           (put_anchors ∅ (world (extracted "a.go" dup_content)))).

Definition dup_p1 : Position :=
  {| Pos := {| Filename := "a.go"; tok_Offset := 0; Line := 1; Column := 1 |};
     Offset := 0 |}.

Definition dup_p2 : Position :=
  {| Pos := {| Filename := "a.go"; tok_Offset := 0; Line := 2; Column := 1 |};
     Offset := 9 |}.

(** The line [foo //@mark(P, "foo")], the first of a file. *)
Definition foo_segment : bytes :=
  to_bytes ("foo //@mark(P, " ++ quoted "foo" ++ ")").

Definition foo_file : file := {| f_name := "a.go"; f_content := foo_segment |}.

Definition foo_marker : marker :=
  {| m_line := new_line foo_file 0 0 foo_segment;
     m_method := "mark";
     m_args := [Ident "P"; BasicLit STRING (quoted "foo")] |}.

(** A handler [check] of a string and a Position, and the table of
    methods that [Invoke] builds for it. *)
Definition check_table : gmap string (handler unit) :=
  {[ "check" := {| h_in := [otherType KString; positionType];
                   h_call := λ _, mret tt |} ]}.

Definition check_methods : gmap string (@method unit) :=
  {[ "check" := {| f := {| h_in := [otherType KString; positionType];
                           h_call := λ _, mret tt |};
                   converters := [convert_string; convert_position] |} ]}.

(** A handler [check] of a bool. *)
Definition bool_table : gmap string (handler unit) :=
  {[ "check" := {| h_in := [otherType KBool]; h_call := λ _, mret tt |} ]}.

Definition foo_position : Position :=
  {| Pos := {| Filename := "a.go"; tok_Offset := 0; Line := 1; Column := 1 |};
     Offset := 0 |}.

(** The file
[[
A //@A
B //@(
C //@C
]]
    whose second marker is not an expression. *)
Definition bad_content : string :=
  "A //@A" ++ nl ++ "B //@(" ++ nl ++ "C //@C".

Definition bad_file : file :=
  {| f_name := "a.go"; f_content := to_bytes bad_content |}.

Definition bad_line1 : line :=
  {| l_file := bad_file; l_offset := 0; l_number := 1; l_value := to_bytes "A " |}.

Definition bad_line2 : line :=
  {| l_file := bad_file; l_offset := 7; l_number := 2; l_value := to_bytes "B " |}.


(** The file [package a], which holds no marker. *)
Definition plain_content : string := "package a" ++ nl.

(** The world after the anchor pass over the file with a duplicate. *)
Definition dup_final : World unit :=
  final (Anchors (world (extracted "a.go" dup_content))).

(** The file
[[
x //@mark(B, A)
A //@A
]]
    whose first marker names the anchor that the second declares. *)
Definition fwd_content : string :=
  "x //@mark(B, A)" ++ nl ++ "A //@A" ++ nl.

Definition fwd_file : file :=
  {| f_name := "a.go"; f_content := to_bytes fwd_content |}.

Definition fwd_line1 : line :=
  {| l_file := fwd_file; l_offset := 0; l_number := 1;
     l_value := to_bytes "x " |}.

Definition fwd_line2 : line :=
  {| l_file := fwd_file; l_offset := 16; l_number := 2;
     l_value := to_bytes "A " |}.

Definition fwd_a : marker :=
  {| m_line := fwd_line1; m_method := "mark";
     m_args := [Ident "B"; Ident "A"] |}.

Definition fwd_b : marker :=
  {| m_line := fwd_line2; m_method := "mark";
     m_args := [Ident "A"; BasicLit STRING (quoted "A")] |}.

(** The handler of [check_table], and a marker [check(P, "foo")] on the
    line of [foo_marker]. *)
Definition check_handler : handler unit :=
  {| h_in := [otherType KString; positionType]; h_call := λ _, mret tt |}.

Definition check_marker : marker :=
  {| m_line := m_line foo_marker; m_method := "check";
     m_args := [Ident "P"; BasicLit STRING (quoted "foo")] |}.

(** The file [P //@P //@check(P, P) //@other(1)]. *)
Definition calls_content : string := "P //@P //@check(P, P) //@other(1)".

Definition calls_line : line :=
  {| l_file := {| f_name := "a.go"; f_content := to_bytes calls_content |};
     l_offset := 0; l_number := 1; l_value := to_bytes "P " |}.

Definition calls_mark : marker :=
  {| m_line := calls_line; m_method := "mark";
     m_args := [Ident "P"; BasicLit STRING (quoted "P")] |}.

Definition calls_check : marker :=
  {| m_line := calls_line; m_method := "check";
     m_args := [Ident "P"; Ident "P"] |}.

Definition calls_other : marker :=
  {| m_line := calls_line; m_method := "other";
     m_args := [BasicLit INT "1"] |}.

(** The file [x //@Foo]: the name of the marker is not on its line. *)
Definition lone_content : string := "x //@Foo".

Definition lone_line : line :=
  {| l_file := {| f_name := "a.go"; f_content := to_bytes lone_content |};
     l_offset := 0; l_number := 1; l_value := to_bytes "x " |}.

Definition lone_marker : marker :=
  {| m_line := lone_line; m_method := "mark";
     m_args := [Ident "Foo"; BasicLit STRING (quoted "Foo")] |}.

(** An engine whose anchor table is set and empty. *)
Definition engine_set : Markers := {| anchors := Some ∅; markers := [] |}.

End Inputs.

(** * Properties *)

#[local] Set Warnings "-clear-no-such-hyp".

(** Unfold the monad of the engine. *)
Ltac munfold := unfold mbind, M_bind, mret, M_ret in *.

Ltac fatal_case :=
  right; left; eexists; split; [|reflexivity]; reflexivity.

(** ** Facts about the byte primitives *)

(** *** Facts about [Index] and the splits *)

Lemma Index_prefix (s sep : bytes) (i : nat) :
  Index s sep = Some i → sep `prefix_of` drop i s.
Proof.
  revert i; induction s as [|c s IH]; intros i; simpl.
  - destruct (decide _) as [Hp|]; [|done]. by intros [= <-].
  - destruct (decide _) as [Hp|]; [by intros [= <-]|].
    destruct (Index s sep) as [j|] eqn:E; [|done].
    intros [= <-]. simpl. by apply IH.
Qed.

Lemma Index_bound (s sep : bytes) (i : nat) :
  Index s sep = Some i → i + length sep ≤ length s.
Proof.
  intros Hi. pose proof (Index_prefix _ _ _ Hi) as Hp.
  apply prefix_length in Hp. rewrite length_drop in Hp.
  destruct (decide (i ≤ length s)) as [|Hn]; [lia|].
  assert (length sep = 0) as Hz by lia.
  destruct sep; [|done].
  assert (Index s [] = Some 0) as Hs.
  { by destruct s. }
  rewrite Hs in Hi. injection Hi as <-. lia.
Qed.

Lemma Index_first (s sep : bytes) (i j : nat) :
  Index s sep = Some i → j < i → ¬ sep `prefix_of` drop j s.
Proof.
  revert i j; induction s as [|c s IH]; intros i j; simpl.
  - destruct (decide _); [intros [= <-]; lia | done].
  - destruct (decide _) as [|Hn]; [intros [= <-]; lia|].
    destruct (Index s sep) as [k|] eqn:E; [|done].
    intros [= <-] Hj. destruct j as [|j]; [done|].
    simpl. apply (IH k); [done | lia].
Qed.

Lemma Index_None (s sep : bytes) (j : nat) :
  Index s sep = None → ¬ sep `prefix_of` drop j s.
Proof.
  revert j; induction s as [|c s IH]; intros j; simpl.
  - destruct (decide _) as [|Hn]; [done|]. intros _. by rewrite drop_nil.
  - destruct (decide _) as [|Hn]; [done|].
    destruct (Index s sep) as [k|] eqn:E; [done|].
    intros _. destruct j as [|j]; [done|]. simpl. by apply IH.
Qed.

Lemma Index_None_intro (s sep : bytes) :
  (∀ j, ¬ sep `prefix_of` drop j s) → Index s sep = None.
Proof.
  intros Hall. destruct (Index s sep) as [i|] eqn:E; [|done].
  destruct (Hall i). by apply Index_prefix.
Qed.

(** The text found at index [i] is [sep], what precedes it is [take i s]. *)
Lemma Index_split (s sep : bytes) (i : nat) :
  Index s sep = Some i →
  s = take i s ++ sep ++ drop (i + length sep) s.
Proof.
  intros Hi. destruct (Index_prefix _ _ _ Hi) as [k Hk].
  rewrite <- (take_drop i s) at 1. f_equal.
  rewrite <- drop_drop, Hk.
  by rewrite drop_app_length.
Qed.

(** No instance of a non-empty [sep] lies inside the text before the
    first one. *)
Lemma Index_take_None (s sep : bytes) (i : nat) :
  sep ≠ [] → Index s sep = Some i → Index (take i s) sep = None.
Proof.
  intros Hne Hi. apply Index_None_intro. intros j [k Hk].
  assert (length (drop j (take i s)) = length (sep ++ k)) as Hlen
    by by rewrite Hk.
  rewrite length_drop, length_take, length_app in Hlen.
  assert (0 < length sep) by (destruct sep; [done | simpl; lia]).
  apply (Index_first _ _ _ j Hi); [lia|].
  exists (k ++ drop i s).
  rewrite <- (take_drop i s) at 1.
  rewrite drop_app_le by (rewrite length_take; lia).
  by rewrite Hk, app_assoc.
Qed.

Lemma genSplit_None (fuel : nat) (s sep : bytes) (sepSave : nat) :
  Index s sep = None → genSplit fuel s sep sepSave = [s].
Proof. intros E. destruct fuel; simpl; by rewrite E. Qed.

Lemma genSplit_Some (fuel : nat) (s sep : bytes) (sepSave m : nat) :
  Index s sep = Some m →
  genSplit (S fuel) s sep sepSave =
    take (m + sepSave) s :: genSplit fuel (drop (m + length sep) s) sep sepSave.
Proof. intros E. simpl. by rewrite E. Qed.

Lemma genSplit_fuel (sep : bytes) (sepSave : nat) :
  sep ≠ [] →
  ∀ n fuel s, fuel ≤ n → length s ≤ fuel →
    genSplit fuel s sep sepSave = genSplit (length s) s sep sepSave.
Proof.
  intros Hne.
  assert (0 < length sep) as Hpos by (destruct sep; [done | simpl; lia]).
  induction n as [|n IH]; intros fu s Hfn Hs.
  - assert (fu = 0) as -> by lia. by assert (length s = 0) as -> by lia.
  - destruct (Index s sep) as [m|] eqn:E.
    2:{ by rewrite !genSplit_None. }
    pose proof (Index_bound _ _ _ E).
    destruct fu as [|fu]; [lia|].
    destruct (length s) as [|ls] eqn:El; [lia|].
    rewrite !(genSplit_Some _ _ _ _ m) by done. f_equal.
    rewrite (IH fu) by (try rewrite length_drop; lia).
    rewrite (IH ls); [done | lia | rewrite length_drop; lia].
Qed.

(** With fuel for every byte of [s], [genSplit] is the loop of the
    library: it stops only where no separator is left. *)
Lemma genSplit_unfold (fuel : nat) (s sep : bytes) (sepSave : nat) :
  sep ≠ [] → length s ≤ fuel →
  genSplit fuel s sep sepSave =
    match Index s sep with
    | None => [s]
    | Some m =>
        take (m + sepSave) s
          :: genSplit (length (drop (m + length sep) s))
               (drop (m + length sep) s) sep sepSave
    end.
Proof.
  intros Hne Hs.
  assert (0 < length sep) as Hpos by (destruct sep; [done | simpl; lia]).
  destruct (Index s sep) as [m|] eqn:E; [|by apply genSplit_None].
  pose proof (Index_bound _ _ _ E).
  destruct fuel as [|fuel]; [lia|].
  rewrite (genSplit_Some _ _ _ _ m) by done. f_equal.
  apply (genSplit_fuel sep sepSave Hne fuel); [done|].
  rewrite length_drop; lia.
Qed.

(** The parts of [SplitAfter] put end to end are the text split. *)
Lemma SplitAfter_concat (s sep : bytes) :
  sep ≠ [] → concat (SplitAfter s sep) = s.
Proof.
  intros Hne. unfold SplitAfter.
  assert (∀ fuel s, length s ≤ fuel →
            concat (genSplit fuel s sep (length sep)) = s) as Hall.
  { induction fuel as [|fuel IH]; intros t Ht; simpl.
    - destruct (Index t sep); simpl; by rewrite app_nil_r.
    - destruct (Index t sep) as [m|] eqn:E; simpl;
        [|by rewrite app_nil_r].
      pose proof (Index_bound _ _ _ E).
      assert (0 < length sep) by (destruct sep; [done | simpl; lia]).
      rewrite IH by (rewrite length_drop; lia).
      apply take_drop. }
  by apply Hall.
Qed.

(** [Split] returns at least one part, and the first is the text before
    the first separator. *)
Lemma Split_head (s sep : bytes) :
  head (Split s sep) =
    Some (match Index s sep with Some m => take m s | None => s end).
Proof.
  unfold Split. destruct (length s) as [|n] eqn:El; simpl.
  - destruct (Index s sep) as [m|]; [|done].
    destruct s; [|done]. by rewrite take_nil.
  - destruct (Index s sep) as [m|]; [|done]. simpl. by rewrite Nat.add_0_r.
Qed.

(** *** Splitting a text put together from parts *)

Lemma prefix_app_short (sep u v : bytes) :
  sep `prefix_of` u ++ v → length sep ≤ length u → sep `prefix_of` u.
Proof.
  intros [k Hk] Hlen. exists (drop (length sep) u).
  assert (take (length sep) (u ++ v) = sep) as Ht
    by by rewrite Hk, take_app_length.
  rewrite take_app_le in Ht by done.
  by rewrite <- Ht at 1; rewrite take_drop.
Qed.

Lemma Index_cons_None (c : ascii) (u sep : bytes) :
  Index (c :: u) sep = None → ¬ sep `prefix_of` c :: u ∧ Index u sep = None.
Proof.
  simpl. destruct (decide _); [done|]. by destruct (Index u sep).
Qed.

(** The first instance of [sep] in [u] is the first one in [u ++ v]. *)
Lemma Index_app_l (u v sep : bytes) (m : nat) :
  Index u sep = Some m → Index (u ++ v) sep = Some m.
Proof.
  revert m. induction u as [|c u IH]; intros m; simpl.
  - destruct (decide _) as [Hp|]; [|done]. intros [= <-].
    apply prefix_nil_inv in Hp as ->. by destruct v.
  - destruct (decide (sep `prefix_of` c :: u)) as [Hp|Hn].
    + intros [= <-]. rewrite decide_True; [done|].
      by apply (prefix_app_r sep (c :: u) v).
    + destruct (Index u sep) as [j|] eqn:E; [|done]. intros [= <-].
      rewrite decide_False.
      * by rewrite (IH j).
      * intros Hp. apply Hn. apply (prefix_app_short _ (c :: u) v Hp).
        apply Index_bound in E. simpl. lia.
Qed.

(** A text [y] without the first byte of [sep] holds no start of an
    instance of [sep]. *)
Lemma Index_app_nohead (c0 : ascii) (sep' y v : bytes) :
  Forall (λ c, c ≠ c0) y →
  Index (y ++ v) (c0 :: sep') = (λ m, length y + m) <$> Index v (c0 :: sep').
Proof.
  induction 1 as [|c y Hc Hy IH].
  - simpl. by destruct (Index v (c0 :: sep')).
  - cbn [app Index]. rewrite decide_False.
    + rewrite IH. by destruct (Index v (c0 :: sep')).
    + intros [k Hk]. by injection Hk.
Qed.

Lemma gs_unfold (sep : bytes) (sepSave : nat) (s : bytes) :
  sep ≠ [] →
  gs sep sepSave s =
    match Index s sep with
    | None => [s]
    | Some m => take (m + sepSave) s :: gs sep sepSave (drop (m + length sep) s)
    end.
Proof. intros Hne. unfold gs. by apply genSplit_unfold. Qed.

(** Splitting [u ++ v] starts as splitting [u] does, up to the last part
    of [u], which holds no separator. *)
Lemma gs_app (sep : bytes) (sepSave : nat) :
  sep ≠ [] → sepSave ≤ length sep →
  ∀ u, ∃ parts rest,
    gs sep sepSave u = parts ++ [rest] ∧
    Index rest sep = None ∧
    ∀ v, gs sep sepSave (u ++ v) = parts ++ gs sep sepSave (rest ++ v).
Proof.
  intros Hne Hk.
  assert (0 < length sep) as Hpos by (destruct sep; [done | simpl; lia]).
  assert (∀ n u, length u ≤ n → ∃ parts rest,
            gs sep sepSave u = parts ++ [rest] ∧
            Index rest sep = None ∧
            ∀ v, gs sep sepSave (u ++ v) = parts ++ gs sep sepSave (rest ++ v))
    as Hall.
  { induction n as [|n IH]; intros u Hu.
    - destruct u; [|simpl in Hu; lia].
      exists [], []. split_and!; [|by destruct sep|done].
      rewrite gs_unfold by done. by destruct sep.
    - destruct (Index u sep) as [m|] eqn:E.
      + pose proof (Index_bound _ _ _ E) as Hb.
        destruct (IH (drop (m + length sep) u))
          as (parts & rest & Hgs & Hrest & Happ);
          [rewrite length_drop; lia|].
        exists (take (m + sepSave) u :: parts), rest. split_and!.
        * by rewrite gs_unfold, E, Hgs.
        * done.
        * intros v. rewrite gs_unfold, (Index_app_l _ _ _ _ E) by done.
          rewrite take_app_le, drop_app_le by lia. by rewrite Happ.
      + exists [], u. split_and!; [|done|done].
        by rewrite gs_unfold, E. }
  intros u. by apply (Hall (length u)).
Qed.

Lemma gs_app_nohead (c0 : ascii) (sep' : bytes) (sepSave : nat) (y v : bytes) :
  Forall (λ c, c ≠ c0) y →
  gs (c0 :: sep') sepSave (y ++ v) =
    match gs (c0 :: sep') sepSave v with
    | t :: ts => (y ++ t) :: ts
    | [] => []
    end.
Proof.
  intros Hy. rewrite !(gs_unfold (c0 :: sep')), (Index_app_nohead _ _ _ _ Hy)
    by done.
  destruct (Index v (c0 :: sep')) as [m|]; simpl; [|done].
  rewrite <- !Nat.add_assoc, take_app_add, drop_app_add. done.
Qed.

Lemma Index_None_nohead (c0 : ascii) (y : bytes) :
  Index y [c0] = None → Forall (λ c, c ≠ c0) y.
Proof.
  induction y as [|c y IH]; [done|].
  intros [Hn Hy]%Index_cons_None. constructor; [|by apply IH].
  intros ->. apply Hn. by exists y.
Qed.

Section Properties.

Context `{GoLib} {U : Type}.

Implicit Types (w : World U) (a : marker) (l : list marker).

Lemma bind_unfold {A B} (c : M U A) (k : A → M U B) w :
  (c ≫= k) w =
    match c w with
    | Done x w' => k x w'
    | Fatal w' => Fatal w'
    | Panic w' => Panic w'
    end.
Proof. reflexivity. Qed.

Lemma bind_Done {A B} (c : M U A) (k : A → M U B) w x w' :
  c w = Done x w' → (c ≫= k) w = k x w'.
Proof. intros E. by rewrite bind_unfold, E. Qed.

(** ** Anchors and Invoke satisfy the equations of the source *)

Lemma Anchors_with_cached inv w tbl :
  anchors (w_m w) = Some tbl → Anchors_with inv w = Done (Some tbl) w.
Proof.
  intros E. unfold Anchors_with. rewrite bind_unfold. simpl. by rewrite E.
Qed.

Lemma Invoke_from_cached A1 A2 methods w :
  is_Some (anchors (w_m w)) →
  Invoke_from (Anchors_with A1) methods w = Invoke_from (Anchors_with A2) methods w.
Proof.
  intros [tbl E]. unfold Invoke_from.
  by rewrite !bind_unfold, !(Anchors_with_cached _ _ tbl E).
Qed.

Lemma Anchors_with_ext inv1 inv2 w :
  (∀ methods w', is_Some (anchors (w_m w')) → inv1 methods w' = inv2 methods w') →
  Anchors_with inv1 w = Anchors_with inv2 w.
Proof.
  intros Hext. unfold Anchors_with. munfold. simpl.
  destruct (anchors (w_m w)) as [tbl|]; [done|].
  rewrite Hext; [done | simpl; eauto].
Qed.

Lemma Anchors_unfold w : Anchors w = Anchors_with Invoke w.
Proof.
  apply Anchors_with_ext. intros methods w' Hw'.
  by apply Invoke_from_cached.
Qed.

Lemma Invoke_unfold methods w :
  Invoke methods w = (Anchors;; dispatch methods) w.
Proof. reflexivity. Qed.

Lemma Invoke_cached methods w :
  is_Some (anchors (w_m w)) → Invoke methods w = dispatch methods w.
Proof.
  intros [tbl E]. rewrite Invoke_unfold, bind_unfold.
  unfold Anchors. by rewrite (Anchors_with_cached _ _ tbl E).
Qed.

(** ** Building the converters *)

Lemma buildConverter_unsupported pt w :
  supported pt = false →
  buildConverter pt w = Fatal (log (ActionParamInvalidType pt) w).
Proof. destruct pt as [| | |k]; try done. by destruct k. Qed.

Lemma buildConverter_supported pt :
  supported pt = true → ∃ c, ∀ w, buildConverter pt w = Done c w.
Proof. destruct pt as [| | |k]; try destruct k; try done; by eexists. Qed.

(** Building the converters of a handler changes nothing; it succeeds,
    or stops at the first parameter type that is not supported. *)
Lemma build_converters_cases (pts : list rtype) :
  (Forall (λ pt, supported pt = true) pts ∧
   ∃ cs, ∀ w, build_converters pts w = Done cs w) ∨
  (∃ pt, pt ∈ pts ∧ supported pt = false ∧
         ∀ w, build_converters pts w = Fatal (log (ActionParamInvalidType pt) w)).
Proof.
  induction pts as [|pt pts IH]; simpl.
  - left. split; [done | by eexists].
  - destruct (supported pt) eqn:Es.
    + destruct (buildConverter_supported pt Es) as [c Hc].
      destruct IH as [[Hall [cs Hcs]]|(pt' & Hin & Hs & Hf)].
      * left. split; [by constructor|].
        exists (c :: cs). intros w. munfold. by rewrite Hc, Hcs.
      * right. exists pt'. split_and!; [by right | done |].
        intros w. munfold. by rewrite Hc, Hf.
    + right. exists pt. split_and!; [by left | done |].
      intros w. munfold. by rewrite (buildConverter_unsupported pt w Es).
Qed.

Lemma build_converters_Done (pts : list rtype) cs w w' :
  build_converters pts w = Done cs w' → w' = w.
Proof.
  destruct (build_converters_cases pts) as [[_ [cs' Hcs]]|(pt' & _ & _ & Hf)].
  - rewrite Hcs. by intros [= <- <-].
  - by rewrite Hf.
Qed.

(** The table of methods: every entry of the handler table goes into
    it, unless a parameter type of some handler is not supported. *)
Lemma build_methods_Done (l : list (string * handler U)) acc w ms w' :
  build_methods l acc w = Done ms w' →
  w' = w ∧ ∀ n, ms !! n = None ↔ acc !! n = None ∧ n ∉ l.*1.
Proof.
  revert acc. induction l as [|[n0 h0] l IH]; intros acc; simpl.
  - intros [= <- <-]. split; [done|]. intros n.
    split; [intros ?; split; [done | apply not_elem_of_nil] | by intros []].
  - munfold.
    destruct (build_converters (h_in h0) w) as [cs w2| |] eqn:Eb; [|done|done].
    apply build_converters_Done in Eb as ->.
    intros Hb. apply IH in Hb as [-> Hdom]. split; [done|].
    intros n. rewrite Hdom, lookup_insert_None, not_elem_of_cons.
    simpl. naive_solver.
Qed.

Lemma build_methods_unsupported (l : list (string * handler U)) :
  (∃ n h pt, (n, h) ∈ l ∧ pt ∈ h_in h ∧ supported pt = false) →
  ∃ pt, supported pt = false ∧ (∃ n h, (n, h) ∈ l ∧ pt ∈ h_in h) ∧
        ∀ acc w, build_methods l acc w = Fatal (log (ActionParamInvalidType pt) w).
Proof.
  induction l as [|[n0 h0] l IH]; intros (n & h & pt & Hin & Hpt & Hs).
  - by apply elem_of_nil in Hin.
  - destruct (build_converters_cases (h_in h0))
      as [[Hall [cs Hcs]]|(pt' & Hin' & Hs' & Hf)].
    + assert ((n, h) ∈ l) as Hl.
      { apply elem_of_cons in Hin as [[= -> ->]|]; [|done].
        rewrite Forall_forall in Hall. by rewrite (Hall pt Hpt) in Hs. }
      destruct IH as (pt' & Hs' & (n' & h' & Hin' & Hpt') & Hf); [by eauto 6|].
      exists pt'. split_and!; [done | exists n', h'; split; [by right|done] |].
      intros acc w. simpl. munfold. by rewrite Hcs, Hf.
    + exists pt'. split_and!; [done | exists n0, h0; split; [by left|done] |].
      intros acc w. simpl. munfold. by rewrite Hf.
Qed.

(** ** What the converters return *)

Lemma convert_string_cases a args w :
  (∃ arg rest n, args = arg :: rest ∧ name_of arg = Some n ∧
                 convert_string a args w = Done (VString n, rest) w) ∨
  (∃ msg, is_dup_msg msg = false ∧
          convert_string a args w = Fatal (log msg w)) ∨
  (args = [] ∧ convert_string a args w = Panic w).
Proof.
  destruct args as [|arg rest]; [by right; right|].
  destruct arg as [n|k v|fn xs|node]; simpl.
  - left. by exists (Ident n), rest, n.
  - destruct k; simpl; try (fatal_case).
    destruct (Unquote v) as [s|] eqn:E.
    + left. by exists (BasicLit STRING v), rest, s.
    + fatal_case.
  - fatal_case.
  - fatal_case.
Qed.

Lemma convert_position_cases a args w :
  (∃ arg rest p, args = arg :: rest ∧ resolve (w_m w) a arg = Some p ∧
                 convert_position a args w = Done (VPosition p, rest) w) ∨
  (∃ msg, is_dup_msg msg = false ∧
          convert_position a args w = Fatal (log msg w)) ∨
  (convert_position a args w = Panic w).
Proof.
  destruct args as [|arg rest]; [fatal_case|].
  destruct arg as [n|k v|fn xs|node]; simpl.
  - munfold. simpl. destruct (lookup_anchor (w_m w) n) as [p|] eqn:E.
    + left. by exists (Ident n), rest, p.
    + fatal_case.
  - destruct (Unquote v) as [s|] eqn:E; simpl; [|fatal_case].
    destruct v as [|c v]; [by right; right|]. munfold. simpl.
    destruct (decide (c = "`"%char)) as [->|Hc].
    + destruct (regexp_Compile s) as [re|] eqn:Ere;
        [|fatal_case].
      simpl. destruct (re (l_value (m_line a))) as [[i j]|] eqn:Em; simpl.
      * left. eexists _, rest, _. split; [done|]. split; [|done].
        unfold resolve, find_pattern. rewrite E. simpl.
        rewrite Ere. simpl. by rewrite Em.
      * fatal_case.
    + destruct (Index (l_value (m_line a)) (to_bytes s)) as [i|] eqn:Ei.
      * left. eexists _, rest, _. split; [done|]. split; [|done].
        unfold resolve, find_pattern. rewrite E. simpl.
        rewrite decide_False by done. by rewrite Ei.
      * fatal_case.
  - fatal_case.
  - fatal_case.
Qed.

Lemma convert_int_cases a args w :
  (∃ k v rest z, args = BasicLit k v :: rest ∧
                 convert_int a args w = Done (VInt z, rest) w) ∨
  (∃ msg, is_dup_msg msg = false ∧
          convert_int a args w = Fatal (log msg w)) ∨
  (args = [] ∧ convert_int a args w = Panic w).
Proof.
  destruct args as [|arg rest]; [by right; right|].
  destruct arg as [n|k v|fn xs|node]; simpl; try (fatal_case).
  destruct k; simpl; try (fatal_case).
  destruct (Atoi v) as [z|]; [|fatal_case].
  left. by eexists _, _, _, _.
Qed.

(** ** The anchor pass *)

Lemma dispatch_mark w :
  dispatch {[ "mark" := mark_handler ]} w
  = invoke_loop mark_table (markers (w_m w)) w.
Proof.
  unfold dispatch. rewrite map_to_list_singleton. simpl. munfold. simpl.
  by rewrite insert_empty.
Qed.

Lemma Anchors_first w :
  anchors (w_m w) = None → Anchors w = first_Anchors w.
Proof.
  intros E. rewrite Anchors_unfold. unfold Anchors_with, first_Anchors.
  munfold. simpl. rewrite E.
  by rewrite Invoke_cached by (simpl; eauto).
Qed.

(** One turn of the anchor pass. *)
Lemma mark_marker_cases a w tbl :
  anchors (w_m w) = Some tbl →
  (m_method a ≠ "mark" ∧ invoke_marker mark_table a w = Done tt w) ∨
  (m_method a = "mark" ∧
   ((∃ msg, is_dup_msg msg = false ∧
           invoke_marker mark_table a w = Fatal (log msg w)) ∨
    invoke_marker mark_table a w = Panic w ∨
    (∃ arg1 arg2 n p,
        m_args a = [arg1; arg2] ∧ name_of arg1 = Some n ∧
        resolve (w_m w) a arg2 = Some p ∧
        invoke_marker mark_table a w =
          match tbl !! n with
          | Some old => Done tt (log (AnchorAlreadyExists n old p) (mark_call n p w))
          | None => Done tt (put_anchors (<[n := p]> tbl) (mark_call n p w))
          end))).
Proof.
  intros Etbl. unfold invoke_marker, mark_table.
  destruct (decide (m_method a = "mark")) as [Em|Em].
  2:{ left. split; [done|]. by rewrite lookup_singleton_ne. }
  right. split; [done|]. rewrite Em, lookup_singleton_eq. simpl.
  munfold. simpl.
  destruct (convert_string_cases a (m_args a) w)
    as [(arg1 & rest1 & n & Ea & Hn & Ec)|[(msg & Hmsg & Ec)|[_ Ec]]];
    rewrite Ec; [|left; by exists msg|by right; left].
  destruct (convert_position_cases a rest1 w)
    as [(arg2 & rest2 & p & Ea2 & Hp & Ec2)|[(msg & Hmsg & Ec2)|Ec2]];
    rewrite Ec2; [|left; by exists msg|by right; left].
  destruct rest2 as [|x rest2];
    [|left; eexists; split; [|reflexivity]; reflexivity].
  right; right. exists arg1, arg2, n, p.
  split_and!; [by rewrite Ea, Ea2 | done | done |].
  unfold lookup_anchor, mark_call. simpl. rewrite Etbl.
  by destruct (tbl !! n).
Qed.

(** A turn of the anchor pass never unsets the table, never removes or
    changes a binding, and leaves the markers alone, however it ends. *)
Lemma mark_marker_final a w tbl :
  anchors (w_m w) = Some tbl →
  ∃ tbl', anchors (w_m (final (invoke_marker mark_table a w))) = Some tbl' ∧
          tbl ⊆ tbl' ∧
          markers (w_m (final (invoke_marker mark_table a w))) = markers (w_m w).
Proof.
  intros Etbl.
  destruct (mark_marker_cases a w tbl Etbl)
    as [[_ Er]|[_ [(msg & _ & Er)|[Er|(arg1 & arg2 & n & p & _ & _ & _ & Er)]]]];
    rewrite Er; simpl; try by exists tbl.
  destruct (tbl !! n) as [old|] eqn:En; simpl.
  - by exists tbl.
  - exists (<[n := p]> tbl). split_and!; [done | by apply insert_subseteq | done].
Qed.

Lemma invoke_loop_cons ms a l w :
  invoke_loop ms (a :: l) w =
    match invoke_marker ms a w with
    | Done _ w' => invoke_loop ms l w'
    | Fatal w' => Fatal w'
    | Panic w' => Panic w'
    end.
Proof. reflexivity. Qed.

Lemma invoke_loop_app ms l1 l2 w :
  invoke_loop ms (l1 ++ l2) w =
    match invoke_loop ms l1 w with
    | Done _ w' => invoke_loop ms l2 w'
    | Fatal w' => Fatal w'
    | Panic w' => Panic w'
    end.
Proof.
  revert w. induction l1 as [|a l1 IH]; intros w; [done|].
  rewrite <- app_comm_cons, !invoke_loop_cons.
  destruct (invoke_marker ms a w); [apply IH | done | done].
Qed.

Lemma mark_loop_final l w tbl :
  anchors (w_m w) = Some tbl →
  ∃ tbl', anchors (w_m (final (invoke_loop mark_table l w))) = Some tbl' ∧
          tbl ⊆ tbl' ∧
          markers (w_m (final (invoke_loop mark_table l w))) = markers (w_m w).
Proof.
  revert w tbl. induction l as [|a l IH]; intros w tbl Etbl.
  - by exists tbl.
  - rewrite invoke_loop_cons.
    destruct (mark_marker_final a w tbl Etbl) as (tbl1 & E1 & Hsub & Hm).
    destruct (invoke_marker mark_table a w) as [[] w1|w1|w1]; simpl in *;
      try by exists tbl1.
    destruct (IH w1 tbl1 E1) as (tbl2 & E2 & Hsub2 & Hm2).
    exists tbl2. split_and!; [done | by etrans | congruence].
Qed.

(** However a call of [Anchors] ends, the table is set after it. *)
Lemma Anchors_final w :
  ∃ tbl, anchors (w_m (final (Anchors w))) = Some tbl ∧
         markers (w_m (final (Anchors w))) = markers (w_m w) ∧
         ∀ r w', Anchors w = Done r w' → r = Some tbl.
Proof.
  destruct (anchors (w_m w)) as [tbl|] eqn:E.
  - unfold Anchors. rewrite (Anchors_with_cached _ _ tbl E). simpl.
    exists tbl. split_and!; [done | done | by intros ?? [= <- <-]].
  - rewrite (Anchors_first w E). unfold first_Anchors. munfold. simpl.
    rewrite dispatch_mark. simpl.
    destruct (mark_loop_final (markers (w_m w)) (put_anchors ∅ w) ∅ eq_refl)
      as (tbl & E1 & _ & Hm).
    destruct (invoke_loop _ _ _) as [[] w1|w1|w1]; simpl in *;
      exists tbl; split_and!; try done.
    intros ?? [= <- <-]. done.
Qed.

(** ** Anchors are computed once *)


(** ** Markers without a handler *)

Lemma invoke_marker_skip (ms : gmap string (@method U)) a w :
  ms !! m_method a = None → invoke_marker ms a w = Done tt w.
Proof. intros E. unfold invoke_marker. by rewrite E. Qed.






(** ** Parameter types that are not supported *)

(** C9, as the code has it.  When a handler of the table declares a
    parameter type that is not supported, [Invoke] never reaches its
    dispatch loop: once the call of [Anchors] it starts with has
    returned, building the converters stops with the report of an
    invalid parameter type of some handler of the table, and the world
    is otherwise as [Anchors] left it, whatever the markers are.  On an engine whose anchors were
    computed before, that is the world [Invoke] was called in.  If
    [Anchors] itself stops, [Invoke] stops there. *)
Theorem unsupported_parameter_type_fatal
    (methods : gmap string (handler U)) name h pt :
  methods !! name = Some h → pt ∈ h_in h → supported pt = false →
  ∃ pt', supported pt' = false ∧
    (∃ name' h', methods !! name' = Some h' ∧ pt' ∈ h_in h') ∧
    (∀ w, Invoke methods w =
            match Anchors w with
            | Done _ w1 => Fatal (log (ActionParamInvalidType pt') w1)
            | Fatal w1 => Fatal w1
            | Panic w1 => Panic w1
            end) ∧
    (∀ w, is_Some (anchors (w_m w)) →
          Invoke methods w = Fatal (log (ActionParamInvalidType pt') w)).
Proof.
  intros Hh Hpt Hs.
  destruct (build_methods_unsupported (map_to_list methods))
    as (pt' & Hs' & (name' & h' & Hin' & Hpt') & Hf).
  { exists name, h, pt. split_and!; [|done|done].
    by apply elem_of_map_to_list. }
  assert (∀ w, dispatch methods w = Fatal (log (ActionParamInvalidType pt') w))
    as Hd.
  { intros w. unfold dispatch. munfold. by rewrite Hf. }
  exists pt'. split_and!; [done | | |].
  - exists name', h'. split; [|done]. by apply elem_of_map_to_list.
  - intros w. rewrite Invoke_unfold, bind_unfold.
    destruct (Anchors w); [apply Hd | done | done].
  - intros w Hw. rewrite Invoke_cached by done. apply Hd.
Qed.

(** ** Missing arguments *)

(** C2, on the code.  With no argument left, the converter of a
    [Position] parameter reports a missing argument and stops the test;
    the converters of [string] and [int] parameters index the empty
    argument list, which is a run time panic. *)
Theorem missing_argument_outcome a w :
  convert_position a [] w = Fatal (log (MissingArgument a) w) ∧
  convert_string a [] w = Panic w ∧
  convert_int a [] w = Panic w.
Proof. done. Qed.

End Properties.

(** ** The line index *)

Section LineIndex.

Context `{GoLib}.



Lemma length_concat_sum (segs : list bytes) :
  length (concat segs) = sum_list_with length segs.
Proof.
  induction segs as [|seg segs IH]; simpl; [done|].
  by rewrite length_app, IH.
Qed.



End LineIndex.

(** ** Errors of Extract *)

Section ExtractErrors.

Context `{GoLib} {U : Type}.

Lemma parse_all_app cs1 cs2 ms :
  parse_all (cs1 ++ cs2) ms =
    match parse_all cs1 ms with
    | (ms', None) => parse_all cs2 ms'
    | (ms', Some err) => (ms', Some err)
    end.
Proof.
  revert ms. induction cs1 as [|[l part] cs1 IH]; intros ms; simpl; [done|].
  destruct (parse_marker l part); [done | apply IH].
Qed.

Lemma extract_parts_parse_all l parts ms :
  extract_parts l parts ms = parse_all ((λ part, (l, part)) <$> parts) ms.
Proof.
  revert ms. induction parts as [|part parts IH]; intros ms; simpl; [done|].
  destruct (parse_marker l part); [done | apply IH].
Qed.

Lemma extract_lines_parse_all f n segs st :
  let r := extract_lines f n segs st in
  (s_markers r.1, r.2)
  = parse_all (candidates_from f n (s_offset st) segs) (s_markers st).
Proof.
  revert n st. induction segs as [|seg segs IH]; intros n st; simpl; [done|].
  rewrite parse_all_app, <- extract_parts_parse_all.
  unfold new_line at 1.
  destruct (extract_parts _ _ _) as [ms [e|]]; [done|].
  apply (IH (S n)).
Qed.



End ExtractErrors.

(** ** Positions from patterns *)

Section Patterns.

Context `{GoLib} {U : Type}.

Implicit Types (w : World U) (a : marker).

Lemma length_of_bytes (b : bytes) : String.length (of_bytes b) = length b.
Proof. induction b as [|c b IH]; simpl; [done | by rewrite IH]. Qed.

(** On ASCII text a rune is a byte. *)
Lemma RuneCount_ascii (p : bytes) :
  Forall (λ c, nat_of_ascii c < 128) p → RuneCount p = length p.
Proof.
  unfold RuneCount.
  assert (∀ fuel p, length p ≤ fuel →
            Forall (λ c, nat_of_ascii c < 128) p →
            RuneCount_loop fuel p = length p) as Hall.
  { induction fuel as [|fuel IH]; intros q Hq Hascii.
    - destruct q; [done | simpl in Hq; lia].
    - destruct q as [|c q]; [done|].
      apply Forall_cons in Hascii as [Hc Hascii]. simpl in Hq.
      cbn [RuneCount_loop].
      assert (rune_size (c :: q) = 1) as ->.
      { unfold rune_size. by apply Nat.ltb_lt in Hc as ->. }
      simpl. rewrite ?drop_0. f_equal. apply IH; [lia | done]. }
  intros Hp. by apply Hall.
Qed.

(** The content stored for a line is the part of its segment before the
    first marker comment, and holds no marker comment. *)
Lemma new_line_value f n offset seg :
  ∃ rest, seg = l_value (new_line f n offset seg) ++ rest ∧
          (rest = [] ∨ markerComment `prefix_of` rest) ∧
          Index (l_value (new_line f n offset seg)) markerComment = None.
Proof.
  unfold new_line. simpl. rewrite Split_head. simpl.
  destruct (Index seg markerComment) as [i|] eqn:E.
  - exists (drop i seg). split_and!.
    + by rewrite take_drop.
    + right. by apply Index_prefix.
    + by apply Index_take_None.
  - exists []. rewrite app_nil_r. by split_and!; [|left|].
Qed.

Lemma find_pattern_bound a v s i :
  find_pattern a v s = Some i → i ≤ length (l_value (m_line a)).
Proof.
  unfold find_pattern. destruct v as [|c v]; [done|].
  destruct (decide _).
  - destruct (regexp_Compile s) as [re|] eqn:Ere; [|done]. simpl.
    destruct (re _) as [loc|] eqn:Em; [|done]. intros [= <-].
    by apply (FindIndex_bound s re _ loc).
  - intros Hi%Index_bound. lia.
Qed.

(** C6.  The marker [a] lies on a line built by [Extract] from the
    segment [seg]; the content of that line is the part of [seg] before
    its first marker comment, and no marker comment occurs in it.  For a
    literal that does not start with a backtick and unquotes to [s], the
    [Position] converter searches that content for the bytes of [s]: when
    they occur, it returns the Position of the first occurrence, whose
    offset is the offset of the line plus the index found, and consumes
    the argument; when they do not occur, it stops the test with the
    report that the pattern is not present. *)
Theorem quoted_pattern_position f n offset seg a k c v s rest w :
  m_line a = new_line f n offset seg →
  Unquote (String c v) = Some s →
  c ≠ "`"%char →
  (∃ tl, seg = l_value (m_line a) ++ tl ∧
         (tl = [] ∨ markerComment `prefix_of` tl) ∧
         Index (l_value (m_line a)) markerComment = None) ∧
  match Index (l_value (m_line a)) (to_bytes s) with
  | Some i =>
      (∃ p, convert_position a (BasicLit k (String c v) :: rest) w
              = Done (VPosition p, rest) w ∧
            Offset p = offset + i ∧
            Filename (Pos p) = f_name f ∧
            Line (Pos p) = n + 1) ∧
      l_value (m_line a)
        = take i (l_value (m_line a)) ++ to_bytes s
            ++ drop (i + length (to_bytes s)) (l_value (m_line a)) ∧
      (∀ j, j < i → ¬ to_bytes s `prefix_of` drop j (l_value (m_line a)))
  | None =>
      convert_position a (BasicLit k (String c v) :: rest) w
        = Fatal (log (PatternNotPresent s (m_line a)) w) ∧
      (∀ j, ¬ to_bytes s `prefix_of` drop j (l_value (m_line a)))
  end.
Proof.
  intros Hl Hu Hc. split.
  { rewrite Hl. apply new_line_value. }
  simpl. rewrite Hu. munfold. simpl. rewrite decide_False by done.
  destruct (Index (l_value (m_line a)) (to_bytes s)) as [i|] eqn:Ei.
  - split_and!.
    + eexists. split; [done|]. simpl. by rewrite Hl.
    + by apply Index_split.
    + intros j Hj. by apply (Index_first _ _ i).
  - split; [done|]. intros j. by apply Index_None.
Qed.

(** C1, as the code has it.  A Position that the [Position] converter
    returns for a literal comes from a match of its pattern at some index
    [i] of the content of the line, and its column is the number of bytes
    of the content before the match, plus 1.  That is the number of runes
    plus 1 when the content before the match is ASCII. *)
Theorem position_column_in_bytes a k v rest w p rest' w' :
  convert_position a (BasicLit k v :: rest) w = Done (VPosition p, rest') w' →
  ∃ s i,
    Unquote v = Some s ∧ find_pattern a v s = Some i ∧
    i ≤ length (l_value (m_line a)) ∧
    Offset p = l_offset (m_line a) + i ∧
    Column (Pos p) = length (take i (l_value (m_line a))) + 1 ∧
    Column (Pos p) = i + 1 ∧
    (Forall (λ c, nat_of_ascii c < 128) (take i (l_value (m_line a))) →
     Column (Pos p) = RuneCount (take i (l_value (m_line a))) + 1).
Proof.
  intros Hc.
  destruct (convert_position_cases a (BasicLit k v :: rest) w)
    as [(arg & rest2 & p2 & Ea & Hr & Ec)|[(msg & _ & Ec)|Ec]];
    rewrite Ec in Hc; [|done|done].
  injection Hc as <- <- <-. injection Ea as <- <-.
  simpl in Hr. destruct (Unquote v) as [s|]; [|done]. simpl in Hr.
  destruct (find_pattern a v s) as [i|] eqn:Ei; [|done].
  injection Hr as <-. exists s, i.
  pose proof (find_pattern_bound _ _ _ _ Ei) as Hi.
  assert (length (take i (l_value (m_line a))) = i) as Hlen
    by (rewrite length_take; lia).
  split_and!; try done.
  - simpl. by rewrite length_of_bytes.
  - simpl. by rewrite length_of_bytes, Hlen.
  - intros Hascii. simpl.
    by rewrite length_of_bytes, (RuneCount_ascii _ Hascii).
Qed.

End Patterns.

(** ** Anchors declared more than once *)

Section Duplicates.

Context `{GoLib} {U : Type}.

Implicit Types (w : World U) (a : marker) (l : list marker).

Lemma is_dup_is_dup_msg X msg : is_dup_msg msg = false → is_dup X msg = false.
Proof. by destruct msg. Qed.

(** A table that has grown resolves what it resolved before. *)
Lemma resolve_mono (m m' : Markers) a arg p tbl tbl' :
  anchors m = Some tbl → anchors m' = Some tbl' → tbl ⊆ tbl' →
  resolve m a arg = Some p → resolve m' a arg = Some p.
Proof.
  intros E E' Hsub. destruct arg as [n|k v|fn xs|node]; simpl; try done.
  unfold lookup_anchor. rewrite E, E'. intros Hn.
  by apply (lookup_weaken tbl tbl').
Qed.

Lemma position_of_mono (m m' : Markers) a p tbl tbl' :
  anchors m = Some tbl → anchors m' = Some tbl' → tbl ⊆ tbl' →
  position_of m a = Some p → position_of m' a = Some p.
Proof.
  intros E E' Hsub. unfold position_of.
  destruct (m_args a) as [|x [|arg [|]]]; try done.
  by apply resolve_mono with tbl tbl'.
Qed.

(** A turn of the anchor pass for a marker that does not declare [X],
    however it ends: the binding of [X] is as before, and nothing is
    reported about [X]. *)
Lemma mark_marker_other a w tbl X :
  anchors (w_m w) = Some tbl → ¬ declares a X →
  ∃ tbl' errs,
    anchors (w_m (final (invoke_marker mark_table a w))) = Some tbl' ∧
    tbl ⊆ tbl' ∧ tbl' !! X = tbl !! X ∧
    output (w_t (final (invoke_marker mark_table a w)))
      = output (w_t w) ++ errs ∧
    List.filter (is_dup X) errs = [].
Proof.
  intros Etbl Hnot.
  destruct (mark_marker_cases a w tbl Etbl)
    as [[_ Er]|[Em [(msg & Hmsg & Er)|[Er|(arg1 & arg2 & n & p & Ea & Hn & _ & Er)]]]];
    rewrite Er; simpl.
  - exists tbl, []. by rewrite app_nil_r.
  - exists tbl, [msg]. simpl. by rewrite (is_dup_is_dup_msg X msg Hmsg).
  - exists tbl, []. by rewrite app_nil_r.
  - assert (n ≠ X) as Hne.
    { intros ->. apply Hnot. split; [done|]. by exists arg1, [arg2]. }
    destruct (tbl !! n) as [old|] eqn:En; simpl.
    + exists tbl, [AnchorAlreadyExists n old p]. simpl.
      by rewrite bool_decide_eq_false_2.
    + exists (<[n := p]> tbl), []. rewrite app_nil_r.
      split_and!; [done | by apply insert_subseteq | | done | done].
      by apply lookup_insert_ne.
Qed.

Lemma mark_loop_other l w tbl X :
  anchors (w_m w) = Some tbl → Forall (λ a, ¬ declares a X) l →
  ∃ tbl' errs,
    anchors (w_m (final (invoke_loop mark_table l w))) = Some tbl' ∧
    tbl ⊆ tbl' ∧ tbl' !! X = tbl !! X ∧
    output (w_t (final (invoke_loop mark_table l w)))
      = output (w_t w) ++ errs ∧
    List.filter (is_dup X) errs = [].
Proof.
  intros Etbl Hall. revert w tbl Etbl.
  induction Hall as [|a l Ha Hall IH]; intros w tbl Etbl.
  - exists tbl, []. simpl. by rewrite app_nil_r.
  - rewrite invoke_loop_cons.
    destruct (mark_marker_other a w tbl X Etbl Ha)
      as (tbl1 & errs1 & E1 & Hsub1 & HX1 & Hout1 & Hf1).
    destruct (invoke_marker mark_table a w) as [[] w1|w1|w1]; simpl in *;
      try by exists tbl1, errs1.
    destruct (IH w1 tbl1 E1) as (tbl2 & errs2 & E2 & Hsub2 & HX2 & Hout2 & Hf2).
    exists tbl2, (errs1 ++ errs2).
    split_and!; [done | by etrans | congruence | |].
    + by rewrite Hout2, Hout1, app_assoc.
    + by rewrite List.filter_app, Hf1, Hf2.
Qed.

(** A turn that returns for a marker declaring [X]: the handler is
    called with the Position of the marker; it binds [X] when [X] is
    free, and reports the duplicate and changes no binding when [X] is
    bound. *)
Lemma mark_marker_declares a w tbl X w' :
  anchors (w_m w) = Some tbl → declares a X →
  invoke_marker mark_table a w = Done tt w' →
  ∃ p, position_of (w_m w) a = Some p ∧
       w' = match tbl !! X with
            | Some old => log (AnchorAlreadyExists X old p) (mark_call X p w)
            | None => put_anchors (<[X := p]> tbl) (mark_call X p w)
            end.
Proof.
  intros Etbl [Em (arg & rest & Ea & Hn)] Hd.
  destruct (mark_marker_cases a w tbl Etbl)
    as [[Hm _]|[_ [(msg & _ & Er)|[Er|(arg1 & arg2 & n & p & Ea' & Hn' & Hp & Er)]]]];
    [done | congruence | congruence |].
  rewrite Ea in Ea'. injection Ea' as -> ->.
  assert (n = X) as -> by congruence.
  exists p. split; [unfold position_of; by rewrite Ea|].
  rewrite Er in Hd. by destruct (tbl !! X); injection Hd as <-.
Qed.

Lemma invoke_loop_app_Done (ms : gmap string (@method U)) l1 l2 w w' :
  invoke_loop ms (l1 ++ l2) w = Done tt w' →
  ∃ w1, invoke_loop ms l1 w = Done tt w1 ∧ invoke_loop ms l2 w1 = Done tt w'.
Proof.
  rewrite invoke_loop_app.
  destruct (invoke_loop ms l1 w) as [[] w1| |]; [|done|done]. by exists w1.
Qed.

(** C5.  The markers of the engine hold two markers [a1] and [a2] that
    declare the anchor [X], and no other marker declares [X]; the first
    call of [Anchors] gets as far as the end of the turn of [a2].  Then
    the two markers have Positions [p1] and [p2] (equal or not); the pass
    goes on with the markers after [a2]; and however it ends, [X] is
    bound to [p1], the Position declared first, and exactly one report
    says that [X] exists already: at [p1], found at [p2]. *)
Theorem duplicate_anchor_first_wins w pre a1 mid a2 post X w2 :
  anchors (w_m w) = None →
  markers (w_m w) = pre ++ a1 :: mid ++ a2 :: post →
  declares a1 X → declares a2 X →
  (∀ a, a ∈ pre ++ mid ++ post → ¬ declares a X) →
  invoke_loop mark_table (pre ++ a1 :: mid ++ [a2]) (put_anchors ∅ w)
    = Done tt w2 →
  ∃ p1 p2,
    position_of (w_m w2) a1 = Some p1 ∧
    position_of (w_m w2) a2 = Some p2 ∧
    Anchors w =
      (invoke_loop mark_table post;; m ← get_m; mret (anchors m)) w2 ∧
    lookup_anchor (w_m (final (Anchors w))) X = Some p1 ∧
    ∃ errs,
      output (w_t (final (Anchors w))) = output (w_t w) ++ errs ∧
      List.filter (is_dup X) errs = [AnchorAlreadyExists X p1 p2].
Proof.
  intros Enil Hms Hd1 Hd2 Hother Hrun.
  assert (Forall (λ a, ¬ declares a X) pre ∧
          Forall (λ a, ¬ declares a X) mid ∧
          Forall (λ a, ¬ declares a X) post) as (Hpre & Hmid & Hpost).
  { rewrite !Forall_forall. split_and!; intros a Ha; apply Hother;
      rewrite !elem_of_app; auto. }
  (* the turns up to the second declaration *)
  apply invoke_loop_app_Done in Hrun as (wa & Hrun_pre & Hrun).
  rewrite invoke_loop_cons in Hrun.
  destruct (invoke_marker mark_table a1 wa) as [[] wb| |] eqn:Ha1;
    [|done|done].
  apply invoke_loop_app_Done in Hrun as (wc & Hrun_mid & Hrun).
  rewrite invoke_loop_cons in Hrun.
  destruct (invoke_marker mark_table a2 wc) as [[] wd| |] eqn:Ha2;
    [|done|done].
  simpl in Hrun. injection Hrun as ->.
  (* before the first declaration *)
  destruct (mark_loop_other pre (put_anchors ∅ w) ∅ X eq_refl Hpre)
    as (tbla & errsa & Ea & _ & HXa & Houta & Hfa).
  rewrite Hrun_pre in Ea, Houta. simpl in Ea, Houta.
  rewrite lookup_empty in HXa.
  (* the first declaration *)
  destruct (mark_marker_declares a1 wa tbla X wb Ea Hd1 Ha1) as (p1 & Hp1 & Ewb).
  rewrite HXa in Ewb.
  assert (anchors (w_m wb) = Some (<[X := p1]> tbla)) as Eb by by rewrite Ewb.
  assert (output (w_t wb) = output (w_t wa)) as Houtb by by rewrite Ewb.
  (* between the two *)
  destruct (mark_loop_other mid wb _ X Eb Hmid)
    as (tblc & errsc & Ec & Hsubc & HXc & Houtc & Hfc).
  rewrite Hrun_mid in Ec, Houtc. simpl in Ec, Houtc.
  rewrite lookup_insert_eq in HXc.
  (* the second declaration *)
  destruct (mark_marker_declares a2 wc tblc X w2 Ec Hd2 Ha2) as (p2 & Hp2 & Ew2).
  rewrite HXc in Ew2.
  assert (anchors (w_m w2) = Some tblc) as E2 by by rewrite Ew2.
  assert (w_m w2 = w_m wc) as Em2 by by rewrite Ew2.
  assert (output (w_t w2) = output (w_t wc) ++ [AnchorAlreadyExists X p1 p2])
    as Hout2 by by rewrite Ew2.
  (* the markers after it *)
  destruct (mark_loop_other post w2 tblc X E2 Hpost)
    as (tblf & errsf & Ef & _ & HXf & Houtf & Hff).
  assert (Anchors w =
          (invoke_loop mark_table post;; m ← get_m; mret (anchors m)) w2)
    as HA.
  { rewrite (Anchors_first w Enil). unfold first_Anchors. munfold. simpl.
    rewrite dispatch_mark. simpl. rewrite Hms.
    replace (pre ++ a1 :: mid ++ a2 :: post)
      with ((pre ++ a1 :: mid ++ [a2]) ++ post)
      by (by rewrite <- !app_assoc, <- !app_comm_cons, <- app_assoc).
    rewrite invoke_loop_app.
    replace (invoke_loop mark_table (pre ++ a1 :: mid ++ [a2]) (put_anchors ∅ w))
      with (Done (U:=U) tt w2); [done|].
    rewrite invoke_loop_app, Hrun_pre, invoke_loop_cons, Ha1.
    by rewrite invoke_loop_app, Hrun_mid, invoke_loop_cons, Ha2. }
  assert (final (Anchors w) = final (invoke_loop mark_table post w2)) as Hfin.
  { rewrite HA. munfold. by destruct (invoke_loop mark_table post w2). }
  exists p1, p2. split_and!.
  - rewrite Em2. apply (position_of_mono (w_m wa) _ _ _ tbla tblc); try done.
    etrans; [|exact Hsubc]. by apply insert_subseteq.
  - by rewrite Em2.
  - done.
  - rewrite Hfin. unfold lookup_anchor. rewrite Ef. congruence.
  - exists (errsa ++ errsc ++ [AnchorAlreadyExists X p1 p2] ++ errsf). split.
    + rewrite Hfin, Houtf, Hout2, Houtc, Houtb, Houta. simpl.
      by rewrite <- !app_assoc.
    + rewrite !List.filter_app, Hfa, Hfc, Hff. simpl.
      by rewrite bool_decide_eq_true_2.
Qed.

End Duplicates.

(** ** The anchor pass as a function of the table *)

Section AnchorPass.

Context `{GoLib} {U : Type}.

Implicit Types (w : World U) (a : marker) (l : list marker)
  (tbl : gmap string Position).

Lemma same_marker_refl a : same_marker a a.
Proof. by repeat split. Qed.

Lemma resolve_anchors (m m' : Markers) a arg :
  anchors m = anchors m' → resolve m a arg = resolve m' a arg.
Proof.
  intros E. destruct arg; simpl; try done. unfold lookup_anchor. by rewrite E.
Qed.

Lemma convert_string_name a arg rest w n :
  name_of arg = Some n →
  convert_string a (arg :: rest) w = Done (VString n, rest) w.
Proof.
  destruct arg as [x|k v|fn xs|node]; simpl; try done.
  - by intros [= ->].
  - destruct k; try done. simpl. by intros ->.
Qed.

Lemma convert_position_resolve a arg rest w p :
  resolve (w_m w) a arg = Some p →
  convert_position a (arg :: rest) w = Done (VPosition p, rest) w.
Proof.
  intros Hr.
  destruct (convert_position_cases a (arg :: rest) w)
    as [(arg' & rest' & p' & Ea & Hr' & Ec)|[(msg & _ & Ec)|Ec]].
  - injection Ea as <- <-. congruence.
  - exfalso. revert Ec. destruct arg as [x|k v|fn xs|node]; simpl in *;
      munfold; simpl; try done.
    + by rewrite Hr.
    + destruct (Unquote v) as [s|]; [|done]. simpl in Hr.
      unfold find_pattern in Hr. destruct v as [|c v]; [done|].
      munfold. simpl. destruct (decide _).
      * destruct (regexp_Compile s) as [re|]; [|done]. simpl in *.
        by destruct (re _) as [[]|].
      * by destruct (Index _ _).
  - exfalso. revert Ec. destruct arg as [x|k v|fn xs|node]; simpl in *;
      munfold; simpl; try done.
    + by destruct (lookup_anchor _ _).
    + destruct (Unquote v) as [s|]; [|done]. simpl in Hr.
      unfold find_pattern in Hr. destruct v as [|c v]; [done|].
      munfold. simpl. destruct (decide _).
      * destruct (regexp_Compile s) as [re|]; [|done]. simpl in *.
        by destruct (re _) as [[]|].
      * by destruct (Index _ _).
Qed.

Lemma invoke_mark_converted a w n rest p :
  m_method a = "mark" →
  convert_string a (m_args a) w = Done (VString n, rest) w →
  convert_position a rest w = Done (VPosition p, []) w →
  invoke_marker mark_table a w
  = h_call mark_handler [VTesting; VMarkers; VString n; VPosition p]
      (mark_call n p w).
Proof.
  intros Hm Es Ep. unfold invoke_marker, mark_table.
  rewrite Hm, lookup_singleton_eq. simpl. munfold. simpl.
  by rewrite Es, Ep.
Qed.

Lemma mark_effect_spec a w tbl :
  anchors (w_m w) = Some tbl →
  match mark_effect tbl a with
  | Some tbl' =>
      ∃ w', invoke_marker mark_table a w = Done tt w' ∧
            anchors (w_m w') = Some tbl'
  | None =>
      (∀ w', invoke_marker mark_table a w ≠ Done tt w') ∧
      anchors (w_m (final (invoke_marker mark_table a w))) = Some tbl
  end.
Proof.
  intros Etbl.
  destruct (mark_effect tbl a) as [tbl'|] eqn:Ee.
  - unfold mark_effect in Ee.
    destruct (decide (m_method a = "mark")) as [Hm|Hm].
    2:{ injection Ee as <-. exists w. split; [|done].
        unfold invoke_marker, mark_table. by rewrite lookup_singleton_ne. }
    destruct (m_args a) as [|arg1 [|arg2 [|]]] eqn:Ea; try done.
    destruct (name_of arg1) as [n|] eqn:Hn; [|done]. simpl in Ee.
    destruct (resolve _ a arg2) as [p|] eqn:Hp; [|done]. simpl in Ee.
    injection Ee as <-.
    rewrite (resolve_anchors _ (w_m w)) in Hp by done.
    rewrite (invoke_mark_converted a w n [arg2] p Hm).
    + simpl. munfold. unfold lookup_anchor, mark_call. simpl. rewrite Etbl.
      destruct (tbl !! n); by eexists.
    + rewrite Ea. by apply convert_string_name.
    + by apply convert_position_resolve.
  - destruct (mark_marker_cases a w tbl Etbl)
      as [[Hm Er]|[Hm [(msg & _ & Er)|[Er|(arg1 & arg2 & n & p & Ea & Hn & Hp & Er)]]]].
    + unfold mark_effect in Ee. by rewrite decide_False in Ee.
    + rewrite Er. by split.
    + rewrite Er. by split.
    + unfold mark_effect in Ee. rewrite decide_True, Ea, Hn in Ee by done.
      simpl in Ee. rewrite (resolve_anchors _ (w_m w)), Hp in Ee by done.
      done.
Qed.

Lemma mark_effects_spec l w tbl :
  anchors (w_m w) = Some tbl →
  anchors (w_m (final (invoke_loop mark_table l w)))
    = Some (mark_effects tbl l).1.
Proof.
  revert w tbl. induction l as [|a l IH]; intros w tbl Etbl; [done|].
  rewrite invoke_loop_cons. simpl.
  pose proof (mark_effect_spec a w tbl Etbl) as Hs.
  destruct (mark_effect tbl a) as [tbl'|].
  - destruct Hs as (w' & -> & E'). by apply IH.
  - destruct Hs as [Hnd Hf].
    destruct (invoke_marker mark_table a w) as [[] w'|w'|w']; [|done|done].
    by destruct (Hnd w').
Qed.

(** The table after a call of [Anchors], however it ends. *)
Lemma Anchors_final_table w :
  anchors (w_m (final (Anchors w)))
  = Some (match anchors (w_m w) with
          | Some tbl => tbl
          | None => (mark_effects ∅ (markers (w_m w))).1
          end).
Proof.
  destruct (anchors (w_m w)) as [tbl|] eqn:E.
  - unfold Anchors. by rewrite (Anchors_with_cached _ _ tbl E).
  - rewrite (Anchors_first w E). unfold first_Anchors. munfold. simpl.
    rewrite dispatch_mark. simpl.
    rewrite <- (mark_effects_spec (markers (w_m w)) (put_anchors ∅ w) ∅ eq_refl).
    by destruct (invoke_loop _ _ _).
Qed.

Lemma resolve_same (m : Markers) a1 a2 arg :
  same_line (m_line a1) (m_line a2) → resolve m a1 arg = resolve m a2 arg.
Proof.
  intros (Hn & Ho & Hnum & Hv). destruct arg as [x|k v|fn xs|node]; try done.
  simpl. destruct (Unquote v) as [s|]; [|done]. simpl.
  unfold find_pattern, match_position. rewrite Hn, Ho, Hnum, Hv. done.
Qed.

Lemma mark_effect_same tbl a1 a2 :
  same_marker a1 a2 → mark_effect tbl a1 = mark_effect tbl a2.
Proof.
  intros (Hl & Hm & Ha). unfold mark_effect. rewrite Hm, Ha.
  destruct (decide _); [|done].
  destruct (m_args a2) as [|arg1 [|arg2 [|]]]; try done.
  by rewrite (resolve_same _ a1 a2).
Qed.

Lemma mark_effects_same tbl l1 l2 :
  Forall2 same_marker l1 l2 → mark_effects tbl l1 = mark_effects tbl l2.
Proof.
  intros Hl. revert tbl. induction Hl as [|a1 a2 l1 l2 Ha Hl IH]; intros tbl;
    [done|].
  simpl. rewrite (mark_effect_same tbl a1 a2 Ha).
  destruct (mark_effect tbl a2); [apply IH | done].
Qed.

Lemma mark_effects_app tbl l1 l2 :
  mark_effects tbl (l1 ++ l2) =
    if (mark_effects tbl l1).2
    then mark_effects (mark_effects tbl l1).1 l2
    else mark_effects tbl l1.
Proof.
  revert tbl. induction l1 as [|a l1 IH]; intros tbl; simpl; [done|].
  destruct (mark_effect tbl a); [apply IH | done].
Qed.

Lemma mark_effect_mono tbl a tbl' :
  mark_effect tbl a = Some tbl' → tbl ⊆ tbl'.
Proof.
  unfold mark_effect. destruct (decide _); [|by intros [= <-]].
  destruct (m_args a) as [|arg1 [|arg2 [|]]]; try done.
  destruct (name_of arg1) as [n|]; [|done]. simpl.
  destruct (resolve _ a arg2) as [p|]; [|done]. simpl.
  destruct (tbl !! n) eqn:En; intros [= <-]; [done|].
  by apply insert_subseteq.
Qed.

Lemma mark_effects_mono tbl l : tbl ⊆ (mark_effects tbl l).1.
Proof.
  revert tbl. induction l as [|a l IH]; intros tbl; simpl; [done|].
  destruct (mark_effect tbl a) as [tbl'|] eqn:E; [|done].
  etrans; [by apply (mark_effect_mono tbl a)|apply IH].
Qed.

(** After the turn of a marker that declares [X], [X] is bound. *)
Lemma mark_effect_declares tbl a tbl' X :
  declares a X → mark_effect tbl a = Some tbl' → is_Some (tbl' !! X).
Proof.
  intros [Hm (arg & rest & Ea & Hn)]. unfold mark_effect.
  rewrite decide_True, Ea by done.
  destruct rest as [|arg2 [|]]; try done. rewrite Hn. simpl.
  destruct (resolve _ a arg2) as [p|]; [|done]. simpl.
  destruct (tbl !! X) eqn:EX; intros [= <-]; [by rewrite EX|].
  rewrite lookup_insert_eq. by eexists.
Qed.

(** Two marker sequences that agree, up to the content of the file, as
    far as a marker declaring [X] give [X] the same binding. *)
Lemma mark_effects_agree tbl P1 P2 A1 A2 X :
  Forall2 same_marker P1 P2 →
  (A1 = [] ∧ A2 = []) ∨ (∃ P1' a1, P1 = P1' ++ [a1] ∧ declares a1 X) →
  (mark_effects tbl (P1 ++ A1)).1 !! X = (mark_effects tbl (P2 ++ A2)).1 !! X.
Proof.
  intros HP HA. rewrite !mark_effects_app.
  rewrite <- (mark_effects_same tbl P1 P2 HP).
  destruct (mark_effects tbl P1) as [tblP ok] eqn:EP. simpl.
  destruct ok; [|done].
  destruct HA as [[-> ->]|(P1' & a1 & -> & Hd)]; [done|].
  assert (is_Some (tblP !! X)) as [p Hp].
  { rewrite mark_effects_app in EP.
    destruct (mark_effects tbl P1') as [tbl1 ok1]. simpl in EP.
    destruct ok1; [|done]. simpl in EP.
    destruct (mark_effect tbl1 a1) as [tbl2|] eqn:E1; [|done].
    injection EP as <-. by apply (mark_effect_declares tbl1 a1). }
  rewrite (lookup_weaken _ _ _ _ Hp (mark_effects_mono tblP A1)).
  by rewrite (lookup_weaken _ _ _ _ Hp (mark_effects_mono tblP A2)).
Qed.

End AnchorPass.

(** ** The bare identifier as sugar for mark *)

Section Sugar.

Context `{GoLib} {U : Type}.

Implicit Types (w : World U) (a : marker) (l : line).

Lemma Split_gs (s sep : bytes) : Split s sep = gs sep 0 s.
Proof. reflexivity. Qed.

Lemma SplitAfter_gs (s sep : bytes) : SplitAfter s sep = gs sep (length sep) s.
Proof. reflexivity. Qed.

Lemma genSplit_cons fuel (s sep : bytes) k :
  ∃ t ts, genSplit fuel s sep k = t :: ts.
Proof. destruct fuel; simpl; destruct (Index s sep); eauto. Qed.

(** A marker comment that follows a text without one is the first. *)
Lemma Index_app_markerComment (u v : bytes) :
  Index u markerComment = None →
  Index (u ++ markerComment ++ v) markerComment = Some (length u).
Proof.
  induction u as [|c u IH]; [done|].
  intros [Hn Hu]%Index_cons_None.
  cbn [app Index]. rewrite decide_False.
  - by rewrite (IH Hu).
  - intros [k Hk]. apply Hn.
    destruct u as [|d [|e u]]; simpl in Hk; try by injection Hk.
    injection Hk as -> -> -> _. by exists u.
Qed.

(** The parts of a line whose last marker comment so far is followed by
    [body] and then by [ltail], when [body] holds no slash. *)
Lemma Split_marker (rest body ltail : bytes) :
  Index rest markerComment = None →
  Forall (λ c, c ≠ "/"%char) body →
  Split (rest ++ markerComment ++ body ++ ltail) markerComment
  = rest :: match Split ltail markerComment with
            | t :: ts => (body ++ t) :: ts
            | [] => []
            end.
Proof.
  intros Hrest Hbody. rewrite !Split_gs.
  rewrite gs_unfold, (Index_app_markerComment _ _ Hrest) by done.
  rewrite Nat.add_0_r, take_app_length. f_equal.
  rewrite drop_app_add. simpl drop.
  apply (gs_app_nohead "/"%char _ 0 body ltail Hbody).
Qed.

(** The segments of a file around a marker body without a newline:
    those before its line, its line, and those after, whatever the body. *)
Lemma segments_of_marker (cpre ctail : bytes) :
  ∃ segsB lpre ltail segsA,
    SplitAfter ctail newline = ltail :: segsA ∧
    ∀ body, Forall (λ c, c ≠ "010"%char) body →
      SplitAfter (cpre ++ markerComment ++ body ++ ctail) newline
      = segsB ++ (lpre ++ markerComment ++ body ++ ltail) :: segsA.
Proof.
  destruct (gs_app newline 1 ltac:(done) ltac:(done) cpre)
    as (segsB & lpre & _ & Hlpre & Happ).
  assert (∃ ltail segsA, gs newline 1 ctail = ltail :: segsA)
    as (ltail & segsA & Hc) by apply genSplit_cons.
  exists segsB, lpre, ltail, segsA. split; [done|].
  intros body Hbody. rewrite SplitAfter_gs. simpl length.
  rewrite Happ. f_equal.
  replace (lpre ++ markerComment ++ body ++ ctail)
    with ((lpre ++ markerComment ++ body) ++ ctail)
    by (by rewrite <- !app_assoc).
  unfold newline in *. rewrite (gs_app_nohead "010"%char [] 1).
  - rewrite Hc. by rewrite <- !app_assoc.
  - apply Forall_app. split; [by apply Index_None_nohead|].
    apply Forall_app. split; [|done]. by repeat constructor.
Qed.

(** The parts of the line of a marker body without a slash: the content
    of the line and the candidates before the body, the candidate of the
    body, and those after, whatever the body. *)
Lemma parts_of_marker_line (lpre ltail : bytes) :
  ∃ v0 partsB t0 ts,
    Split ltail markerComment = t0 :: ts ∧
    ∀ body, Forall (λ c, c ≠ "/"%char) body →
      Split (lpre ++ markerComment ++ body ++ ltail) markerComment
      = v0 :: partsB ++ (body ++ t0) :: ts.
Proof.
  destruct (gs_app markerComment 0 ltac:(done) ltac:(simpl; lia) lpre)
    as (pp & rest & _ & Hrest & Happ).
  destruct (genSplit_cons (length ltail) ltail markerComment 0)
    as (t0 & ts & Ht).
  assert (∃ v0 partsB, pp ++ [rest] = v0 :: partsB) as (v0 & partsB & Hv).
  { destruct pp; simpl; eauto. }
  exists v0, partsB, t0, ts. split; [done|].
  intros body Hbody. rewrite Split_gs, Happ, <- Split_gs.
  rewrite (Split_marker rest body ltail Hrest Hbody).
  unfold Split at 1. rewrite Ht.
  rewrite app_comm_cons, <- Hv, <- app_assoc. done.
Qed.

Lemma candidates_from_app f n offset (segs1 segs2 : list bytes) :
  candidates_from f n offset (segs1 ++ segs2)
  = candidates_from f n offset segs1
    ++ candidates_from f (n + length segs1)
         (offset + sum_list_with length segs1) segs2.
Proof.
  revert n offset. induction segs1 as [|seg segs1 IH]; intros n offset; simpl.
  - by rewrite !Nat.add_0_r.
  - rewrite IH, <- app_assoc. do 3 f_equal; lia.
Qed.

Lemma same_cand_fmap l1 l2 (parts : list bytes) :
  same_line l1 l2 →
  Forall2 same_cand ((λ part, (l1, part)) <$> parts)
                    ((λ part, (l2, part)) <$> parts).
Proof. intros Hl. induction parts; simpl; constructor; by try split. Qed.

Lemma candidates_from_same f1 f2 n offset (segs : list bytes) :
  f_name f1 = f_name f2 →
  Forall2 same_cand (candidates_from f1 n offset segs)
                    (candidates_from f2 n offset segs).
Proof.
  intros Hf. revert n offset.
  induction segs as [|seg segs IH]; intros n offset; simpl; [constructor|].
  apply Forall2_app; [|apply IH]. by apply same_cand_fmap.
Qed.

Lemma parse_marker_same l1 l2 (part : bytes) :
  same_line l1 l2 →
  match parse_marker l1 part, parse_marker l2 part with
  | inr a1, inr a2 => same_marker a1 a2
  | inl _, inl _ => True
  | _, _ => False
  end.
Proof.
  intros Hl. unfold parse_marker.
  destruct (ParseExpr _) as [[x|k v|fn xs|node]|]; try done.
  destruct fn; done.
Qed.

Lemma parse_all_same C1 C2 (ms1 ms2 : list marker) :
  Forall2 same_cand C1 C2 → Forall2 same_marker ms1 ms2 →
  Forall2 same_marker (parse_all C1 ms1).1 (parse_all C2 ms2).1 ∧
  ((parse_all C1 ms1).2 = None ↔ (parse_all C2 ms2).2 = None).
Proof.
  intros HC. revert ms1 ms2.
  induction HC as [|[l1 p1] [l2 p2] C1 C2 [Hl Hp] HC IH]; intros ms1 ms2 Hms;
    [done|].
  simpl in Hl, Hp. subst p2. simpl.
  pose proof (parse_marker_same l1 l2 p1 Hl) as Hsame.
  destruct (parse_marker l1 p1) as [e1|a1], (parse_marker l2 p1) as [e2|a2];
    try done.
  apply IH. apply Forall2_app; [done|]. by constructor.
Qed.

Lemma parse_all_extends C (ms : list marker) :
  ∃ A, (parse_all C ms).1 = ms ++ A.
Proof.
  revert ms. induction C as [|[l part] C IH]; intros ms; simpl.
  - exists []. by rewrite app_nil_r.
  - destruct (parse_marker l part) as [e|a].
    + exists []. by rewrite app_nil_r.
    + destruct (IH (ms ++ [a])) as [A ->]. exists (a :: A).
      by rewrite <- app_assoc.
Qed.

Lemma Extract_markers filename (content : bytes) (m : Markers) :
  markers (Extract filename (Some content) m).1
  = (parse_all (candidates {| f_name := filename; f_content := content |})
       (markers m)).1.
Proof.
  unfold Extract, extract_file, candidates.
  pose proof (extract_lines_parse_all
                {| f_name := filename; f_content := content |} 0
                (SplitAfter content newline)
                {| s_offset := 0; s_lines := []; s_markers := markers m |})
    as Hl.
  simpl in *. rewrite <- Hl.
  by destruct (extract_lines _ _ _ _).
Qed.

Lemma Extract_anchors filename (content : option bytes) (m : Markers) :
  anchors (Extract filename content m).1 = anchors m.
Proof.
  unfold Extract. destruct content as [c|]; [|destruct (ReadFile filename)];
    try done; by destruct (extract_file _ _).
Qed.

(** The candidates of two files that differ in one marker body. *)
Lemma candidates_of_marker filename (cpre ctail body1 body2 : bytes) :
  Forall (λ c, c ≠ "/"%char ∧ c ≠ "010"%char) body1 →
  Forall (λ c, c ≠ "/"%char ∧ c ≠ "010"%char) body2 →
  ∃ CB1 CB2 l1 l2 CA1 CA2,
    candidates {| f_name := filename;
                  f_content := cpre ++ markerComment ++ body1 ++ ctail |}
      = CB1 ++ (l1, body1 ++ rest_of_candidate ctail) :: CA1 ∧
    candidates {| f_name := filename;
                  f_content := cpre ++ markerComment ++ body2 ++ ctail |}
      = CB2 ++ (l2, body2 ++ rest_of_candidate ctail) :: CA2 ∧
    Forall2 same_cand CB1 CB2 ∧
    same_line l1 l2.
Proof.
  intros Hb1 Hb2.
  assert (∀ body : bytes, Forall (λ c, c ≠ "/"%char ∧ c ≠ "010"%char) body →
            Forall (λ c, c ≠ "/"%char) body ∧ Forall (λ c, c ≠ "010"%char) body)
    as Hsplit.
  { intros body Hb. split; eapply Forall_impl; try exact Hb; by intros ? []. }
  destruct (Hsplit _ Hb1) as [Hs1 Hn1], (Hsplit _ Hb2) as [Hs2 Hn2].
  destruct (segments_of_marker cpre ctail)
    as (segsB & lpre & ltail & segsA & Hc & Hsegs).
  destruct (parts_of_marker_line lpre ltail)
    as (v0 & partsB & t0 & ts & Ht & Hparts).
  assert (rest_of_candidate ctail = t0) as ->.
  { unfold rest_of_candidate. rewrite Hc. simpl. by rewrite Ht. }
  set (f1 := {| f_name := filename;
                f_content := cpre ++ markerComment ++ body1 ++ ctail |}).
  set (f2 := {| f_name := filename;
                f_content := cpre ++ markerComment ++ body2 ++ ctail |}).
  set (n := 0 + length segsB).
  set (offset := 0 + sum_list_with length segsB).
  set (l1 := new_line f1 n offset (lpre ++ markerComment ++ body1 ++ ltail)).
  set (l2 := new_line f2 n offset (lpre ++ markerComment ++ body2 ++ ltail)).
  exists (candidates_from f1 0 0 segsB ++ ((λ part, (l1, part)) <$> partsB)),
         (candidates_from f2 0 0 segsB ++ ((λ part, (l2, part)) <$> partsB)),
         l1, l2.
  eexists _, _.
  assert (same_line l1 l2) as Hl.
  { unfold same_line, l1, l2, new_line. cbn [l_file l_offset l_number l_value].
    split_and!; [done | done | done |].
    by rewrite (Hparts _ Hs1), (Hparts _ Hs2). }
  split_and!.
  - unfold candidates.
    change (f_content f1) with (cpre ++ markerComment ++ body1 ++ ctail).
    rewrite (Hsegs _ Hn1).
    rewrite candidates_from_app. cbn [candidates_from].
    fold n offset l1. rewrite (Hparts _ Hs1). cbn [tail].
    rewrite fmap_app, fmap_cons, <- !app_assoc. reflexivity.
  - unfold candidates.
    change (f_content f2) with (cpre ++ markerComment ++ body2 ++ ctail).
    rewrite (Hsegs _ Hn2).
    rewrite candidates_from_app. cbn [candidates_from].
    fold n offset l2. rewrite (Hparts _ Hs2). cbn [tail].
    rewrite fmap_app, fmap_cons, <- !app_assoc. reflexivity.
  - apply Forall2_app; [by apply candidates_from_same|].
    by apply same_cand_fmap.
  - done.
Qed.

Lemma explicit_form_chars (X : string) :
  Forall (λ c, c ≠ "/"%char ∧ c ≠ "010"%char) (to_bytes X) →
  Forall (λ c, c ≠ "/"%char ∧ c ≠ "010"%char) (explicit_form X).
Proof.
  intros HX. unfold explicit_form, quoted.
  assert (∀ s t, to_bytes (s ++ t) = to_bytes s ++ to_bytes t) as Happ.
  { induction s as [|c s IH]; intros t; simpl; [done | by rewrite IH]. }
  cbn [to_bytes]. rewrite Happ. cbn [to_bytes].
  assert (∀ c : ascii, c ≠ "/"%char → c ≠ "010"%char →
            ∀ b : bytes, Forall (λ c, c ≠ "/"%char ∧ c ≠ "010"%char) b →
                 Forall (λ c, c ≠ "/"%char ∧ c ≠ "010"%char) (c :: b))
    as Hcons by (by constructor).
  rewrite !Forall_app. split_and!; try done;
    repeat (apply Hcons; [done | done |]); try done.
  rewrite Forall_app. split; [done|]. by apply Hcons.
Qed.

(** C4.  [X] is an identifier: it holds no slash and no newline, the
    parser reads the candidate that starts with [X] as the identifier [X]
    and the one that starts with the call of mark on [X] and the literal
    of [X] as that call, and [strconv.Quote] gives the literal.  Then, on
    every line, the two candidates yield the same marker.  And for two
    files that differ only in that one marker is written [//@X] and the
    other [//@mark(X, "X")], extracted by engines in the same state: when
    the anchors are computed, however that ends, [X] is bound in both
    tables or in neither, and to the same Position. *)
Theorem bare_identifier_is_mark_sugar filename (cpre ctail : bytes) X (m : Markers) :
  Forall (λ c, c ≠ "/"%char ∧ c ≠ "010"%char) (to_bytes X) →
  ParseExpr (TrimSpace (of_bytes (bare_form X ++ rest_of_candidate ctail)))
    = Some (Ident X) →
  ParseExpr (TrimSpace (of_bytes (explicit_form X ++ rest_of_candidate ctail)))
    = Some (CallExpr (Ident "mark") [Ident X; BasicLit STRING (quoted X)]) →
  Quote X = quoted X →
  (∀ l, parse_marker l (bare_form X ++ rest_of_candidate ctail)
        = parse_marker l (explicit_form X ++ rest_of_candidate ctail) ∧
        parse_marker l (bare_form X ++ rest_of_candidate ctail)
        = inr {| m_line := l; m_method := "mark";
                 m_args := [Ident X; BasicLit STRING (quoted X)] |}) ∧
  ∀ (w1 w2 : World U),
    w_m w1 = (Extract filename
                (Some (cpre ++ markerComment ++ bare_form X ++ ctail)) m).1 →
    w_m w2 = (Extract filename
                (Some (cpre ++ markerComment ++ explicit_form X ++ ctail)) m).1 →
    lookup_anchor (w_m (final (Anchors w1))) X
    = lookup_anchor (w_m (final (Anchors w2))) X.
Proof.
  intros HX Hbare Hexplicit HQ.
  assert (∀ l, parse_marker l (bare_form X ++ rest_of_candidate ctail)
               = inr {| m_line := l; m_method := "mark";
                        m_args := [Ident X; BasicLit STRING (quoted X)] |})
    as Hp1.
  { intros l. unfold parse_marker. by rewrite Hbare, HQ. }
  assert (∀ l, parse_marker l (explicit_form X ++ rest_of_candidate ctail)
               = inr {| m_line := l; m_method := "mark";
                        m_args := [Ident X; BasicLit STRING (quoted X)] |})
    as Hp2.
  { intros l. unfold parse_marker. by rewrite Hexplicit. }
  split; [intros l; by rewrite Hp1, Hp2|].
  intros w1 w2 Hw1 Hw2.
  unfold lookup_anchor. rewrite !Anchors_final_table.
  rewrite Hw1, Hw2, !Extract_anchors.
  destruct (anchors m) as [tbl|]; [done|].
  rewrite !Extract_markers.
  destruct (candidates_of_marker filename cpre ctail
              (bare_form X) (explicit_form X) HX (explicit_form_chars X HX))
    as (CB1 & CB2 & l1 & l2 & CA1 & CA2 & -> & -> & HCB & Hl).
  rewrite !parse_all_app.
  destruct (parse_all_same CB1 CB2 (markers m) (markers m) HCB)
    as [Hms Herr].
  { apply Forall_Forall2_diag, Forall_forall. intros a _.
    apply same_marker_refl. }
  destruct (parse_all CB1 (markers m)) as [ms1 e1],
           (parse_all CB2 (markers m)) as [ms2 e2].
  simpl in Hms, Herr.
  destruct e1 as [e1|], e2 as [e2|];
    [|by destruct Herr as [_ Herr]; specialize (Herr eq_refl)
     |by destruct Herr as [Herr _]; specialize (Herr eq_refl)|].
  - rewrite <- (app_nil_r ms1), <- (app_nil_r ms2).
    apply mark_effects_agree; [done | by left].
  - cbn [parse_all]. rewrite Hp1, Hp2.
    destruct (parse_all_extends CA1 (ms1 ++ [ {| m_line := l1; m_method := "mark";
                 m_args := [Ident X; BasicLit STRING (quoted X)] |} ]))
      as [A1 ->].
    destruct (parse_all_extends CA2 (ms2 ++ [ {| m_line := l2; m_method := "mark";
                 m_args := [Ident X; BasicLit STRING (quoted X)] |} ]))
      as [A2 ->].
    apply mark_effects_agree.
    + apply Forall2_app; [done|]. constructor; [|done].
      split; [exact Hl | by split].
    + right. eexists _, _. split; [reflexivity|].
      split; [reflexivity|]. by eexists _, _.
Qed.

End Sugar.

(** * Further properties of the engine

    What the code shows beyond the statements of the specification:
    how [Extract] composes and orders its markers, where the Positions
    lie in the file, what the anchor table holds, when a handler is
    called, and what the test of the engine expects. *)

(** ** Extract: composition, order and files without markers *)

Section ExtractMore.
Context `{GoLib}.

Lemma parse_all_nil cs (ms : list marker) :
  parse_all cs ms = (ms ++ (parse_all cs []).1, (parse_all cs []).2).
Proof.
  revert ms. induction cs as [|[l part] cs IH]; intros ms; simpl.
  - by rewrite app_nil_r.
  - destruct (parse_marker l part) as [e|a]; simpl.
    + by rewrite app_nil_r.
    + rewrite (IH (ms ++ [a])), (IH [a]). simpl. by rewrite <- app_assoc.
Qed.

Lemma Extract_parse_all filename content (m : Markers) :
  Extract filename (Some content) m =
    let r := parse_all (candidates {| f_name := filename; f_content := content |})
               (markers m) in
    ({| anchors := anchors m; markers := r.1 |}, r.2).
Proof.
  unfold Extract, extract_file, candidates. simpl.
  pose proof (extract_lines_parse_all
    {| f_name := filename; f_content := content |} 0
    (SplitAfter content newline)
    {| s_offset := 0; s_lines := []; s_markers := markers m |}) as E.
  simpl in E.
  destruct (extract_lines _ _ _ _) as [st err]. simpl in E.
  rewrite <- E. done.
Qed.

(** X1.  [Extract] adds to the engine and reads nothing of it: the
    result is the engine with the markers appended that the same call
    appends to an engine that holds none, the anchor table as it was,
    and the error of that call.  When [content] is [nil] and the file
    cannot be read, the engine is returned as it was, with the read
    error. *)
Theorem Extract_appends filename content (m : Markers) :
  Extract filename content m =
    ({| anchors := anchors m;
        markers := markers m ++ markers (Extract filename content engine0).1 |},
     (Extract filename content engine0).2) ∧
  (content = None → ReadFile filename = None →
   Extract filename content m = (m, Some CouldNotReadFile)).
Proof.
  split.
  2:{ intros -> E. unfold Extract. by rewrite E. }
  assert (∀ c, Extract filename (Some c) m =
    ({| anchors := anchors m;
        markers := markers m ++ markers (Extract filename (Some c) engine0).1 |},
     (Extract filename (Some c) engine0).2)) as Hc.
  { intros c. rewrite !Extract_parse_all. simpl.
    by rewrite (parse_all_nil _ (markers m)). }
  destruct content as [c|]; [apply Hc|].
  destruct (ReadFile filename) as [c|] eqn:E.
  - specialize (Hc c). unfold Extract in *. by rewrite E.
  - unfold Extract. rewrite E. simpl. rewrite app_nil_r. by destruct m.
Qed.

Lemma parse_all_success cs (ms : list marker) :
  ((parse_all cs ms).2 = None ↔
   Forall (λ c, ∃ a, parse_marker c.1 c.2 = inr a) cs) ∧
  ∃ new k, (parse_all cs ms).1 = ms ++ new ∧
         Forall2 (λ c a, parse_marker c.1 c.2 = inr a) (take k cs) new ∧
         ((parse_all cs ms).2 = None → k = length cs) ∧
         (∀ e, (parse_all cs ms).2 = Some e →
               ∃ c, cs !! k = Some c ∧ parse_marker c.1 c.2 = inl e).
Proof.
  revert ms. induction cs as [|[l part] cs IH]; intros ms; simpl.
  - split; [done|]. exists [], 0. rewrite app_nil_r. repeat split; try done.
  - destruct (parse_marker l part) as [e|a] eqn:E; simpl.
    + split.
      * split; [done|]. intros Hf. apply Forall_cons in Hf as [[a Ha] _].
        simpl in Ha. congruence.
      * exists [], 0. rewrite app_nil_r. repeat split; try done.
        intros e' [= <-]. by exists (l, part).
    + destruct (IH (ms ++ [a])) as [Hiff (new & k & Hm & Hf & Hk & He)]. split.
      * rewrite Hiff. split.
        -- intros Hf'. constructor; [by exists a|done].
        -- intros Hf'. by apply Forall_cons in Hf' as [_ ?].
      * exists (a :: new), (S k). rewrite Hm, <- app_assoc. simpl.
        repeat split; try done.
        -- by constructor.
        -- intros Hn. by rewrite Hk.
Qed.

(** X2.  [Extract] on a given content returns no error exactly when
    every candidate of the file, the text after each marker comment, is
    accepted by the marker parser; the markers appended are then the
    markers of the candidates, one for each, in the order of the
    candidates.  A candidate is accepted exactly when its text parses to
    an identifier or to a call of an identifier. *)
Theorem Extract_success filename content (m : Markers) :
  ((Extract filename (Some content) m).2 = None ↔
   Forall (λ c, ∃ a, parse_marker c.1 c.2 = inr a)
     (candidates {| f_name := filename; f_content := content |})) ∧
  ((Extract filename (Some content) m).2 = None →
   ∃ new, markers (Extract filename (Some content) m).1 = markers m ++ new ∧
          Forall2 (λ c a, parse_marker c.1 c.2 = inr a)
            (candidates {| f_name := filename; f_content := content |}) new) ∧
  (∀ l part,
     (∃ a, parse_marker l part = inr a) ↔
     (∃ n, ParseExpr (TrimSpace (of_bytes part)) = Some (Ident n)) ∨
     (∃ n args, ParseExpr (TrimSpace (of_bytes part))
                = Some (CallExpr (Ident n) args))).
Proof.
  set (f := {| f_name := filename; f_content := content |}).
  rewrite Extract_parse_all. simpl. fold f.
  destruct (parse_all_success (candidates f) (markers m))
    as [Hiff (new & k & Hm & Hf & Hk & _)].
  split_and!; [done| |].
  - intros Hn. exists new. split; [done|].
    rewrite (Hk Hn), firstn_all in Hf. done.
  - intros l part. unfold parse_marker.
    destruct (ParseExpr _) as [[n|k' v|[n|k' v|fn' args'|node] args|node]|];
      split; try (intros [? ?]; done);
      try (intros [[? ?]|(? & ? & ?)]; done); eauto.
Qed.

Lemma parse_marker_error l part e :
  parse_marker l part = inl e → e ≠ CouldNotReadFile.
Proof.
  unfold parse_marker. intros E.
  destruct (ParseExpr _) as [[n|k v|[n|k v|fn' args'|node] args|node]|];
    by simplify_eq.
Qed.

(** X3.  An error that [Extract] returns for a given content is the
    error of the first candidate that the marker parser rejects; the
    markers of the candidates before it have been appended, and the
    error is never the read error. *)
Theorem Extract_error_first_rejected filename content (m : Markers) e :
  (Extract filename (Some content) m).2 = Some e →
  ∃ pre l part post parsed,
    candidates {| f_name := filename; f_content := content |}
      = pre ++ (l, part) :: post ∧
    Forall2 (λ c a, parse_marker c.1 c.2 = inr a) pre parsed ∧
    parse_marker l part = inl e ∧
    markers (Extract filename (Some content) m).1 = markers m ++ parsed ∧
    e ≠ CouldNotReadFile.
Proof.
  rewrite Extract_parse_all. simpl. intros He.
  destruct (parse_all_success
    (candidates {| f_name := filename; f_content := content |}) (markers m))
    as [_ (new & k & Hm & Hf & _ & Hk)].
  destruct (Hk e He) as ([l part] & Hc & Hp). simpl in Hp.
  exists (take k (candidates {| f_name := filename; f_content := content |})),
    l, part,
    (drop (S k) (candidates {| f_name := filename; f_content := content |})),
    new.
  split_and!; try done.
  - by rewrite take_drop_middle.
  - by eapply parse_marker_error.
Qed.

Lemma parse_marker_line l part a :
  parse_marker l part = inr a → m_line a = l.
Proof.
  unfold parse_marker. intros E.
  destruct (ParseExpr _) as [[n|k v|[n|k v|fn' args'|node] args|node]|];
    by simplify_eq.
Qed.

(** The lines of the candidates of consecutive segments. *)
Lemma candidates_from_lookup f n offset (segs : list bytes) i c :
  candidates_from f n offset segs !! i = Some c →
  ∃ k seg part,
    segs !! k = Some seg ∧
    c = (new_line f (n + k) (offset + sum_list_with length (take k segs)) seg, part) ∧
    part ∈ tail (Split seg markerComment).
Proof.
  revert n offset i. induction segs as [|seg segs IH]; intros n offset i; simpl.
  - done.
  - intros Hc. apply lookup_app_Some in Hc as [Hc|[Hlen Hc]].
    + apply list_lookup_fmap_Some in Hc as (part & -> & Hp).
      exists 0, seg, part. simpl. rewrite !Nat.add_0_r.
      repeat split; try done. by eapply list_elem_of_lookup_2.
    + apply IH in Hc as (k & seg' & part & Hk & -> & Hp).
      exists (S k), seg', part. simpl.
      replace (n + S k) with (S n + k) by lia.
      rewrite Nat.add_assoc. done.
Qed.

Lemma candidates_from_ordered f n offset (segs : list bytes) i j c1 c2 :
  i ≤ j →
  candidates_from f n offset segs !! i = Some c1 →
  candidates_from f n offset segs !! j = Some c2 →
  ∃ k1 k2 seg1 seg2,
    k1 ≤ k2 ∧ segs !! k1 = Some seg1 ∧ segs !! k2 = Some seg2 ∧
    c1.1 = new_line f (n + k1) (offset + sum_list_with length (take k1 segs)) seg1 ∧
    c2.1 = new_line f (n + k2) (offset + sum_list_with length (take k2 segs)) seg2.
Proof.
  revert n offset i j. induction segs as [|seg segs IH]; intros n offset i j Hij; simpl.
  - done.
  - intros H1 H2.
    apply lookup_app_Some in H1 as [H1|[Hlen1 H1]].
    + apply list_lookup_fmap_Some in H1 as (part & -> & Hp).
      apply lookup_app_Some in H2 as [H2|[Hlen2 H2]].
      * apply list_lookup_fmap_Some in H2 as (part2 & -> & Hp2).
        exists 0, 0, seg, seg. simpl. rewrite !Nat.add_0_r. done.
      * apply candidates_from_lookup in H2 as (k & seg' & part' & Hk & -> & _).
        exists 0, (S k), seg, seg'. simpl. rewrite !Nat.add_0_r.
        replace (n + S k) with (S n + k) by lia. rewrite Nat.add_assoc.
        repeat split; try done. lia.
    + apply lookup_app_Some in H2 as [H2|[Hlen2 H2]].
      * apply lookup_lt_Some in H2. rewrite length_fmap in *. exfalso. lia.
      * assert (i - length ((λ part : bytes, (new_line f n offset seg, part)) <$>
                   tail (Split seg markerComment))
                ≤ j - length ((λ part : bytes, (new_line f n offset seg, part)) <$>
                   tail (Split seg markerComment))) as Hij' by lia.
        destruct (IH (S n) (offset + length seg) _ _ Hij' H1 H2)
          as (k1 & k2 & seg1 & seg2 & Hk & Hs1 & Hs2 & -> & ->).
        exists (S k1), (S k2), seg1, seg2. simpl.
        replace (n + S k1) with (S n + k1) by lia.
        replace (n + S k2) with (S n + k2) by lia.
        rewrite !Nat.add_assoc. repeat split; try done. lia.
Qed.

Lemma sum_take_mono (segs : list bytes) k1 k2 :
  k1 ≤ k2 →
  sum_list_with length (take k1 segs) ≤ sum_list_with length (take k2 segs).
Proof.
  revert k1 k2. induction segs as [|s segs IH]; intros k1 k2 Hk.
  - by rewrite !take_nil.
  - destruct k1, k2; simpl; try lia. specialize (IH k1 k2). lia.
Qed.

(** The markers that [Extract] appends come from the candidates, one
    from each up to the end or the error. *)
Lemma Extract_new filename content (m : Markers) new :
  markers (Extract filename (Some content) m).1 = markers m ++ new →
  ∃ k, Forall2 (λ c a, parse_marker c.1 c.2 = inr a)
         (take k (candidates {| f_name := filename; f_content := content |})) new.
Proof.
  rewrite Extract_parse_all. simpl. intros Hm.
  destruct (parse_all_success
    (candidates {| f_name := filename; f_content := content |}) (markers m))
    as [_ (new' & k & Hm' & Hf & _)].
  rewrite Hm' in Hm. apply app_inv_head in Hm as <-. by exists k.
Qed.

Lemma Extract_new_line filename content (m : Markers) new i a :
  markers (Extract filename (Some content) m).1 = markers m ++ new →
  new !! i = Some a →
  ∃ part, candidates {| f_name := filename; f_content := content |} !! i
          = Some (m_line a, part).
Proof.
  intros Hm Ha. apply Extract_new in Hm as [k Hf].
  destruct (Forall2_lookup_r _ _ _ _ _ Hf Ha) as ([l part] & Hc & Hp).
  apply lookup_take_Some in Hc as [Hc _].
  apply parse_marker_line in Hp. simpl in Hp. subst l. by exists part.
Qed.

(** X4.  The markers appended by one call of [Extract] come in the
    order of the lines: of two of them the earlier has the smaller or
    equal line number and line offset, and two with the same line number
    hold the same line. *)
Theorem Extract_line_order filename content (m : Markers) new i j a b :
  markers (Extract filename (Some content) m).1 = markers m ++ new →
  new !! i = Some a → new !! j = Some b → i ≤ j →
  l_number (m_line a) ≤ l_number (m_line b) ∧
  l_offset (m_line a) ≤ l_offset (m_line b) ∧
  (l_number (m_line a) = l_number (m_line b) → m_line a = m_line b).
Proof.
  intros Hm Ha Hb Hij.
  destruct (Extract_new_line _ _ _ _ _ _ Hm Ha) as [pa Hca].
  destruct (Extract_new_line _ _ _ _ _ _ Hm Hb) as [pb Hcb].
  destruct (candidates_from_ordered _ _ _ _ _ _ _ _ Hij Hca Hcb)
    as (k1 & k2 & seg1 & seg2 & Hk & Hs1 & Hs2 & E1 & E2).
  simpl in E1, E2. rewrite E1, E2. simpl.
  pose proof (sum_take_mono (SplitAfter content newline) _ _ Hk).
  repeat split; try lia.
  intros Hn. assert (k1 = k2) as -> by lia. congruence.
Qed.

Lemma Index_infix_None (u s v sep : bytes) :
  Index (u ++ s ++ v) sep = None → Index s sep = None.
Proof.
  intros Hn. apply Index_None_intro. intros j Hp.
  destruct (decide (j ≤ length s)) as [Hj|Hj].
  - apply (Index_None _ _ (length u + j)) in Hn. apply Hn.
    rewrite drop_app_add, drop_app_le by done.
    by apply prefix_app_r.
  - rewrite drop_ge in Hp by lia. apply prefix_nil_inv in Hp as ->.
    apply (Index_None _ _ 0) in Hn. apply Hn, prefix_nil.
Qed.

Lemma concat_lookup_split (segs : list bytes) k seg :
  segs !! k = Some seg →
  concat segs = concat (take k segs) ++ seg ++ concat (drop (S k) segs).
Proof.
  intros Hk. rewrite <- (take_drop_middle _ _ _ Hk) at 1.
  by rewrite concat_app, concat_cons.
Qed.

Lemma candidates_from_nil f n offset (segs : list bytes) :
  Forall (λ seg, Index seg markerComment = None) segs →
  candidates_from f n offset segs = [].
Proof.
  revert n offset. induction segs as [|seg segs IH]; intros n offset Hf; [done|].
  apply Forall_cons in Hf as [Hs Hf]. simpl.
  unfold Split. rewrite genSplit_None by done. simpl. by apply IH.
Qed.

(** X5.  A file that holds no marker comment gives no marker and no
    error, whatever else it holds and whatever the parser accepts:
    [Extract] returns the engine as it was. *)
Theorem Extract_without_marker_comment filename content (m : Markers) :
  Index content markerComment = None →
  Extract filename (Some content) m = (m, None).
Proof.
  intros Hn. rewrite Extract_parse_all. simpl.
  unfold candidates. simpl. rewrite candidates_from_nil.
  - simpl. by destruct m.
  - apply Forall_forall. intros seg Hs.
    apply list_elem_of_lookup in Hs as [k Hk].
    pose proof (concat_lookup_split _ _ _ Hk) as Hc.
    rewrite SplitAfter_concat in Hc by done.
    rewrite Hc in Hn. by apply Index_infix_None in Hn.
Qed.

(** The line of a marker that [Extract] appended: the line of a segment
    of the file that holds a marker comment after the value of the
    line. *)
Lemma Extract_marker_line filename content (m : Markers) new a :
  markers (Extract filename (Some content) m).1 = markers m ++ new →
  a ∈ new →
  ∃ k seg mi,
    SplitAfter content newline !! k = Some seg ∧
    m_line a = new_line {| f_name := filename; f_content := content |} k
                 (sum_list_with length (take k (SplitAfter content newline))) seg ∧
    Index seg markerComment = Some mi ∧
    l_value (m_line a) = take mi seg.
Proof.
  intros Hm Ha. apply list_elem_of_lookup in Ha as [i Hi].
  destruct (Extract_new_line _ _ _ _ _ _ Hm Hi) as [part Hc].
  apply candidates_from_lookup in Hc as (k & seg & part' & Hk & E & Hp).
  simpl in *. injection E as E _.
  destruct (Index seg markerComment) as [mi|] eqn:EI.
  - exists k, seg, mi. repeat split; try done.
    rewrite E. unfold new_line. simpl. by rewrite Split_head, EI.
  - unfold Split in Hp. rewrite genSplit_None in Hp by done. simpl in Hp.
    by apply elem_of_nil in Hp.
Qed.

End ExtractMore.

(** ** Positions lie in the file *)

Section PositionsInFile.
Context `{GoLib} {U : Type}.
Implicit Types (w : World U) (a : marker).

Lemma convert_position_pattern a k v rest w p rest' w' :
  convert_position a (BasicLit k v :: rest) w = Done (VPosition p, rest') w' →
  ∃ s i, Unquote v = Some s ∧ find_pattern a v s = Some i ∧
         p = match_position a i ∧ rest' = rest ∧ w' = w.
Proof.
  unfold convert_position. munfold. unfold Fatalf, panic.
  destruct (Unquote v) as [s|]; [|done].
  destruct v as [|c v]; [done|].
  destruct (decide (c = "`"%char)) as [->|Hc].
  - destruct (regexp_Compile s) as [re|] eqn:Ec; [|done]. simpl.
    destruct (re _) as [[i j]|] eqn:Er; [|done]. simpl. intros [= <- <- <-].
    exists s, i. repeat split; try done.
    unfold find_pattern. rewrite Ec. simpl. by rewrite Er.
  - destruct (Index _ _) as [i|] eqn:Ei; [|done]. intros [= <- <- <-].
    exists s, i. repeat split; try done.
    unfold find_pattern. by rewrite decide_False.
Qed.

Lemma sum_take_S (segs : list bytes) k seg :
  segs !! k = Some seg →
  sum_list_with length (take (S k) segs)
  = sum_list_with length (take k segs) + length seg.
Proof.
  intros Hk. rewrite (take_S_r _ _ _ Hk), sum_list_with_app. simpl. lia.
Qed.

(** X6.  The Position that a literal or regular expression argument
    of a marker extracted from [content] converts to lies in that file:
    its file name is the name given to [Extract], its line is one of the
    lines of the file, its offset is the start of that line plus the
    column less one, and it comes before the start of the next line and
    before the end of the file. *)
Theorem pattern_position_in_file filename content (m : Markers) new
    a k v rest w p rest' w' :
  markers (Extract filename (Some content) m).1 = markers m ++ new →
  a ∈ new →
  convert_position a (BasicLit k v :: rest) w = Done (VPosition p, rest') w' →
  Filename (Pos p) = filename ∧
  1 ≤ Line (Pos p) ≤ length (SplitAfter content newline) ∧
  1 ≤ Column (Pos p) ∧
  Offset p = line_start content (Line (Pos p)) + (Column (Pos p) - 1) ∧
  Offset p < line_start content (Line (Pos p) + 1) ∧
  Offset p < length content.
Proof.
  intros Hm Ha Hc.
  destruct (Extract_marker_line _ _ _ _ _ Hm Ha) as (n & seg & mi & Hn & Hl & Hi & Hv).
  apply convert_position_pattern in Hc as (s & i & Hu & Hf & -> & _ & _).
  pose proof (find_pattern_bound _ _ _ _ Hf) as Hb.
  pose proof (Index_bound _ _ _ Hi) as Hmi.
  pose proof (lookup_lt_Some _ _ _ Hn) as Hlt.
  pose proof (sum_take_S _ _ _ Hn) as HS.
  assert (sum_list_with length (take (S n) (SplitAfter content newline))
          ≤ length content) as Hle.
  { rewrite <- (SplitAfter_concat content newline) at 2 by done.
    rewrite length_concat_sum.
    rewrite <- (firstn_all (SplitAfter content newline)) at 2.
    apply sum_take_mono. lia. }
  unfold match_position, line_start. simpl.
  rewrite length_of_bytes. rewrite Hv in *.
  rewrite length_take in Hb. rewrite !length_take.
  rewrite Hl. simpl.
  replace (n + 1 - 1) with n by lia.
  replace (n + 1 + 1 - 1) with (S n) by lia.
  simpl in Hmi. repeat split; try lia.
Qed.

Lemma convert_position_literal a k c v s rest w p rest' w' :
  Unquote (String c v) = Some s → c ≠ "`"%char →
  convert_position a (BasicLit k (String c v) :: rest) w
    = Done (VPosition p, rest') w' →
  ∃ i, Index (l_value (m_line a)) (to_bytes s) = Some i ∧ p = match_position a i.
Proof.
  intros Hu Hc Hd.
  apply convert_position_pattern in Hd as (s' & i & Hu' & Hf & -> & _ & _).
  rewrite Hu in Hu'. injection Hu' as <-.
  unfold find_pattern in Hf. rewrite decide_False in Hf by done. by exists i.
Qed.

(** X7.  The Position that a pattern which is not a backtick literal
    converts to, on a marker extracted from [content], points at the
    pattern: the bytes of the file from [Offset] on start with the bytes
    of the pattern. *)
Theorem literal_position_bytes filename content (m : Markers) new
    a k c v s rest w p rest' w' :
  markers (Extract filename (Some content) m).1 = markers m ++ new →
  a ∈ new →
  Unquote (String c v) = Some s → c ≠ "`"%char →
  convert_position a (BasicLit k (String c v) :: rest) w
    = Done (VPosition p, rest') w' →
  take (length (to_bytes s)) (drop (Offset p) content) = to_bytes s.
Proof.
  intros Hm Ha Hu Hc Hd.
  destruct (Extract_marker_line _ _ _ _ _ Hm Ha) as (n & seg & mi & Hn & Hl & Hi & Hv).
  destruct (convert_position_literal _ _ _ _ _ _ _ _ _ _ Hu Hc Hd) as (i & HI & ->).
  pose proof (Index_split _ _ _ HI) as Hs.
  pose proof (Index_bound _ _ _ HI) as Hb.
  unfold match_position. simpl. rewrite Hl. simpl.
  rewrite <- (SplitAfter_concat content newline) at 2 by done.
  rewrite (concat_lookup_split _ _ _ Hn).
  rewrite <- length_concat_sum, drop_app_add.
  rewrite <- (take_drop mi seg) at 1. rewrite <- Hv, Hs.
  rewrite <- !app_assoc.
  rewrite drop_app_length'
    by (rewrite length_take; lia).
  by rewrite take_app_length.
Qed.

End PositionsInFile.

(** ** The anchor table holds the first declarations *)

Section AnchorTable.
Context `{GoLib} {U : Type}.
Implicit Types (w : World U) (a : marker) (l : list marker)
  (tbl : gmap string Position).

Lemma declares_name a arg rest n X :
  m_args a = arg :: rest → name_of arg = Some n → declares a X → X = n.
Proof.
  intros Ea Hn (_ & arg' & rest' & Ea' & Hn'). congruence.
Qed.

(** The pass over [l] binds a name that was free to the Position of
    the first marker of [l] that declares it. *)
Lemma mark_loop_first l w tbl w' X :
  anchors (w_m w) = Some tbl → tbl !! X = None →
  invoke_loop mark_table l w = Done tt w' →
  ∃ tbl', anchors (w_m w') = Some tbl' ∧
    match tbl' !! X with
    | Some p =>
        ∃ pre a post, l = pre ++ a :: post ∧
          Forall (λ b, ¬ declares b X) pre ∧ declares a X ∧
          position_of (w_m w') a = Some p
    | None => Forall (λ b, ¬ declares b X) l
    end.
Proof.
  revert w tbl. induction l as [|a l IH]; intros w tbl Etbl HX Hl.
  - injection Hl as <-. exists tbl. by rewrite HX.
  - rewrite invoke_loop_cons in Hl.
    assert (∀ w1 tbl1, anchors (w_m w1) = Some tbl1 → tbl1 !! X = None →
              ¬ declares a X → invoke_loop mark_table l w1 = Done tt w' →
              ∃ tbl', anchors (w_m w') = Some tbl' ∧
                match tbl' !! X with
                | Some p =>
                    ∃ pre a' post, a :: l = pre ++ a' :: post ∧
                      Forall (λ b, ¬ declares b X) pre ∧ declares a' X ∧
                      position_of (w_m w') a' = Some p
                | None => Forall (λ b, ¬ declares b X) (a :: l)
                end) as Hskip.
    { intros w1 tbl1 E1 HX1 Hnd Hl1.
      destruct (IH w1 tbl1 E1 HX1 Hl1) as (tbl' & E' & Hc).
      exists tbl'. split; [done|].
      destruct (tbl' !! X) as [p|].
      - destruct Hc as (pre & a' & post & -> & Hpre & Hd & Hp).
        exists (a :: pre), a', post. split_and!; try done. by constructor.
      - by constructor. }
    destruct (mark_marker_cases a w tbl Etbl)
      as [[Hm Er]|[Hm [(msg & _ & Er)|[Er|(arg1 & arg2 & n & p & Ea & Hn & Hp & Er)]]]];
      rewrite Er in Hl; try done.
    + apply (Hskip w tbl); try done. by intros [? _].
    + destruct (decide (n = X)) as [->|Hne].
      * rewrite HX in Hl.
        set (w1 := put_anchors (<[X := p]> tbl) (mark_call X p w)) in *.
        destruct (mark_loop_final l w1 (<[X := p]> tbl) eq_refl)
          as (tbl' & E' & Hsub & _).
        rewrite Hl in E'. simpl in E'. exists tbl'. split; [done|].
        rewrite (lookup_weaken _ _ _ _ (lookup_insert_eq tbl X p) Hsub).
        exists [], a, l. split_and!; try done.
        -- split; [done|]. by exists arg1, [arg2].
        -- apply (position_of_mono (w_m w) _ _ _ tbl tbl'); try done.
           ++ etrans; [|exact Hsub]. by apply insert_subseteq.
           ++ unfold position_of. by rewrite Ea.
      * assert (¬ declares a X) as Hnd.
        { intros Hd. apply Hne. symmetry. by eapply declares_name. }
        destruct (tbl !! n) as [old|] eqn:En.
        -- by eapply (Hskip _ tbl); [..|exact Hl].
        -- eapply (Hskip _ (<[n := p]> tbl)); [..|exact Hl]; try done.
           by rewrite lookup_insert_ne.
Qed.

(** X8.  When the first call of [Anchors] returns, the table holds
    exactly the names that the markers declare, each bound to the
    Position of the first marker that declares it. *)
Theorem anchor_table_first_declaration w r w' :
  anchors (w_m w) = None →
  Anchors w = Done r w' →
  ∃ tbl, r = Some tbl ∧ anchors (w_m w') = Some tbl ∧
    ∀ X, match tbl !! X with
         | Some p =>
             ∃ pre a post, markers (w_m w) = pre ++ a :: post ∧
               Forall (λ b, ¬ declares b X) pre ∧ declares a X ∧
               position_of (w_m w') a = Some p
         | None => Forall (λ b, ¬ declares b X) (markers (w_m w))
         end.
Proof.
  intros E. rewrite (Anchors_first w E). unfold first_Anchors. munfold. simpl.
  rewrite dispatch_mark. simpl.
  destruct (invoke_loop _ _ _) as [[] w1|w1|w1] eqn:El; try done.
  intros [= <- <-].
  destruct (mark_loop_final (markers (w_m w)) (put_anchors ∅ w) ∅ eq_refl)
    as (tbl & E1 & _ & _).
  rewrite El in E1. simpl in E1. exists tbl. split_and!; [done..|].
  intros X.
  destruct (mark_loop_first _ (put_anchors ∅ w) ∅ _ X eq_refl (lookup_empty X) El)
    as (tbl' & E' & Hc).
  rewrite E1 in E'. by injection E' as <-.
Qed.

Lemma invoke_mark_position_fatal a w n rest w' :
  m_method a = "mark" →
  convert_string a (m_args a) w = Done (VString n, rest) w →
  convert_position a rest w = Fatal w' →
  invoke_marker mark_table a w = Fatal w'.
Proof.
  intros Hm Es Ep. unfold invoke_marker, mark_table.
  rewrite Hm, lookup_singleton_eq. simpl. munfold. simpl.
  by rewrite Es, Ep.
Qed.

(** X9.  A marker [mark(n, Y)] that the anchor pass reaches and whose
    Position argument is the name [Y] of an anchor that no earlier
    marker declares stops the pass: [Anchors] ends in the report that
    [Y] cannot be found, whether or not a later marker declares [Y]. *)
Theorem mark_forward_reference_fatal w pre a post arg1 n Y w1 :
  anchors (w_m w) = None →
  markers (w_m w) = pre ++ a :: post →
  m_method a = "mark" → m_args a = [arg1; Ident Y] → name_of arg1 = Some n →
  Forall (λ b, ¬ declares b Y) pre →
  invoke_loop mark_table pre (put_anchors ∅ w) = Done tt w1 →
  Anchors w = Fatal (log (CannotFindAnchor Y a) w1).
Proof.
  intros E Hm Hmark Ha Hn Hpre Hl.
  rewrite (Anchors_first w E). unfold first_Anchors. munfold. simpl.
  rewrite dispatch_mark. simpl. rewrite Hm, invoke_loop_app, Hl, invoke_loop_cons.
  destruct (mark_loop_other pre (put_anchors ∅ w) ∅ Y eq_refl Hpre)
    as (tbl' & errs & E' & _ & HY & _).
  rewrite Hl in E'. simpl in E'. rewrite lookup_empty in HY.
  rewrite (invoke_mark_position_fatal a w1 n [Ident Y]
             (log (CannotFindAnchor Y a) w1)); try done.
  - rewrite Ha. by apply convert_string_name.
  - unfold convert_position. munfold. unfold get_m, lookup_anchor.
    by rewrite E', HY.
Qed.

(** X10.  After the first call of [Anchors] has returned, an identifier
    given for a Position parameter converts to the Position of the
    anchor of that name when some marker of the engine declares it,
    before or after the marker that uses it, and stops the test with the
    report that the anchor cannot be found when none does. *)
Theorem identifier_argument_resolution w r w1 a rest Y :
  anchors (w_m w) = None →
  Anchors w = Done r w1 →
  ((∃ b, b ∈ markers (w_m w) ∧ declares b Y) →
   ∃ p, lookup_anchor (w_m w1) Y = Some p ∧
        convert_position a (Ident Y :: rest) w1 = Done (VPosition p, rest) w1) ∧
  ((∀ b, b ∈ markers (w_m w) → ¬ declares b Y) →
   convert_position a (Ident Y :: rest) w1
     = Fatal (log (CannotFindAnchor Y a) w1)).
Proof.
  intros E. rewrite (Anchors_first w E). unfold first_Anchors. munfold. simpl.
  rewrite dispatch_mark. simpl.
  destruct (invoke_loop _ _ _) as [[] w2|w2|w2] eqn:El; try done.
  intros [= <- <-].
  destruct (mark_loop_first _ (put_anchors ∅ w) ∅ _ Y eq_refl (lookup_empty Y) El)
    as (tbl & Et & Hc).
  unfold convert_position, lookup_anchor. munfold. unfold get_m. rewrite Et.
  split.
  - intros (b & Hb & Hd). destruct (tbl !! Y) as [p|].
    + by exists p.
    + exfalso. rewrite Forall_forall in Hc. by apply (Hc b).
  - intros Hnone. destruct (tbl !! Y) as [p|]; [|done].
    destruct Hc as (pre & b & post & Hm & _ & Hd & _).
    exfalso. apply (Hnone b); [|done]. rewrite Hm. set_solver.
Qed.

End AnchorTable.

(** ** When a handler is called, and in which order *)

Section InvokeMore.
Context `{GoLib} {U : Type}.
Implicit Types (w : World U) (a : marker) (l : list marker).

Lemma buildConverter_converts pt c w0 w0' :
  buildConverter pt w0 = Done c w0' → converts pt c.
Proof.
  intros Hb a args w. unfold buildConverter in Hb. munfold.
  destruct pt as [| | |[]]; try done; injection Hb as <- _.
  - left. exists VTesting. split; [simpl; lia|done].
  - left. exists VMarkers. split; [simpl; lia|done].
  - destruct args as [|arg args].
    { right; left. by exists (MissingArgument a). }
    destruct arg as [x|k v|fn xs|node]; simpl; munfold; simpl.
    + unfold get_m. destruct (lookup_anchor _ _) as [p|].
      * left. exists (VPosition p). split; [simpl; lia|done].
      * right; left. by exists (CannotFindAnchor x a).
    + destruct (Unquote v) as [s|].
      2:{ right; left. by exists (InvalidStringLiteralFor v a). }
      destruct v as [|c v]; [by right; right|].
      destruct (decide _).
      * destruct (regexp_Compile s) as [re|].
        2:{ right; left. by exists (RegexpError s (m_line a)). }
        simpl. destruct (re _) as [[i j]|]; simpl.
        -- left. eexists (VPosition _). split; [simpl; lia|done].
        -- right; left. by exists (PatternNotPresent s (m_line a)).
      * simpl. destruct (Index _ _) as [i|]; simpl.
        -- left. eexists (VPosition _). split; [simpl; lia|done].
        -- right; left. by exists (PatternNotPresent s (m_line a)).
    + right; left. by eexists (CannotConvertToPosition _ a).
    + right; left. by eexists (CannotConvertToPosition _ a).
  - destruct args as [|arg args]; [by right; right|].
    destruct arg as [x|k v|fn xs|node]; simpl; munfold.
    + right; left. by eexists (IntegerArgsMustBeLiteral _).
    + destruct (decide _).
      { right; left. by eexists (NonIntegerLiteral _). }
      destruct (Atoi v) as [z|].
      * left. exists (VInt z). split; [simpl; lia|done].
      * right; left. by eexists (CannotConvertToInt _).
    + right; left. by eexists (IntegerArgsMustBeLiteral _).
    + right; left. by eexists (IntegerArgsMustBeLiteral _).
  - destruct args as [|arg args]; [by right; right|].
    destruct arg as [x|k v|fn xs|node]; simpl; munfold.
    + left. exists (VString x). split; [simpl; lia|done].
    + destruct (decide _).
      { right; left. by eexists (NonStringLiteral _). }
      destruct (Unquote v) as [s|].
      * left. exists (VString s). split; [simpl; lia|done].
      * right; left. by eexists (InvalidStringLiteral _).
    + right; left. by eexists (CannotConvertToString _).
    + right; left. by eexists (CannotConvertToString _).
Qed.

Lemma build_converters_converts (pts : list rtype) cs w0 w0' :
  build_converters pts w0 = Done cs w0' → Forall2 converts pts cs.
Proof.
  revert cs w0 w0'. induction pts as [|pt pts IH]; intros cs w0 w0'; simpl; munfold.
  - intros [= <- _]. constructor.
  - destruct (buildConverter pt w0) as [c w1|w1|w1] eqn:Ec; try done.
    destruct (build_converters pts w1) as [cs' w2|w2|w2] eqn:Ecs; try done.
    intros [= <- _]. constructor.
    + by eapply buildConverter_converts.
    + by eapply IH.
Qed.

Lemma convert_params_cases (pts : list rtype) (cs : list (@converter U)) :
  Forall2 converts pts cs →
  ∀ a args w,
    (∃ params, arity pts ≤ length args ∧
               convert_params cs a args w
                 = Done (params, drop (arity pts) args) w) ∨
    (∃ msg, is_conversion_msg msg = true ∧
            convert_params cs a args w = Fatal (log msg w)) ∨
    convert_params cs a args w = Panic w.
Proof.
  induction 1 as [|pt c pts cs Hc Hcs IH]; intros a args w.
  - left. exists []. split; [simpl; lia|by rewrite drop_0].
  - simpl. munfold.
    destruct (Hc a args w) as [(v & Hlen & E)|[(msg & Hmsg & E)|E]];
      rewrite E; [|right; left; by exists msg|by right; right].
    destruct (IH a (drop (consumes pt) args) w)
      as [(vs & Hlen' & E')|[(msg & Hmsg & E')|E']];
      rewrite E'; [|right; left; by exists msg|by right; right].
    left. exists (v :: vs). rewrite length_drop in Hlen'.
    split; [unfold arity in *; simpl; lia|].
    by rewrite drop_drop.
Qed.

Lemma build_methods_other (l : list (string * handler U)) acc w0 ms w1 n :
  build_methods l acc w0 = Done ms w1 → n ∉ l.*1 → ms !! n = acc !! n.
Proof.
  revert acc w0. induction l as [|[n' h] l IH]; intros acc w0; simpl; munfold.
  - by intros [= <- _].
  - destruct (build_converters (h_in h) w0) as [cs w2|w2|w2]; try done.
    intros Hb Hn. apply not_elem_of_cons in Hn as [Hne Hn].
    rewrite (IH _ _ Hb Hn). by rewrite lookup_insert_ne.
Qed.

Lemma build_methods_lookup (l : list (string * handler U)) acc w0 ms w1 n h :
  build_methods l acc w0 = Done ms w1 → NoDup l.*1 → (n, h) ∈ l →
  ∃ cs, ms !! n = Some {| f := h; converters := cs |} ∧
        Forall2 converts (h_in h) cs.
Proof.
  revert acc w0. induction l as [|[n' h'] l IH]; intros acc w0; simpl; munfold.
  - intros _ _ Hin. by apply elem_of_nil in Hin.
  - destruct (build_converters (h_in h') w0) as [cs w2|w2|w2] eqn:Ec; try done.
    intros Hb Hnd Hin. apply NoDup_cons in Hnd as [Hn' Hnd].
    apply elem_of_cons in Hin as [[= -> ->]|Hin].
    + exists cs. split.
      * rewrite (build_methods_other _ _ _ _ _ _ Hb Hn').
        by rewrite lookup_insert_eq.
      * by eapply build_converters_converts.
    + by eapply IH.
Qed.

Lemma build_methods_of_map (methods : gmap string (handler U)) w0 ms w1 :
  build_methods (map_to_list methods) ∅ w0 = Done ms w1 →
  ∀ n, match methods !! n with
       | Some h => ∃ cs, ms !! n = Some {| f := h; converters := cs |} ∧
                         Forall2 converts (h_in h) cs
       | None => ms !! n = None
       end.
Proof.
  intros Hb n. destruct (methods !! n) as [h|] eqn:En.
  - eapply build_methods_lookup; [exact Hb|apply NoDup_fst_map_to_list|].
    by apply elem_of_map_to_list.
  - rewrite (build_methods_other _ _ _ _ _ n Hb); [done|].
    intros Hin. apply list_elem_of_fmap in Hin as ([n' h] & -> & Hin).
    apply elem_of_map_to_list in Hin. simpl in *. congruence.
Qed.

(** One turn of the dispatch loop for a marker whose method has a
    handler with the converters [cs]. *)
Lemma invoke_marker_cases (ms : gmap string (@method U)) a h cs w :
  ms !! m_method a = Some {| f := h; converters := cs |} →
  Forall2 converts (h_in h) cs →
  (∃ params, length (m_args a) = arity (h_in h) ∧
             convert_params cs a (m_args a) w = Done (params, []) w ∧
             invoke_marker ms a w
               = h_call h params (add_call (m_method a) params w)) ∨
  (arity (h_in h) < length (m_args a) ∧
   invoke_marker ms a w
     = Fatal (log (UnwantedArgs (drop (arity (h_in h)) (m_args a)) a) w)) ∨
  (∃ msg, is_conversion_msg msg = true ∧
          invoke_marker ms a w = Fatal (log msg w)) ∨
  invoke_marker ms a w = Panic w.
Proof.
  intros Hms Hcs. unfold invoke_marker. rewrite Hms. simpl. munfold.
  destruct (convert_params_cases _ _ Hcs a (m_args a) w)
    as [(params & Hlen & E)|[(msg & Hmsg & E)|E]];
    rewrite E; [|right; right; left; by exists msg|by right; right; right].
  destruct (drop _ _) as [|x rest] eqn:Ed.
  - left. exists params. split_and!; [|done|done].
    apply (f_equal length) in Ed. rewrite length_drop in Ed. simpl in Ed. lia.
  - right; left. split; [|done].
    apply (f_equal length) in Ed. rewrite length_drop in Ed. simpl in Ed. lia.
Qed.

(** The sort of the values that the converters return. *)
Lemma buildConverter_kind pt c w0 w0' :
  buildConverter pt w0 = Done c w0' → returns_kind pt c.
Proof.
  intros Hb a args w v rest w' Hc. unfold buildConverter in Hb. munfold.
  destruct pt as [| | |[]]; try done; injection Hb as <- _.
  - by injection Hc as <- _ _.
  - by injection Hc as <- _ _.
  - unfold convert_position, Fatalf, panic, get_m in Hc. munfold.
    repeat case_match; by simplify_eq.
  - unfold convert_int, Fatalf, panic in Hc. munfold.
    repeat case_match; by simplify_eq.
  - unfold convert_string, Fatalf, panic in Hc. munfold.
    repeat case_match; by simplify_eq.
Qed.

Lemma build_converters_kind (pts : list rtype) cs w0 w0' :
  build_converters pts w0 = Done cs w0' → Forall2 returns_kind pts cs.
Proof.
  revert cs w0 w0'. induction pts as [|pt pts IH]; intros cs w0 w0'; simpl; munfold.
  - intros [= <- _]. constructor.
  - destruct (buildConverter pt w0) as [c w1|w1|w1] eqn:Ec; try done.
    destruct (build_converters pts w1) as [cs' w2|w2|w2] eqn:Ecs; try done.
    intros [= <- _]. constructor.
    + by eapply buildConverter_kind.
    + by eapply IH.
Qed.

Lemma convert_params_kind (pts : list rtype) (cs : list (@converter U))
    a args w params rest w' :
  Forall2 returns_kind pts cs →
  convert_params cs a args w = Done (params, rest) w' →
  Forall2 has_kind params pts.
Proof.
  intros Hk. revert args w params.
  induction Hk as [|pt c pts cs Hc Hcs IH]; intros args w params; simpl; munfold.
  - intros Hd. injection Hd as <- _ _. constructor.
  - destruct (c a args w) as [[v args1] w1|w1|w1] eqn:E1; try done.
    destruct (convert_params cs a args1 w1) as [[vs args2] w2|w2|w2] eqn:E2;
      try done.
    intros Hd. injection Hd as <- <- <-. constructor; [by eapply Hc|by eapply IH].
Qed.

Lemma build_methods_kind (l : list (string * handler U)) acc w0 ms w1 :
  build_methods l acc w0 = Done ms w1 →
  (∀ n mi, acc !! n = Some mi →
           Forall2 returns_kind (h_in (f mi)) (converters mi)) →
  ∀ n mi, ms !! n = Some mi →
          Forall2 returns_kind (h_in (f mi)) (converters mi).
Proof.
  revert acc w0. induction l as [|[n' h] l IH]; intros acc w0; simpl; munfold.
  - by intros [= <- _].
  - destruct (build_converters (h_in h) w0) as [cs w2|w2|w2] eqn:Ec; try done.
    intros Hb Hacc. apply (IH _ _ Hb).
    intros n mi [[-> <-]|[_ Hn]]%lookup_insert_Some; [|by eapply Hacc].
    simpl. by eapply build_converters_kind.
Qed.

(** X11.  For a marker whose method has a handler, [Invoke] reaches the
    call of the handler through [reflect], [mi.f.Call(params)], only
    when the marker has as many arguments as the handler has parameters
    other than the test and the engine.  The call then gets one value
    for each parameter, of the sort that the converter for the type of
    the parameter returns: the test, the engine, a Position, a [string]
    for a type of kind String, an [int] for a type of kind Int.
    [h_call] stands for the call with the check that [reflect] makes of
    these values; whether it takes them is not stated here, and for a
    parameter of a named type of kind String or Int it does not.
    Otherwise the call is not reached: with arguments left over after
    every conversion the test stops with the report of the unwanted
    arguments, and when a conversion fails it stops with the report of
    the converter or dies of its panic. *)
Theorem handler_call_cases (methods : gmap string (handler U)) w0 ms w1 a h w :
  build_methods (map_to_list methods) ∅ w0 = Done ms w1 →
  methods !! m_method a = Some h →
  (∃ params, length (m_args a) = arity (h_in h) ∧
             Forall2 has_kind params (h_in h) ∧
             invoke_marker ms a w
               = h_call h params (add_call (m_method a) params w)) ∨
  (arity (h_in h) < length (m_args a) ∧
   invoke_marker ms a w
     = Fatal (log (UnwantedArgs (drop (arity (h_in h)) (m_args a)) a) w)) ∨
  (∃ msg, is_conversion_msg msg = true ∧
          invoke_marker ms a w = Fatal (log msg w)) ∨
  invoke_marker ms a w = Panic w.
Proof.
  intros Hb Hm. pose proof (build_methods_of_map _ _ _ _ Hb (m_method a)) as Hl.
  rewrite Hm in Hl. destruct Hl as (cs & Hms & Hcs).
  assert (Forall2 returns_kind (h_in h) cs) as Hk.
  { apply (build_methods_kind _ _ _ _ _ Hb (λ n mi E, match lookup_empty_Some n mi E with end)
             _ _ Hms). }
  destruct (invoke_marker_cases ms a h cs w Hms Hcs)
    as [(params & Hlen & Hc & E)|[?|[?|?]]]; [left|by right; left|by right; right; left|by right; right; right].
  exists params. split_and!; [done| |done].
  by eapply convert_params_kind.
Qed.

Lemma build_methods_final (l : list (string * handler U)) acc w :
  final (build_methods l acc w) = w ∨
  ∃ msg, final (build_methods l acc w) = log msg w.
Proof.
  revert acc. induction l as [|[n h] l IH]; intros acc; simpl; munfold.
  - by left.
  - destruct (build_converters_cases (U:=U) (h_in h))
      as [[_ [cs Hcs]]|(pt & _ & _ & Hf)].
    + rewrite Hcs. apply IH.
    + rewrite Hf. right. by eexists.
Qed.

Section Loop.

Variable methods : gmap string (handler U).
Variable ms : gmap string (@method U).
Hypothesis Hms :
  ∀ n, match methods !! n with
       | Some h => ∃ cs, ms !! n = Some {| f := h; converters := cs |} ∧
                         Forall2 converts (h_in h) cs
       | None => ms !! n = None
       end.


Lemma invoke_loop_engine l w :
  (∀ n h params w, methods !! n = Some h →
     w_m (final (h_call h params w)) = w_m w) →
  w_m (final (invoke_loop ms l w)) = w_m w.
Proof.
  intros Hh. revert w. induction l as [|a l IH]; intros w; [done|].
  rewrite invoke_loop_cons.
  pose proof (Hms (m_method a)) as Ha.
  destruct (methods !! m_method a) as [h|] eqn:Em.
  - destruct Ha as (cs & Ea & Hcs).
    destruct (invoke_marker_cases ms a h cs w Ea Hcs)
      as [(params & _ & _ & E)|[(_ & E)|[(msg & _ & E)|E]]]; rewrite E; try done.
    pose proof (Hh _ h params (add_call (m_method a) params w) Em) as Hc.
    destruct (h_call h params _) as [[] w2|w2|w2]; simpl in Hc; try done.
    by rewrite IH.
  - rewrite invoke_marker_skip by done. apply IH.
Qed.

End Loop.


Lemma dispatch_engine (methods : gmap string (handler U)) w :
  (∀ n h params w, methods !! n = Some h →
     w_m (final (h_call h params w)) = w_m w) →
  w_m (final (dispatch methods w)) = w_m w.
Proof.
  intros Hh. unfold dispatch. munfold. unfold get_m.
  destruct (build_methods _ _ _) as [ms w1|w1|w1] eqn:Eb.
  - pose proof (build_methods_Done _ _ _ _ _ Eb) as [-> _].
    apply (invoke_loop_engine methods ms (build_methods_of_map _ _ _ _ Eb)); done.
  - destruct (build_methods_final (map_to_list methods) ∅ w) as [E|[msg E]];
      rewrite Eb in E; simpl in *; by rewrite E.
  - destruct (build_methods_final (map_to_list methods) ∅ w) as [E|[msg E]];
      rewrite Eb in E; simpl in *; by rewrite E.
Qed.

(** X13.  With handlers that leave the engine alone, [Invoke] changes
    the engine only through the anchor pass it starts with: the engine
    after it is the engine after [Anchors], its markers are those it
    had, and nothing changes when the anchor table was set already. *)
Theorem Invoke_keeps_engine (methods : gmap string (handler U)) w :
  (∀ n h params w, methods !! n = Some h →
     w_m (final (h_call h params w)) = w_m w) →
  w_m (final (Invoke methods w)) = w_m (final (Anchors w)) ∧
  markers (w_m (final (Invoke methods w))) = markers (w_m w) ∧
  (is_Some (anchors (w_m w)) → w_m (final (Invoke methods w)) = w_m w).
Proof.
  intros Hh.
  assert (w_m (final (Invoke methods w)) = w_m (final (Anchors w))) as E.
  { rewrite Invoke_unfold. munfold.
    destruct (Anchors w) as [r w1|w1|w1]; try done. simpl.
    by apply dispatch_engine. }
  split_and!; [done| |].
  - rewrite E. by destruct (Anchors_final w) as (tbl & _ & Hm & _).
  - intros Hs. rewrite Invoke_cached by done. by apply dispatch_engine.
Qed.

End InvokeMore.

(** ** The expectations of the test agree with the engine *)

Section Oracle.
Context `{GoLib} {U : Type}.
Implicit Types (w : World U) (a : marker).

Lemma SplitAfter_newline_shape (s : bytes) :
  ∃ bodies last,
    SplitAfter s newline = ((λ b, b ++ newline) <$> bodies) ++ [last] ∧
    Forall (Forall (λ c, c ≠ nlc)) bodies ∧
    Forall (λ c, c ≠ nlc) last.
Proof.
  rewrite SplitAfter_gs. simpl.
  assert (∀ n s, length s ≤ n →
    ∃ bodies last,
      gs newline 1 s = ((λ b, b ++ newline) <$> bodies) ++ [last] ∧
      Forall (Forall (λ c, c ≠ nlc)) bodies ∧
      Forall (λ c, c ≠ nlc) last) as Hn.
  { clear s. induction n as [|n IH]; intros s Hs.
    - destruct s; [|simpl in Hs; lia]. exists [], []. by repeat split.
    - rewrite gs_unfold by done.
      destruct (Index s newline) as [m|] eqn:Ei.
      + pose proof (Index_bound _ _ _ Ei) as Hb. simpl in Hb.
        destruct (IH (drop (m + length newline) s)) as (bodies & last & E & Hb1 & Hl).
        { rewrite length_drop. simpl. lia. }
        exists (take m s :: bodies), last. split_and!.
        * rewrite E. simpl. f_equal.
          pose proof (Index_split _ _ _ Ei) as Hs'.
          rewrite Hs' at 1. rewrite app_assoc.
          rewrite take_app_length'; [done|].
          rewrite length_app, length_take. simpl. lia.
        * constructor; [|done].
          apply Index_None_nohead. by apply Index_take_None.
        * done.
      + exists [], s. split_and!; [done|constructor|].
        by apply Index_None_nohead. }
  by apply (Hn (length s)).
Qed.

Lemma Count_newline_free (x : bytes) :
  Forall (λ c, c ≠ nlc) x → Count x newline = 0.
Proof.
  intros Hx. simpl. induction Hx as [|c x Hc Hx IH]; [done|].
  rewrite filter_cons, decide_False by done. done.
Qed.

Lemma Count_app (u v : bytes) :
  Count (u ++ v) newline = Count u newline + Count v newline.
Proof. simpl. by rewrite filter_app, length_app. Qed.

Lemma Count_lines (B : list bytes) (x : bytes) :
  Forall (Forall (λ c, c ≠ nlc)) B → Forall (λ c, c ≠ nlc) x →
  Count (concat ((λ b, b ++ newline) <$> B) ++ x) newline = length B.
Proof.
  intros HB Hx. rewrite Count_app, (Count_newline_free x Hx), Nat.add_0_r.
  induction HB as [|b B Hb HB IH]; [done|].
  rewrite fmap_cons, concat_cons, !Count_app, IH, (Count_newline_free b Hb).
  done.
Qed.

Lemma LastIndex_free (x : bytes) :
  Forall (λ c, c ≠ nlc) x → LastIndex x newline = None.
Proof.
  induction 1 as [|c x Hc Hx IH]; [done|].
  simpl. rewrite IH. rewrite decide_False; [done|].
  intros [k Hk]. simpl in Hk. congruence.
Qed.

Lemma LastIndex_last (u x : bytes) :
  Forall (λ c, c ≠ nlc) x →
  LastIndex (u ++ newline ++ x) newline = Some (length u).
Proof.
  intros Hx. induction u as [|d u IH].
  - change ([] ++ newline ++ x) with (nlc :: x). cbn [LastIndex].
    rewrite (LastIndex_free x Hx).
    destruct (decide _) as [|Hn]; [done|]. exfalso. apply Hn. by exists x.
  - simpl. simpl in IH. by rewrite IH.
Qed.

Lemma concat_lines_snoc (B : list bytes) :
  B ≠ [] →
  ∃ u, concat ((λ b, b ++ newline) <$> B) = u ++ newline.
Proof.
  intros HB. destruct B as [|b B _] using rev_ind; [done|].
  rewrite fmap_app, concat_app. simpl. rewrite app_nil_r.
  eexists. by rewrite app_assoc.
Qed.

Lemma expected_position_unfold filename (content tok : bytes) o :
  Index content tok = Some o →
  expected_position filename content tok =
    (start ← (if decide (1 < Count (take o content) newline + 1)
              then LastIndex (take o content) newline else Some 0);
     Some {| Offset := o;
             Pos := {| Filename := filename;
                       tok_Offset := 0;
                       Line := Count (take o content) newline + 1;
                       Column := String.length
                                   (of_bytes (drop start (take o content))) |} |}).
Proof. intros E. unfold expected_position. by rewrite E. Qed.

(** X14.  The Position that [TestMarker] computes from the content of
    the file, for a token whose first occurrence is where a pattern of
    an extracted marker matches, has the offset, the file name and the
    line of the Position the engine gives.  After the first line it is
    that Position; on the first line its column is one less. *)
Theorem test_expectation_agrees filename content (m : Markers) new
    a k v rest w p rest' w' tok :
  markers (Extract filename (Some content) m).1 = markers m ++ new →
  a ∈ new →
  convert_position a (BasicLit k v :: rest) w = Done (VPosition p, rest') w' →
  Index content tok = Some (Offset p) →
  ∃ e, expected_position filename content tok = Some e ∧
       Offset e = Offset p ∧
       Filename (Pos e) = Filename (Pos p) ∧
       Line (Pos e) = Line (Pos p) ∧
       (1 < Line (Pos p) → e = p) ∧
       (Line (Pos p) = 1 → Column (Pos e) + 1 = Column (Pos p)).
Proof.
  intros Hm Ha Hc Hi.
  destruct (Extract_marker_line _ _ _ _ _ Hm Ha) as (n & seg & mi & Hn & Hl & Hmi & Hv).
  apply convert_position_pattern in Hc as (s & i & Hu & Hf & -> & _ & _).
  pose proof (find_pattern_bound _ _ _ _ Hf) as Hb.
  pose proof (Index_bound _ _ _ Hmi) as Hbm. simpl in Hbm.
  rewrite Hv, length_take in Hb.
  destruct (SplitAfter_newline_shape content) as (bodies & last & Es & Hbodies & Hlast).
  (* the text before the match *)
  assert (∃ x, take i seg = x ∧ Forall (λ c, c ≠ nlc) x ∧ length x = i)
    as (x & Ex & Hx & Hlx).
  { exists (take i seg). split_and!; [done| |rewrite length_take; lia].
    rewrite Es in Hn. apply lookup_app_Some in Hn as [Hn|[_ Hn]].
    - apply list_lookup_fmap_Some in Hn as (b & -> & Hb').
      rewrite length_app in Hbm. simpl in Hbm.
      rewrite take_app_le by lia.
      apply Forall_take. eapply Forall_lookup_1; [exact Hbodies|exact Hb'].
    - apply list_lookup_singleton_Some in Hn as [_ <-]. by apply Forall_take. }
  assert (n ≤ length bodies) as Hnb.
  { apply lookup_lt_Some in Hn. rewrite Es, length_app, length_fmap in Hn.
    simpl in Hn. lia. }
  assert (take (l_offset (m_line a) + i) content
          = concat ((λ b, b ++ newline) <$> take n bodies) ++ x) as Hbefore.
  { rewrite <- (SplitAfter_concat content newline) at 1 by done.
    rewrite (concat_lookup_split _ _ _ Hn).
    rewrite Hl. simpl. rewrite <- length_concat_sum.
    rewrite take_app_add, take_app_le by lia. rewrite Ex.
    f_equal. f_equal. rewrite Es, take_app_le by (rewrite length_fmap; lia).
    by rewrite fmap_take. }
  unfold match_position in Hi. simpl in Hi.
  rewrite (expected_position_unfold _ _ _ _ Hi), Hbefore.
  rewrite Count_lines by (try apply Forall_take; done).
  rewrite length_take, Nat.min_l by done.
  assert (match_position a i =
          {| Offset := l_offset (m_line a) + i;
             Pos := {| Filename := filename; tok_Offset := 0;
                       Line := n + 1; Column := i + 1 |} |}) as ->.
  { unfold match_position. rewrite length_of_bytes, Hv, take_take.
    rewrite Nat.min_l, Ex, Hlx by lia. rewrite Hl. done. }
  destruct (decide (1 < n + 1)) as [Hn1|Hn1].
  - destruct (concat_lines_snoc (take n bodies)) as [u Eu].
    { intros E. apply (f_equal length) in E. rewrite length_take in E.
      simpl in E. lia. }
    rewrite Eu, <- app_assoc, LastIndex_last by done.
    cbn [mbind option_bind]. rewrite drop_app_length, length_of_bytes.
    rewrite length_app, Hlx.
    eexists. split; [reflexivity|]. cbn [Offset Pos Filename Line Column].
    split_and!; try done; try lia.
    intros _. do 2 f_equal. simpl. lia.
  - assert (n = 0) as -> by lia.
    cbn [mbind option_bind]. rewrite drop_0, length_of_bytes.
    rewrite take_0, fmap_nil, concat_nil, app_nil_l, Hlx.
    eexists. split; [reflexivity|]. cbn [Offset Pos Filename Line Column].
    split_and!; try done; try lia.
Qed.

End Oracle.

(** ** Edges: names that are not on the line, no markers, late files *)

Section Edges.
Context `{GoLib} {U : Type}.
Implicit Types (w : World U) (a : marker).

(** X15.  A bare identifier marker that the anchor pass reaches and
    whose name does not occur on its line before the first marker
    comment stops the pass with the report that the pattern is not
    present: the text of the marker is not part of the line that is
    searched.  The library is taken to unquote what it quotes, and to
    quote with double quotes. *)
Theorem bare_identifier_needs_its_name w pre a post l part X w1 :
  anchors (w_m w) = None →
  markers (w_m w) = pre ++ a :: post →
  parse_marker l part = inr a →
  ParseExpr (TrimSpace (of_bytes part)) = Some (Ident X) →
  Unquote (Quote X) = Some X →
  (∃ c v, Quote X = String c v ∧ c ≠ "`"%char) →
  Index (l_value l) (to_bytes X) = None →
  invoke_loop mark_table pre (put_anchors ∅ w) = Done tt w1 →
  Anchors w = Fatal (log (PatternNotPresent X l) w1).
Proof.
  intros E Hm Hp He Hu (c & v & Hq & Hc) Hi Hl.
  unfold parse_marker in Hp. rewrite He in Hp. injection Hp as <-.
  rewrite (Anchors_first w E). unfold first_Anchors. munfold. simpl.
  rewrite dispatch_mark. simpl. rewrite Hm, invoke_loop_app, Hl, invoke_loop_cons.
  rewrite (invoke_mark_position_fatal _ w1 X [BasicLit STRING (Quote X)]
             (log (PatternNotPresent X l) w1)); try done.
  unfold convert_position. rewrite Hu, Hq. munfold. simpl.
  rewrite decide_False by done. by rewrite Hi.
Qed.

Lemma build_methods_supported (l : list (string * handler U)) acc :
  (∀ n h pt, (n, h) ∈ l → pt ∈ h_in h → supported pt = true) →
  ∃ ms, ∀ w, build_methods l acc w = Done ms w.
Proof.
  revert acc. induction l as [|[n h] l IH]; intros acc Hs; simpl; munfold.
  - by exists acc.
  - destruct (build_converters_cases (U:=U) (h_in h))
      as [[_ [cs Hcs]]|(pt & Hpt & Hn & _)].
    + destruct (IH (<[n := {| f := h; converters := cs |}]> acc)) as [ms Hms].
      { intros n' h' pt Hin. apply (Hs n' h' pt). by right. }
      exists ms. intros w. by rewrite Hcs.
    + rewrite (Hs n h pt) in Hn; [done|by left|done].
Qed.

(** X16.  On an engine without markers and without a table, [Anchors]
    returns the empty table, and [Invoke] with handlers of supported
    parameter types returns after setting it, without a call or a
    report. *)
Theorem Invoke_without_markers (methods : gmap string (handler U)) w :
  markers (w_m w) = [] → anchors (w_m w) = None →
  (∀ n h pt, methods !! n = Some h → pt ∈ h_in h → supported pt = true) →
  Anchors w = Done (Some ∅) (put_anchors ∅ w) ∧
  Invoke methods w = Done tt (put_anchors ∅ w).
Proof.
  intros Hm E Hs.
  assert (Anchors w = Done (Some ∅) (put_anchors ∅ w)) as HA.
  { rewrite (Anchors_first w E). unfold first_Anchors. munfold. simpl.
    rewrite dispatch_mark. simpl. by rewrite Hm. }
  split; [done|]. rewrite Invoke_unfold. munfold. rewrite HA.
  unfold dispatch. munfold.
  destruct (build_methods_supported (map_to_list methods) ∅) as [ms Hms].
  { intros n h pt Hin. apply (Hs n h pt). by apply elem_of_map_to_list. }
  rewrite Hms. simpl. by rewrite Hm.
Qed.

(** X17.  Markers extracted after the anchor table was set declare no
    anchor: [Anchors] returns the table as it was, [Invoke] goes
    straight to the dispatch loop, and an identifier that the table does
    not bind stops the test, whatever the new markers declare. *)
Theorem late_extract_declares_nothing filename content (m : Markers) tbl w :
  anchors m = Some tbl →
  w_m w = (Extract filename content m).1 →
  Anchors w = Done (Some tbl) w ∧
  (∀ methods, Invoke methods w = dispatch methods w) ∧
  (∀ a Y rest, tbl !! Y = None →
     convert_position a (Ident Y :: rest) w
       = Fatal (log (CannotFindAnchor Y a) w)).
Proof.
  intros Hm Hw.
  assert (anchors (w_m w) = Some tbl) as Et.
  { by rewrite Hw, Extract_anchors. }
  split_and!.
  - unfold Anchors. by apply Anchors_with_cached.
  - intros methods. apply Invoke_cached. by rewrite Et.
  - intros a Y rest HY. unfold convert_position, lookup_anchor. munfold.
    unfold get_m. by rewrite Et, HY.
Qed.

End Edges.

(** * The engine on concrete files, with the reference library *)

Section Witnesses.
#[local] Existing Instance Reference.lib.

(** ** A match after a letter outside ASCII (C1) *)

Example eps_extracted : markers (extracted "a.go" eps_content) = [eps_marker].
Proof. vm_compute. reflexivity. Qed.

(** C1, counterexample.  The pattern "x" matches at byte index 2 of the
    content of the line; one rune precedes it, which counted in runes is
    column 2; the converter returns column 3. *)
Lemma column_not_in_runes :
  Index (l_value (m_line eps_marker)) (to_bytes "x") = Some 2 ∧
  RuneCount (take 2 (l_value (m_line eps_marker))) = 1 ∧
  convert_position eps_marker [BasicLit STRING (quoted "x")]
    (world (extracted "a.go" eps_content))
  = Done (VPosition eps_position, []) (world (extracted "a.go" eps_content)) ∧
  Column (Pos eps_position)
  ≠ RuneCount (take 2 (l_value (m_line eps_marker))) + 1.
Proof. vm_compute. split_and!; try reflexivity. discriminate. Qed.

Lemma position_column_in_bytes_witness :
  convert_position eps_marker [BasicLit STRING (quoted "x")]
    (world (extracted "a.go" eps_content))
  = Done (VPosition eps_position, []) (world (extracted "a.go" eps_content)) ∧
  ∃ s i,
    Unquote (quoted "x") = Some s ∧
    find_pattern eps_marker (quoted "x") s = Some i ∧
    i ≤ length (l_value (m_line eps_marker)) ∧
    Offset eps_position = l_offset (m_line eps_marker) + i ∧
    Column (Pos eps_position)
    = length (take i (l_value (m_line eps_marker))) + 1 ∧
    Column (Pos eps_position) = i + 1 ∧
    (Forall (λ c, nat_of_ascii c < 128) (take i (l_value (m_line eps_marker))) →
     Column (Pos eps_position)
     = RuneCount (take i (l_value (m_line eps_marker))) + 1).
Proof.
  split; [vm_compute; reflexivity|].
  apply (position_column_in_bytes (H:=Reference.lib) eps_marker STRING (quoted "x") []
           (world (extracted "a.go" eps_content)) eps_position []
           (world (extracted "a.go" eps_content))).
  vm_compute. reflexivity.
Defined.

(** ** A handler called with too few arguments (C2) *)

(** C2, at the failing input: the call of [Invoke] ends in a run time
    panic, after nothing was reported. *)
Lemma missing_int_argument_panics :
  ∃ w, Invoke printI_table (world (extracted "a.go" printI_content)) = Panic w ∧
       output (w_t w) = [].
Proof. eexists. vm_compute. split; reflexivity. Qed.

(** ** A file with a duplicate (C3, C5) *)

Example dup_extracted :
  Extract "a.go" (Some (to_bytes dup_content)) engine0
  = ({| anchors := None; markers := [dup_a1; dup_a2; dup_b] |}, None).
Proof. vm_compute. reflexivity. Qed.

Example dup_lines :
  s_lines (extract_file dup_file []).1
  = [dup_line1; dup_line2;
     {| l_file := dup_file; l_offset := 32; l_number := 3; l_value := [] |}] ∧
  s_offset (extract_file dup_file []).1 = 32 ∧
  length (f_content dup_file) = 32.
Proof. vm_compute. split_and!; reflexivity. Qed.


Example dup_anchors :
  lookup_anchor
    (w_m (final (Anchors (world (extracted "a.go" dup_content))))) "A"
  = Some dup_p1 ∧
  output (w_t (final (Anchors (world (extracted "a.go" dup_content)))))
  = [AnchorAlreadyExists "A" dup_p1 dup_p2] ∧
  lookup_anchor
    (w_m (final (Anchors (world (extracted "a.go" dup_content))))) "B"
  = Some dup_p2.
Proof. vm_compute. split_and!; reflexivity. Qed.

Lemma duplicate_anchor_first_wins_witness :
  ∃ p1 p2,
    position_of (w_m dup_world2) dup_a1 = Some p1 ∧
    position_of (w_m dup_world2) dup_a2 = Some p2 ∧
    Anchors (world (extracted "a.go" dup_content)) =
      (invoke_loop mark_table [dup_b];; m ← get_m; mret (anchors m))
        dup_world2 ∧
    lookup_anchor
      (w_m (final (Anchors (world (extracted "a.go" dup_content))))) "A"
    = Some p1 ∧
    ∃ errs,
      output (w_t (final (Anchors (world (extracted "a.go" dup_content)))))
      = output (w_t (world (extracted "a.go" dup_content))) ++ errs ∧
      List.filter (is_dup "A") errs = [AnchorAlreadyExists "A" p1 p2].
Proof.
  apply (duplicate_anchor_first_wins (H:=Reference.lib)
           (world (extracted "a.go" dup_content))
           [] dup_a1 [] dup_a2 [dup_b] "A" dup_world2).
  - vm_compute. reflexivity.
  - vm_compute. reflexivity.
  - split; [reflexivity|]. eexists _, _. split; reflexivity.
  - split; [reflexivity|]. eexists _, _. split; reflexivity.
  - intros a Ha. apply list_elem_of_singleton in Ha as ->.
    intros [_ (arg & rest & Ea & Hn)]. injection Ea as <- <-. discriminate.
  - vm_compute. reflexivity.
Defined.

(** ** A literal pattern (C6) *)

Example foo_extracted :
  markers (extracted "a.go" ("foo //@mark(P, " ++ quoted "foo" ++ ")"))
  = [foo_marker].
Proof. vm_compute. reflexivity. Qed.

Lemma quoted_pattern_position_witness :
  (∃ tl, foo_segment = l_value (m_line foo_marker) ++ tl ∧
         (tl = [] ∨ markerComment `prefix_of` tl) ∧
         Index (l_value (m_line foo_marker)) markerComment = None) ∧
  match Index (l_value (m_line foo_marker)) (to_bytes "foo") with
  | Some i =>
      (∃ p, convert_position foo_marker [BasicLit STRING (quoted "foo")]
              (world engine0)
              = Done (VPosition p, []) (world engine0) ∧
            Offset p = 0 + i ∧
            Filename (Pos p) = f_name foo_file ∧
            Line (Pos p) = 0 + 1) ∧
      l_value (m_line foo_marker)
        = take i (l_value (m_line foo_marker)) ++ to_bytes "foo"
            ++ drop (i + length (to_bytes "foo")) (l_value (m_line foo_marker)) ∧
      (∀ j, j < i →
            ¬ to_bytes "foo" `prefix_of` drop j (l_value (m_line foo_marker)))
  | None =>
      convert_position foo_marker [BasicLit STRING (quoted "foo")]
        (world engine0)
        = Fatal (log (PatternNotPresent "foo" (m_line foo_marker)) (world engine0)) ∧
      (∀ j, ¬ to_bytes "foo" `prefix_of` drop j (l_value (m_line foo_marker)))
  end.
Proof.
  apply (quoted_pattern_position (H:=Reference.lib) foo_file 0 0 foo_segment
           foo_marker STRING "034"%char ("foo" ++ String "034"%char EmptyString)
           "foo" [] (world engine0)).
  - reflexivity.
  - vm_compute. reflexivity.
  - discriminate.
Defined.

(** ** A marker without a handler (C7) *)


Example calls_extracted :
  markers (extracted "a.go" calls_content)
  = [calls_mark; calls_check] ++ calls_other :: [].
Proof. vm_compute. reflexivity. Qed.


(** ** A handler with a parameter that is not supported (C9) *)

(** C9, counterexample.  The engine has extracted the line
    [foo //@mark(P, "foo")] and has not computed its anchors.  [Invoke]
    with the table stops with the report of the invalid parameter type,
    but by then the marker has been dispatched to the handler of "mark"
    and the anchor [P] is bound. *)
Lemma marker_dispatched_before_type_error :
  ∃ w, Invoke bool_table
         (world (extracted "a.go" ("foo //@mark(P, " ++ quoted "foo" ++ ")")))
       = Fatal w ∧
       output (w_t w) = [ActionParamInvalidType (otherType KBool)] ∧
       w_calls w
       = [("mark", [VTesting; VMarkers; VString "P"; VPosition foo_position])] ∧
       lookup_anchor (w_m w) "P" = Some foo_position.
Proof. eexists. vm_compute. split_and!; reflexivity. Qed.

Lemma unsupported_parameter_type_fatal_witness :
  ∃ pt', supported pt' = false ∧
    (∃ name' h', bool_table !! name' = Some h' ∧ pt' ∈ h_in h') ∧
    (∀ w : World unit, Invoke bool_table w =
            match Anchors w with
            | Done _ w1 => Fatal (log (ActionParamInvalidType pt') w1)
            | Fatal w1 => Fatal w1
            | Panic w1 => Panic w1
            end) ∧
    (∀ w : World unit, is_Some (anchors (w_m w)) →
          Invoke bool_table w = Fatal (log (ActionParamInvalidType pt') w)).
Proof.
  apply (unsupported_parameter_type_fatal (H:=Reference.lib) bool_table
           "check" {| h_in := [otherType KBool]; h_call := λ _, mret tt |}
           (otherType KBool)).
  - vm_compute. reflexivity.
  - by left.
  - reflexivity.
Defined.

(** ** A marker that does not parse (C10) *)

Example bad_extracted :
  Extract "a.go" (Some (to_bytes bad_content)) engine0
  = ({| anchors := None;
        markers := [ {| m_line := bad_line1; m_method := "mark";
                        m_args := [Ident "A"; BasicLit STRING (quoted "A")] |} ] |},
     Some (ParseError bad_line2)).
Proof. vm_compute. reflexivity. Qed.


(** ** The two ways to declare an anchor (C4) *)

Lemma bare_identifier_is_mark_sugar_witness :
  (∀ l, parse_marker l (bare_form "Foo" ++ rest_of_candidate (to_bytes nl))
        = parse_marker l (explicit_form "Foo" ++ rest_of_candidate (to_bytes nl)) ∧
        parse_marker l (bare_form "Foo" ++ rest_of_candidate (to_bytes nl))
        = inr {| m_line := l; m_method := "mark";
                 m_args := [Ident "Foo"; BasicLit STRING (quoted "Foo")] |}) ∧
  ∀ (w1 w2 : World unit),
    w_m w1 = (Extract "a.go"
                (Some (to_bytes "var Foo int " ++ markerComment
                         ++ bare_form "Foo" ++ to_bytes nl)) engine0).1 →
    w_m w2 = (Extract "a.go"
                (Some (to_bytes "var Foo int " ++ markerComment
                         ++ explicit_form "Foo" ++ to_bytes nl)) engine0).1 →
    lookup_anchor (w_m (final (Anchors w1))) "Foo"
    = lookup_anchor (w_m (final (Anchors w2))) "Foo".
Proof.
  apply (bare_identifier_is_mark_sugar (H:=Reference.lib) "a.go"
           (to_bytes "var Foo int ") (to_bytes nl) "Foo" engine0).
  - repeat constructor; discriminate.
  - vm_compute. reflexivity.
  - vm_compute. reflexivity.
  - vm_compute. reflexivity.
Defined.

(** Both files bind [Foo] to the Position of the text "Foo" on the
    line. *)
Example sugar_anchors :
  lookup_anchor
    (w_m (final (Anchors (world (extracted "a.go"
       ("var Foo int //@Foo" ++ nl)))))) "Foo"
  = Some {| Pos := {| Filename := "a.go"; tok_Offset := 0; Line := 1; Column := 5 |};
            Offset := 4 |} ∧
  lookup_anchor
    (w_m (final (Anchors (world (extracted "a.go"
       ("var Foo int //@mark(Foo, " ++ quoted "Foo" ++ ")" ++ nl)))))) "Foo"
  = Some {| Pos := {| Filename := "a.go"; tok_Offset := 0; Line := 1; Column := 5 |};
            Offset := 4 |}.
Proof. vm_compute. split; reflexivity. Qed.

(** ** The further properties at concrete inputs *)

Lemma Extract_line_order_witness :
  l_number (m_line dup_a1) ≤ l_number (m_line dup_b) ∧
  l_offset (m_line dup_a1) ≤ l_offset (m_line dup_b) ∧
  (l_number (m_line dup_a1) = l_number (m_line dup_b) →
   m_line dup_a1 = m_line dup_b).
Proof.
  apply (Extract_line_order (H:=Reference.lib) "a.go" (to_bytes dup_content)
           engine0 [dup_a1; dup_a2; dup_b] 0 2).
  - vm_compute. reflexivity.
  - reflexivity.
  - reflexivity.
  - lia.
Defined.

Lemma Extract_error_first_rejected_witness :
  ∃ pre l part post parsed,
    candidates {| f_name := "a.go"; f_content := to_bytes bad_content |}
      = pre ++ (l, part) :: post ∧
    Forall2 (λ c a, parse_marker c.1 c.2 = inr a) pre parsed ∧
    parse_marker l part = inl (ParseError bad_line2) ∧
    markers (Extract "a.go" (Some (to_bytes bad_content)) engine0).1
      = markers engine0 ++ parsed ∧
    ParseError bad_line2 ≠ CouldNotReadFile.
Proof.
  apply (Extract_error_first_rejected (H:=Reference.lib)).
  vm_compute. reflexivity.
Defined.

Lemma Extract_without_marker_comment_witness :
  Extract "a.go" (Some (to_bytes plain_content)) engine0 = (engine0, None).
Proof.
  apply (Extract_without_marker_comment (H:=Reference.lib)).
  vm_compute. reflexivity.
Defined.

Lemma dup_a2_in : dup_a2 ∈ [dup_a1; dup_a2; dup_b].
Proof. apply list_elem_of_further, list_elem_of_here. Qed.

Lemma pattern_position_in_file_witness :
  Filename (Pos dup_p2) = "a.go" ∧
  1 ≤ Line (Pos dup_p2) ≤ length (SplitAfter (to_bytes dup_content) newline) ∧
  1 ≤ Column (Pos dup_p2) ∧
  Offset dup_p2
  = line_start (to_bytes dup_content) (Line (Pos dup_p2))
    + (Column (Pos dup_p2) - 1) ∧
  Offset dup_p2 < line_start (to_bytes dup_content) (Line (Pos dup_p2) + 1) ∧
  Offset dup_p2 < length (to_bytes dup_content).
Proof.
  apply (pattern_position_in_file (H:=Reference.lib) (U:=unit) "a.go"
           (to_bytes dup_content) engine0 [dup_a1; dup_a2; dup_b] dup_a2
           STRING (quoted "B") [] (world engine0) dup_p2 [] (world engine0)).
  - vm_compute. reflexivity.
  - apply dup_a2_in.
  - vm_compute. reflexivity.
Defined.

Lemma literal_position_bytes_witness :
  take (length (to_bytes "B")) (drop (Offset dup_p2) (to_bytes dup_content))
  = to_bytes "B".
Proof.
  apply (literal_position_bytes (H:=Reference.lib) (U:=unit) "a.go"
           (to_bytes dup_content) engine0 [dup_a1; dup_a2; dup_b] dup_a2
           STRING "034"%char ("B" ++ String "034"%char EmptyString) "B" []
           (world engine0) dup_p2 [] (world engine0)).
  - vm_compute. reflexivity.
  - apply dup_a2_in.
  - vm_compute. reflexivity.
  - discriminate.
  - vm_compute. reflexivity.
Defined.

Lemma anchor_table_first_declaration_witness :
  ∃ tbl, anchors (w_m dup_final) = Some tbl ∧ anchors (w_m dup_final) = Some tbl ∧
    ∀ X, match tbl !! X with
         | Some p =>
             ∃ pre a post,
               markers (w_m (world (extracted "a.go" dup_content)))
                 = pre ++ a :: post ∧
               Forall (λ b, ¬ declares b X) pre ∧ declares a X ∧
               position_of (w_m dup_final) a = Some p
         | None =>
             Forall (λ b, ¬ declares b X)
               (markers (w_m (world (extracted "a.go" dup_content))))
         end.
Proof.
  apply (anchor_table_first_declaration (H:=Reference.lib)
           (world (extracted "a.go" dup_content))
           (anchors (w_m dup_final)) dup_final).
  - vm_compute. reflexivity.
  - vm_compute. reflexivity.
Defined.

Lemma mark_forward_reference_fatal_witness :
  Anchors (world (extracted "a.go" fwd_content))
  = Fatal (log (CannotFindAnchor "A" fwd_a)
             (put_anchors ∅ (world (extracted "a.go" fwd_content)))).
Proof.
  apply (mark_forward_reference_fatal (H:=Reference.lib)
           (world (extracted "a.go" fwd_content)) [] fwd_a [fwd_b]
           (Ident "B") "B" "A").
  - vm_compute. reflexivity.
  - vm_compute. reflexivity.
  - reflexivity.
  - reflexivity.
  - reflexivity.
  - constructor.
  - reflexivity.
Defined.

Lemma identifier_argument_resolution_witness :
  ((∃ b, b ∈ markers (w_m (world (extracted "a.go" dup_content))) ∧
         declares b "B") →
   ∃ p, lookup_anchor (w_m dup_final) "B" = Some p ∧
        convert_position check_marker (Ident "B" :: []) dup_final
          = Done (VPosition p, []) dup_final) ∧
  ((∀ b, b ∈ markers (w_m (world (extracted "a.go" dup_content))) →
         ¬ declares b "B") →
   convert_position check_marker (Ident "B" :: []) dup_final
     = Fatal (log (CannotFindAnchor "B" check_marker) dup_final)).
Proof.
  apply (identifier_argument_resolution (H:=Reference.lib)
           (world (extracted "a.go" dup_content))
           (anchors (w_m dup_final)) dup_final).
  - vm_compute. reflexivity.
  - vm_compute. reflexivity.
Defined.

Lemma handler_call_cases_witness :
  (∃ params, length (m_args check_marker) = arity (h_in check_handler) ∧
             Forall2 has_kind params (h_in check_handler) ∧
             invoke_marker check_methods check_marker (world engine0)
               = h_call check_handler params
                   (add_call (m_method check_marker) params (world engine0))) ∨
  (arity (h_in check_handler) < length (m_args check_marker) ∧
   invoke_marker check_methods check_marker (world engine0)
     = Fatal (log (UnwantedArgs (drop (arity (h_in check_handler))
                                   (m_args check_marker)) check_marker)
                (world engine0))) ∨
  (∃ msg, is_conversion_msg msg = true ∧
          invoke_marker check_methods check_marker (world engine0)
            = Fatal (log msg (world engine0))) ∨
  invoke_marker check_methods check_marker (world engine0)
    = Panic (world engine0).
Proof.
  apply (handler_call_cases (H:=Reference.lib) check_table (world engine0)
           check_methods (world engine0)).
  - vm_compute. reflexivity.
  - vm_compute. reflexivity.
Defined.


Lemma check_table_keeps_engine :
  ∀ n (h : handler unit) params w,
    check_table !! n = Some h →
    w_m (final (h_call h params w)) = w_m w.
Proof.
  intros n h params w Hl. unfold check_table in Hl.
  apply lookup_singleton_Some in Hl as [_ <-]. reflexivity.
Qed.


Lemma Invoke_keeps_engine_witness :
  w_m (final (Invoke check_table (world (extracted "a.go" calls_content))))
  = w_m (final (Anchors (world (extracted "a.go" calls_content)))) ∧
  markers (w_m (final (Invoke check_table
                         (world (extracted "a.go" calls_content)))))
  = markers (w_m (world (extracted "a.go" calls_content))) ∧
  (is_Some (anchors (w_m (world (extracted "a.go" calls_content)))) →
   w_m (final (Invoke check_table (world (extracted "a.go" calls_content))))
   = w_m (world (extracted "a.go" calls_content))).
Proof.
  apply (Invoke_keeps_engine (H:=Reference.lib) check_table
           (world (extracted "a.go" calls_content))).
  exact check_table_keeps_engine.
Defined.

Lemma test_expectation_agrees_witness :
  ∃ e, expected_position "a.go" (to_bytes dup_content) (to_bytes "B") = Some e ∧
       Offset e = Offset dup_p2 ∧
       Filename (Pos e) = Filename (Pos dup_p2) ∧
       Line (Pos e) = Line (Pos dup_p2) ∧
       (1 < Line (Pos dup_p2) → e = dup_p2) ∧
       (Line (Pos dup_p2) = 1 → Column (Pos e) + 1 = Column (Pos dup_p2)).
Proof.
  apply (test_expectation_agrees (H:=Reference.lib) (U:=unit) "a.go"
           (to_bytes dup_content) engine0 [dup_a1; dup_a2; dup_b] dup_a2
           STRING (quoted "B") [] (world engine0) dup_p2 [] (world engine0)).
  - vm_compute. reflexivity.
  - apply dup_a2_in.
  - vm_compute. reflexivity.
  - vm_compute. reflexivity.
Defined.

Lemma bare_identifier_needs_its_name_witness :
  Anchors (world (extracted "a.go" lone_content))
  = Fatal (log (PatternNotPresent "Foo" lone_line)
             (put_anchors ∅ (world (extracted "a.go" lone_content)))).
Proof.
  apply (bare_identifier_needs_its_name (H:=Reference.lib)
           (world (extracted "a.go" lone_content)) [] lone_marker []
           lone_line (to_bytes "Foo") "Foo").
  - vm_compute. reflexivity.
  - vm_compute. reflexivity.
  - vm_compute. reflexivity.
  - vm_compute. reflexivity.
  - vm_compute. reflexivity.
  - exists "034"%char, ("Foo" ++ String "034"%char EmptyString)%string.
    split; [vm_compute; reflexivity|discriminate].
  - vm_compute. reflexivity.
  - reflexivity.
Defined.

Lemma Invoke_without_markers_witness :
  Anchors (world engine0) = Done (Some ∅) (put_anchors ∅ (world engine0)) ∧
  Invoke check_table (world engine0) = Done tt (put_anchors ∅ (world engine0)).
Proof.
  apply (Invoke_without_markers (H:=Reference.lib) check_table (world engine0)).
  - reflexivity.
  - reflexivity.
  - intros n h pt Hl Hpt. unfold check_table in Hl.
    apply lookup_singleton_Some in Hl as [_ <-]. simpl in Hpt.
    apply elem_of_cons in Hpt as [->|Hpt]; [reflexivity|].
    apply list_elem_of_singleton in Hpt as ->. reflexivity.
Defined.

Lemma late_extract_declares_nothing_witness :
  Anchors (world (Extract "a.go" (Some (to_bytes "A //@A")) engine_set).1)
  = Done (Some ∅) (world (Extract "a.go" (Some (to_bytes "A //@A")) engine_set).1) ∧
  (∀ methods,
     Invoke methods (world (Extract "a.go" (Some (to_bytes "A //@A")) engine_set).1)
     = dispatch methods
         (world (Extract "a.go" (Some (to_bytes "A //@A")) engine_set).1)) ∧
  (∀ a Y rest, (∅ : gmap string Position) !! Y = None →
     convert_position a (Ident Y :: rest)
       (world (Extract "a.go" (Some (to_bytes "A //@A")) engine_set).1)
     = Fatal (log (CannotFindAnchor Y a)
                (world (Extract "a.go" (Some (to_bytes "A //@A")) engine_set).1))).
Proof.
  apply (late_extract_declares_nothing (H:=Reference.lib) "a.go"
           (Some (to_bytes "A //@A")) engine_set ∅).
  - reflexivity.
  - reflexivity.
Defined.

End Witnesses.
